(** * 事務事業評価シート: struct_pdf — a shallow embedding and its properties

    The development follows [01_struct_pdf.py]: glyphs are clustered into
    text lines ([extract_lines]), pages are cut into sheets at the pages that
    carry the sheet marker (the segmentation loop of [main]), the lines of a
    sheet are split into sections ([find_sections]), the code and the name of
    the programme are recovered by a cascade of heuristics
    ([try_extract_code_from_text], [try_extract_code_from_lines],
    [try_extract_code_and_name_from_lines]) and every sheet receives a file
    name that no earlier sheet of the run received (the [used_names] loop of
    [main]).

    Python values are modelled as follows.
    - [str] is a list of Unicode code points ([N]); [len], slicing, [in] and
      the regular expressions of the source all work on code points.
    - [float] is the kernel's binary64 ([PrimFloat.float]), with the IEEE
      comparisons Python uses. Coordinates are numbers: what is proved
      about an order of characters or lines assumes that no coordinate is
      a NaN.
    - [int] page indices are [Z].
    - an exception is a value of [exc]; a function that can raise returns
      [exc A].
    - the files of the output directory and the lines printed make up a
      [world]; whether a write or a print fails is decided by the
      environment, a parameter of [main].
    - [dict] (insertion ordered) is an association list; the [set] of used
      file names is a [gset]. *)

#[local] Set Warnings "-inexact-float,-clear-no-such-hyp".
From Stdlib Require Import Floats.PrimFloat.
From Stdlib Require Floats.SpecFloat Floats.FloatOps Floats.FloatAxioms.
From Stdlib Require Import Strings.String Strings.Ascii.
From Stdlib Require Import Numbers.DecimalNat.
From stdpp Require Import base list gmap sets sorting.

Local Open Scope N_scope.

(** ** Strings *)

Definition char := N.
Definition str := list char.

Module Utf8.
(** Source literals are written as UTF-8 text and decoded to code points. *)

Fixpoint bytes (s : String.string) : list N :=
  match s with
  | String.EmptyString => []
  | String.String a s' => N_of_ascii a :: bytes s'
  end.

Definition cont (b : N) : N := N.land b 63.

Fixpoint decode (bs : list N) : str :=
  match bs with
  | [] => []
  | b0 :: bs1 =>
    if b0 <? 128 then b0 :: decode bs1
    else if b0 <? 224 then
      match bs1 with
      | b1 :: bs2 => (N.land b0 31 * 64 + cont b1) :: decode bs2
      | _ => [b0]
      end
    else if b0 <? 240 then
      match bs1 with
      | b1 :: b2 :: bs3 =>
        (N.land b0 15 * 4096 + cont b1 * 64 + cont b2) :: decode bs3
      | _ => [b0]
      end
    else
      match bs1 with
      | b1 :: b2 :: b3 :: bs4 =>
        (N.land b0 7 * 262144 + cont b1 * 4096 + cont b2 * 64 + cont b3)
          :: decode bs4
      | _ => [b0]
      end
  end.
End Utf8.

Definition u (s : String.string) : str := Utf8.decode (Utf8.bytes s).
Arguments u s%_string.

Definition str_eqb (a b : str) : bool := bool_decide (a = b).

(** [str.isspace] for one code point, the test behind [str.strip()],
    [str.split()] and the class [\s] of a [str] pattern. *)
Definition is_space (c : char) : bool :=
  ((9 <=? c) && (c <=? 13)) || ((28 <=? c) && (c <=? 32))
  || (c =? 133) || (c =? 160) || (c =? 5760)
  || ((8192 <=? c) && (c <=? 8202))
  || (c =? 8232) || (c =? 8233) || (c =? 8239) || (c =? 8287) || (c =? 12288).

(** [s.lstrip(chars)], [s.rstrip(chars)], [s.strip(chars)] for a set of
    characters given by its membership test. *)
Fixpoint lstrip_by (p : char -> bool) (s : str) : str :=
  match s with
  | c :: s' => if p c then lstrip_by p s' else s
  | [] => []
  end.

Fixpoint rstrip_by (p : char -> bool) (s : str) : str :=
  match s with
  | c :: s' =>
    match rstrip_by p s' with
    | [] => if p c then [] else [c]
    | t => c :: t
    end
  | [] => []
  end.

Definition strip_by (p : char -> bool) (s : str) : str :=
  rstrip_by p (lstrip_by p s).

(** [s.strip()] *)
Definition strip (s : str) : str := strip_by is_space s.

(** [s.split()]: the maximal runs of non-blank characters. [cur] is the run
    being read, in reverse. *)
Fixpoint split_ws_aux (cur : str) (s : str) : list str :=
  match s with
  | [] => match cur with [] => [] | _ => [rev cur] end
  | c :: s' =>
    if is_space c then
      match cur with
      | [] => split_ws_aux [] s'
      | _ => rev cur :: split_ws_aux [] s'
      end
    else split_ws_aux (c :: cur) s'
  end.

Definition split_ws (s : str) : list str := split_ws_aux [] s.

(** [s.split(sep)] for a separator of one character: every occurrence cuts,
    empty pieces are kept, the result is never empty. *)
Fixpoint split_char_aux (sep : char) (cur : str) (s : str) : list str :=
  match s with
  | [] => [rev cur]
  | c :: s' =>
    if c =? sep then rev cur :: split_char_aux sep [] s'
    else split_char_aux sep (c :: cur) s'
  end.

Definition split_char (sep : char) (s : str) : list str :=
  split_char_aux sep [] s.

(** [re.split] for a pattern [[...]+] over a character class: the pieces
    between the maximal runs of class members, empty pieces at both ends
    kept. [inrun] says that the previous character belonged to a run. *)
Fixpoint re_split_runs_aux (p : char -> bool) (inrun : bool) (cur : str)
    (s : str) : list str :=
  match s with
  | [] => [rev cur]
  | c :: s' =>
    if p c then
      if inrun then re_split_runs_aux p true cur s'
      else rev cur :: re_split_runs_aux p true [] s'
    else re_split_runs_aux p false (c :: cur) s'
  end.

Definition re_split_runs (p : char -> bool) (s : str) : list str :=
  re_split_runs_aux p false [] s.

(** [c in s] for a character, [sub in s] for a string, [s.startswith],
    [s.endswith]. *)
Definition has_char (c : char) (s : str) : bool := existsb (N.eqb c) s.

Fixpoint startswith (pre s : str) : bool :=
  match pre, s with
  | [], _ => true
  | a :: pre', b :: s' => (a =? b) && startswith pre' s'
  | _ :: _, [] => false
  end.

Fixpoint contains (sub s : str) : bool :=
  startswith sub s ||
  match s with
  | [] => false
  | _ :: s' => contains sub s'
  end.

Definition endswith (suf s : str) : bool := startswith (rev suf) (rev s).

(** [sep.join(parts)] *)
Fixpoint join (sep : str) (parts : list str) : str :=
  match parts with
  | [] => []
  | [p] => p
  | p :: ps => p ++ sep ++ join sep ps
  end.

(** The string of one newline. *)
Definition NL : str := [10].

(** [s.replace(a, b)] for single characters. *)
Definition replace_char (a b : char) (s : str) : str :=
  map (fun c => if c =? a then b else c) s.

(** [str(n)] for a natural number: its decimal digits. *)
Fixpoint uint_digits (d : Decimal.uint) : str :=
  match d with
  | Decimal.Nil => []
  | Decimal.D0 d => 48 :: uint_digits d
  | Decimal.D1 d => 49 :: uint_digits d
  | Decimal.D2 d => 50 :: uint_digits d
  | Decimal.D3 d => 51 :: uint_digits d
  | Decimal.D4 d => 52 :: uint_digits d
  | Decimal.D5 d => 53 :: uint_digits d
  | Decimal.D6 d => 54 :: uint_digits d
  | Decimal.D7 d => 55 :: uint_digits d
  | Decimal.D8 d => 56 :: uint_digits d
  | Decimal.D9 d => 57 :: uint_digits d
  end.

Definition str_of_nat (n : nat) : str := uint_digits (Nat.to_uint n).

(** ** Regular expressions

    The patterns of the source, as syntax trees, and a backtracking matcher
    with the priorities of Python's [re]: alternatives from left to right, a
    greedy quantifier tries the longest repetition first, a lazy one the
    shortest. Every quantifier of the source stands on a character class, so
    [Rep] quantifies a class. *)

Inductive regex :=
| Eps
| Lit (c : char)
| Cls (p : char -> bool)
| Rep (p : char -> bool) (lo : nat) (greedy : bool)
| Seq (r1 r2 : regex)
| Alt (r1 r2 : regex)
| Grp (i : nat) (r : regex)
| Bol
| Eol.

Definition caps := list (nat * str).

(** A match: the groups and the position where it ends. *)
Definition rmatch_result : Type := caps * nat.

Definition or_else {A} (a b : option A) : option A :=
  match a with Some _ => a | None => b end.

(** [p{lo,}] (greedy) or [p{lo,}?] (lazy) at position [pos], where [s] is
    what is left of the subject; [k] continues the match. *)
Fixpoint rep (p : char -> bool) (greedy : bool)
    (k : nat -> str -> option rmatch_result) (lo : nat) (pos : nat) (s : str)
    : option rmatch_result :=
  match s with
  | c :: s' =>
    if p c then
      match lo with
      | O =>
        if greedy then or_else (rep p greedy k O (S pos) s') (k pos s)
        else or_else (k pos s) (rep p greedy k O (S pos) s')
      | S lo' => rep p greedy k lo' (S pos) s'
      end
    else match lo with O => k pos s | S _ => None end
  | [] => match lo with O => k pos s | S _ => None end
  end.

Fixpoint rmatch (r : regex) (cs : caps) (pos : nat) (s : str)
    (k : caps -> nat -> str -> option rmatch_result) : option rmatch_result :=
  match r with
  | Eps => k cs pos s
  | Lit c =>
    match s with
    | c' :: s' => if N.eqb c c' then k cs (S pos) s' else None
    | [] => None
    end
  | Cls p =>
    match s with
    | c' :: s' => if p c' then k cs (S pos) s' else None
    | [] => None
    end
  | Rep p lo greedy => rep p greedy (k cs) lo pos s
  | Seq r1 r2 =>
    rmatch r1 cs pos s (fun cs' pos' s' => rmatch r2 cs' pos' s' k)
  | Alt r1 r2 => or_else (rmatch r1 cs pos s k) (rmatch r2 cs pos s k)
  | Grp i r1 =>
    rmatch r1 cs pos s
      (fun cs' pos' s' => k ((i, take (pos' - pos)%nat s) :: cs') pos' s')
  | Bol => if Nat.eqb pos 0 then k cs pos s else None
  | Eol =>
    match s with
    | [] => k cs pos s
    | [10] => k cs pos s
    | _ => None
    end
  end.

(** [rx.match(s)], [rx.fullmatch(s)], [rx.search(s)] *)
Definition re_match (r : regex) (s : str) : option rmatch_result :=
  rmatch r [] 0%nat s (fun cs pos _ => Some (cs, pos)).

Definition re_fullmatch (r : regex) (s : str) : option rmatch_result :=
  rmatch r [] 0%nat s
    (fun cs pos s' => match s' with [] => Some (cs, pos) | _ => None end).

Fixpoint re_search_from (r : regex) (pos : nat) (s : str)
    : option rmatch_result :=
  or_else (rmatch r [] pos s (fun cs pos' _ => Some (cs, pos')))
    match s with
    | [] => None
    | _ :: s' => re_search_from r (S pos) s'
    end.

Definition re_search (r : regex) (s : str) : option rmatch_result :=
  re_search_from r 0%nat s.

(** [m.group(i)] of a group that took part in the match. *)
Definition group (i : nat) (m : rmatch_result) : option str :=
  snd <$> find (fun e => Nat.eqb (fst e) i) (fst m).

(** A literal string, a sequence and an alternation of several patterns. *)
Definition lits (s : str) : regex := foldr (fun c r => Seq (Lit c) r) Eps s.
Definition seqs (rs : list regex) : regex := foldr Seq Eps rs.
Fixpoint alts (rs : list regex) : regex :=
  match rs with
  | [] => Cls (fun _ => false)
  | [r] => r
  | r :: rs' => Alt r (alts rs')
  end.

(** Character classes of the source. *)
Definition cls_dot (c : char) : bool := negb (c =? 10).
Definition cls_alnum (c : char) : bool :=
  ((48 <=? c) && (c <=? 57)) || ((65 <=? c) && (c <=? 90))
  || ((97 <=? c) && (c <=? 122)).
(** [[ \t　]] *)
Definition cls_blank (c : char) : bool :=
  (c =? 32) || (c =? 9) || (c =? 12288).
(** [[：:\s]] *)
Definition cls_label_sep (c : char) : bool :=
  (c =? 65306) || (c =? 58) || is_space c.
(** [[^\s　/／]] *)
Definition cls_code_char (c : char) : bool :=
  negb (is_space c || (c =? 12288) || (c =? 47) || (c =? 65295)).

(** ** Exceptions *)

(** [IndexError] and [TypeError] are what the operations of the program
    can raise; [OSError] and [UnicodeEncodeError] are what writing a file
    and printing a line can raise. *)
Inductive error := IndexError | TypeError | OSError | UnicodeEncodeError.

Inductive exc (A : Type) :=
| Ok (a : A)
| Raise (e : error).
Arguments Ok {A} a.
Arguments Raise {A} e.

#[global] Instance exc_bind : MBind exc := fun A B f m =>
  match m with
  | Ok a => f a
  | Raise e => Raise e
  end.

#[global] Instance exc_ret : MRet exc := fun A a => Ok a.

(** [l[0]] *)
Definition item0 {A} (l : list A) : exc A :=
  match l with
  | a :: _ => Ok a
  | [] => Raise IndexError
  end.

(** [m.group(i)] as the source calls it, on a match object. *)
Definition group_exc (i : nat) (m : rmatch_result) : exc str :=
  match group i m with
  | Some s => Ok s
  | None => Raise IndexError
  end.

(** [for x in l: s = f(s, x)] where the body can raise. *)
Fixpoint for_each {S A} (f : S -> A -> exc S) (l : list A) (s : S) : exc S :=
  match l with
  | [] => Ok s
  | a :: l' => s' ← f s a; for_each f l' s'
  end.

(** Truth value of an [Optional[str]]: [None] and the empty string are
    false. *)
Definition truthy (o : option str) : bool :=
  match o with
  | Some (_ :: _) => true
  | _ => false
  end.

Definition nonempty (s : str) : bool :=
  match s with
  | [] => false
  | _ :: _ => true
  end.

(** ** Sorting

    [sorted] and [list.sort] are stable and compare keys with [<] only;
    [sort_by lt] is the stable insertion sort for the comparison [lt] of the
    keys: an element is put behind the elements that are smaller and before
    the first one that is not, so that elements with equal keys keep their
    order.

    Python specifies the result of a sort only for keys that [<] orders
    consistently. On such keys every stable sort returns the same list
    ([sort_pairs_unique]), the one [sort_by] computes. The keys of the
    program are coordinates and line indices; with a NaN among the
    coordinates [<] orders nothing consistently, the result depends on the
    steps of the algorithm of the interpreter and [sort_by] does not model
    it. *)
Section Sort.
Context {A : Type} (lt : A -> A -> bool).

Fixpoint insert_by (x : A) (l : list A) : list A :=
  match l with
  | [] => [x]
  | y :: l' => if lt y x then y :: insert_by x l' else x :: l
  end.

Definition sort_by (l : list A) : list A := foldr insert_by [] l.
End Sort.

(** [(a1, a2) < (b1, b2)] on tuples of floats: the first components decide
    unless they are equal. *)
Definition pair_ltb (a b : float * float) : bool :=
  if PrimFloat.eqb (fst a) (fst b) then PrimFloat.ltb (snd a) (snd b)
  else PrimFloat.ltb (fst a) (fst b).

(** [min(xs)] and [max(xs)] of a sequence that starts with [x]: the first
    smallest, the first largest. *)
Definition min_of (x : float) (xs : list float) : float :=
  fold_left (fun best y => if PrimFloat.ltb y best then y else best) xs x.

Definition max_of (x : float) (xs : list float) : float :=
  fold_left (fun best y => if PrimFloat.ltb best y then y else best) xs x.

(** ** Glyphs and lines *)

(** A character of [page.chars]; the keys the program reads. *)
Record Character := {
  c_text : str;
  c_x0 : float;
  c_x1 : float;
  c_top : float;
  c_bottom : float
}.

(** A reconstructed line. [main] also stores the page number under
    ["page"]; no function reads it. *)
Record Line := {
  text : str;
  x0 : float;
  y0 : float;
  x1 : float;
  y1 : float
}.

Definition sort_chars (chars : list Character) : list Character :=
  sort_by (fun a b => pair_ltb (c_top a, c_x0 a) (c_top b, c_x0 b)) chars.

Definition sort_lines (lines : list Line) : list Line :=
  sort_by (fun a b => pair_ltb (y0 a, x0 a) (y0 b, x0 b)) lines.

Section ExtractLines.
Variables line_tol gap_tol : float.

(** The loop over [zip(cur_sorted, cur_sorted[1:])] of [flush]: the parts
    appended after the text of [prev]. *)
Fixpoint text_parts_after (prev : Character) (rest : list Character)
    : list str :=
  match rest with
  | [] => []
  | now :: rest' =>
    let gap := (c_x0 now - c_x1 prev)%float in
    (if PrimFloat.ltb gap_tol gap then [u " "] else [])
      ++ c_text now :: text_parts_after now rest'
  end.

(** [flush()]: the lines after the current cluster has been written. *)
Definition flush (cur : list Character) (lines : list Line)
    : exc (list Line) :=
  match cur with
  | [] => Ok lines
  | c :: cs =>
    let bx0 := min_of (c_x0 c) (map c_x0 cs) in
    let bx1 := max_of (c_x1 c) (map c_x1 cs) in
    let top := min_of (c_top c) (map c_top cs) in
    let bottom := max_of (c_bottom c) (map c_bottom cs) in
    let cur_sorted :=
      sort_by (fun a b => PrimFloat.ltb (c_x0 a) (c_x0 b)) cur in
    first ← item0 cur_sorted;
    let text_parts := c_text first :: text_parts_after first (tail cur_sorted) in
    let text := concat text_parts in
    Ok (lines ++ [{| text := strip text; x0 := bx0; y0 := top;
                     x1 := bx1; y1 := bottom |}])
  end.

(** The state of the loop: [cur], [last_top] and [lines]. *)
Definition loop_state : Type := list Character * option float * list Line.

(** [ch["top"] - last_top] raises when [last_top] is still [None]. *)
Definition float_of (o : option float) : exc float :=
  match o with
  | Some x => Ok x
  | None => Raise TypeError
  end.

Definition loop_body (st : loop_state) (ch : Character) : exc loop_state :=
  let '(cur, last_top, lines) := st in
  match cur with
  | [] => Ok ([ch], Some (c_top ch), lines)
  | _ :: _ =>
    ref ← float_of last_top;
    if PrimFloat.leb (abs (c_top ch - ref)) line_tol then
      Ok (cur ++ [ch], Some (ref * 0.7 + c_top ch * 0.3)%float, lines)
    else
      lines' ← flush cur lines;
      Ok ([ch], Some (c_top ch), lines')
  end.

Definition extract_lines (page_chars : list Character) : exc (list Line) :=
  let chars := sort_chars page_chars in
  match chars with
  | [] => Ok []
  | _ :: _ =>
    st ← for_each loop_body chars ([], None, []);
    let '(cur, _, lines) := st in
    lines' ← flush cur lines;
    Ok (sort_lines lines')
  end.
End ExtractLines.

(** ** Sheet segmentation *)

Definition matched (m : option rmatch_result) : bool :=
  match m with Some _ => true | None => false end.

Definition SHEET_START_RE : regex := lits (u "事務事業評価シート").

Definition is_sheet_start (lines : list Line) : bool :=
  existsb (fun ln => matched (re_search SHEET_START_RE (text ln))) lines.

(** The page indices appended to [sheet_starts] while the pages are read;
    [pidx] is the index of the first page of [page_lines]. *)
Fixpoint sheet_starts_from (pidx : Z) (page_lines : list (list Line))
    : list Z :=
  match page_lines with
  | [] => []
  | lines :: rest =>
    (if is_sheet_start lines then [pidx] else [])
      ++ sheet_starts_from (pidx + 1)%Z rest
  end.

(** The loop that fills [sheets] from [sheet_starts] and [len(pdf.pages)]. *)
Definition sheets_of (sheet_starts : list Z) (npages : Z) : list (Z * Z) :=
  let sheet_starts :=
    match sheet_starts with [] => [0%Z] | _ :: _ => sheet_starts end in
  imap (fun i s =>
          let e :=
            if bool_decide (i + 1 < length sheet_starts)%nat
            then (nth (i + 1) sheet_starts 0 - 1)%Z
            else (npages - 1)%Z in
          (s, e))
       sheet_starts.

Definition segment (page_lines : list (list Line)) : list (Z * Z) :=
  sheets_of (sheet_starts_from 0 page_lines) (Z.of_nat (length page_lines)).

(** ** Sections *)

(** A [dict] from section keys to lists of texts, in insertion order. *)
Definition sections := list (str * list str).

Fixpoint dict_get (key : str) (d : sections) : option (list str) :=
  match d with
  | [] => None
  | (k, v) :: d' => if str_eqb k key then Some v else dict_get key d'
  end.

(** [d.setdefault(key, []).extend(body)] *)
Fixpoint setdefault_extend (key : str) (body : list str) (d : sections)
    : sections :=
  match d with
  | [] => [(key, body)]
  | (k, v) :: d' =>
    if str_eqb k key then (k, v ++ body) :: d'
    else (k, v) :: setdefault_extend key body d'
  end.

Section FindSections.
(** The table of header patterns; a pattern is given by the truth value
    of its [search] on a text. *)
Variable HEADER_PATTERNS : list ((str -> bool) * str).

(** The inner loop with its [break]: the key of the first pattern found
    in [t]. *)
Fixpoint first_header (pats : list ((str -> bool) * str)) (t : str)
    : option str :=
  match pats with
  | [] => None
  | (pat, key) :: pats' => if pat t then Some key else first_header pats' t
  end.

(** The loop over [enumerate(all_lines)], from index [i] on. *)
Fixpoint collect_marks (i : nat) (lines : list Line) : list (str * nat) :=
  match lines with
  | [] => []
  | ln :: lines' =>
    match first_header HEADER_PATTERNS (text ln) with
    | Some key => (key, i) :: collect_marks (S i) lines'
    | None => collect_marks (S i) lines'
    end
  end.

(** [[ln["text"] for ln in lines if ln["text"]]] *)
Definition texts (lines : list Line) : list str :=
  filter (fun t => nonempty t = true) (map text lines).

(** [all_lines[a:b]] *)
Definition slice {A} (a b : nat) (l : list A) : list A :=
  drop a (take b l).

Definition find_sections (all_lines : list Line) : sections :=
  let marks := collect_marks 0 all_lines in
  let marks := sort_by (fun a b => Nat.ltb (snd a) (snd b)) marks in
  match marks with
  | [] => [(u "document", texts all_lines)]
  | _ :: _ =>
    foldl (fun secs '(idx, (key, start)) =>
             let end_ :=
               if bool_decide (idx + 1 < length marks)%nat
               then snd (nth (idx + 1) marks ([], 0%nat))
               else length all_lines in
             let body := texts (slice (start + 1) end_ all_lines) in
             setdefault_extend key body secs)
          [] (imap pair marks)
  end.
End FindSections.

(** ** Identifier extraction *)

Definition BUSINESS_NAME_STOP_TOKENS : list str :=
  [u "有"; u "無"; u "あり"; u "なし"; u "有り"; u "無し"; u "—"; u "―"].

Definition CODE_LABEL_RES : list regex :=
  [ seqs [lits (u "事務事業コード"); Rep cls_label_sep 0 true;
          Grp 1 (Rep cls_code_char 1 true)];
    seqs [lits (u "事業コード"); Rep cls_label_sep 0 true;
          Grp 1 (Rep cls_code_char 1 true)] ].

(** The pattern [re_line] of [try_extract_code_and_name_from_lines]; the
    groups [code] and [name] are the groups 1 and 2. *)
Definition re_line : regex :=
  seqs [Bol;
        Grp 1 (Rep cls_alnum 4 true);
        Rep cls_blank 1 true;
        Grp 2 (Rep cls_dot 1 false);
        Rep cls_blank 1 true;
        Grp 3 (alts (map lits [u "有"; u "無"; u "あり"; u "なし"; u "有り";
                               u "無し"; u "—"; u "―"]));
        Alt Eol (Cls cls_blank)].

(** [[0-9A-Za-z]{4,}] *)
Definition re_code_shape : regex := Rep cls_alnum 4 true.

Definition is_code_label (t : str) : bool :=
  contains (u "事務事業コード") t || contains (u "事業コード") t.

Section Identifier.
(** [unicodedata.normalize("NFKC", s)], a function of the Python
    library. *)
Variable nfkc : str -> str.

Definition normalize_token (s : str) : str := strip (nfkc s).

Definition safe_filename (s : str) : str :=
  let s := normalize_token s in
  let s := replace_char 92 45 (replace_char 47 45 s) in
  let s := strip_by (fun c => (c =? 32) || (c =? 46)) s in
  match s with
  | [] => u "sheet"
  | _ :: _ => s
  end.

(** The loop over [CODE_LABEL_RES] on the normalized text. *)
Fixpoint code_label_loop (rxs : list regex) (text_norm : str)
    : exc (option str) :=
  match rxs with
  | [] => Ok None
  | rx :: rxs' =>
    match re_search rx text_norm with
    | Some m => g ← group_exc 1 m; Ok (Some (normalize_token g))
    | None => code_label_loop rxs' text_norm
    end
  end.

Definition try_extract_code_from_text (text : str) : exc (option str) :=
  code_label_loop CODE_LABEL_RES (normalize_token text).

(** The candidates to the right of the label line [ln], sorted. *)
Definition right_candidates (lines : list Line) (ln : Line) : list Line :=
  sort_by (fun a b => pair_ltb (x0 a, y0 a) (x0 b, y0 b))
    (filter (fun l =>
       (PrimFloat.leb
          (abs ((y0 l + y1 l) / 2.0 - (y0 ln + y1 ln) / 2.0)) 3.0
        && PrimFloat.ltb (x1 ln + 2.0) (x0 l)
        && nonempty (text l))%float = true) lines).

(** The candidates below the label line [ln], sorted. *)
Definition below_candidates (lines : list Line) (ln : Line) : list Line :=
  sort_by (fun a b => pair_ltb (y0 a, x0 a) (y0 b, x0 b))
    (filter (fun l =>
       (PrimFloat.ltb (y1 ln) (y0 l)
        && PrimFloat.leb (x0 ln - 5.0) (x0 l)
        && PrimFloat.leb (x0 l) (x1 ln + 100.0))%float = true) lines).

(** The token taken from a candidate on the right. *)
Definition right_token (cand : Line) : exc str :=
  let c := normalize_token (text cand) in
  token ← (if has_char 32 c then item0 (split_ws c) else Ok c);
  if has_char 12288 token then item0 (split_char 12288 token)
  else Ok token.

(** [for cand in right_candidates[:3]] with its [return]. *)
Fixpoint right_loop (cands : list Line) : exc (option str) :=
  match cands with
  | [] => Ok None
  | cand :: cands' =>
    token ← right_token cand;
    if nonempty token then Ok (Some token) else right_loop cands'
  end.

(** [for cand in below_candidates[:3]] with its [return]. *)
Fixpoint below_loop (cands : list Line) : option str :=
  match cands with
  | [] => None
  | cand :: cands' =>
    let token := normalize_token (text cand) in
    if nonempty token then Some token else below_loop cands'
  end.

(** The loop over the label lines; [rest] is what is left of [lines]. *)
Fixpoint spatial_loop (lines rest : list Line) : exc (option str) :=
  match rest with
  | [] => Ok None
  | ln :: rest' =>
    if is_code_label (text ln) then
      r ← right_loop (take 3 (right_candidates lines ln));
      match r with
      | Some token => Ok (Some token)
      | None =>
        match below_loop (take 3 (below_candidates lines ln)) with
        | Some token => Ok (Some token)
        | None => spatial_loop lines rest'
        end
      end
    else spatial_loop lines rest'
  end.

Definition joined_text (lines : list Line) : str :=
  join (u "
") (filter (fun t => nonempty t = true) (map text lines)).

Definition try_extract_code_from_lines (lines : list Line)
    : exc (option str) :=
  code ← try_extract_code_from_text (joined_text lines);
  if truthy code then Ok code else spatial_loop lines lines.

(** The first loop of [try_extract_code_and_name_from_lines]: the line
    pattern. [None] when the loop ends without [return]. *)
Fixpoint line_pattern_loop (lines : list Line)
    : exc (option (str * str)) :=
  match lines with
  | [] => Ok None
  | ln :: lines' =>
    match re_match re_line (normalize_token (text ln)) with
    | Some m =>
      code ← group_exc 1 m;
      name ← group_exc 2 m;
      Ok (Some (normalize_token code, normalize_token name))
    | None => line_pattern_loop lines'
    end
  end.

(** [name_tokens]: the tokens before the first stop token. *)
Fixpoint name_tokens_of (tokens : list str) : list str :=
  match tokens with
  | [] => []
  | t :: tokens' =>
    if bool_decide (t ∈ BUSINESS_NAME_STOP_TOKENS) then []
    else t :: name_tokens_of tokens'
  end.

(** The second loop: the split into tokens. *)
Fixpoint token_split_loop (lines : list Line) : exc (option (str * str)) :=
  match lines with
  | [] => Ok None
  | ln :: lines' =>
    let raw := normalize_token (text ln) in
    if negb (nonempty raw) then token_split_loop lines'
    else
      let tokens := re_split_runs cls_blank raw in
      if bool_decide (length tokens < 2)%nat then token_split_loop lines'
      else
        first ← item0 tokens;
        if matched (re_fullmatch re_code_shape first) then
          let name_tokens := name_tokens_of (tail tokens) in
          match name_tokens with
          | _ :: _ => Ok (Some (first, join (u " ") name_tokens))
          | [] => token_split_loop lines'
          end
        else token_split_loop lines'
  end.

Definition try_extract_code_and_name_from_lines (lines : list Line)
    : exc (option str * option str) :=
  code_only ← try_extract_code_from_lines lines;
  r ← line_pattern_loop lines;
  match r with
  | Some (code, name) => Ok (Some code, Some name)
  | None =>
    r ← token_split_loop lines;
    match r with
    | Some (first, name) => Ok (Some first, Some name)
    | None => Ok (code_only, None)
    end
  end.

(** The fallback of [main] for a name: the first line among the first 40
    that looks like the name of a programme. *)
Fixpoint backfill_loop (lines : list Line) : option str :=
  match lines with
  | [] => None
  | ln :: lines' =>
    let t := normalize_token (text ln) in
    if negb (nonempty t) then backfill_loop lines'
    else if contains (u "コード") t then backfill_loop lines'
    else if bool_decide (3 <= length t)%nat
            && bool_decide (length t <= 40)%nat
            && (contains (u "事業") t || endswith (u "事業") t)
         then Some t
         else backfill_loop lines'
  end.

(** [code, biz_name] as [main] has them after the fallback. *)
Definition extract_identifier (candidate_lines : list Line)
    : exc (option str * option str) :=
  '(code, biz_name) ← try_extract_code_and_name_from_lines candidate_lines;
  if truthy code && negb (truthy biz_name) then
    match backfill_loop (take 40 candidate_lines) with
    | Some t => Ok (code, Some t)
    | None => Ok (code, biz_name)
    end
  else Ok (code, biz_name).
End Identifier.

(** The part of NFKC that the texts of the sheets exercise: the full-width
    forms U+FF01..U+FF5E become their ASCII counterparts, the ideographic
    space U+3000 becomes a space, every other code point is kept. On texts
    made of ASCII, kana, ideographs, dashes, full-width forms and ideographic
    spaces this is [unicodedata.normalize("NFKC", s)]. *)
Definition nfkc_basic (s : str) : str :=
  map (fun c =>
         if (65281 <=? c) && (c <=? 65374) then c - 65248
         else if c =? 12288 then 32
         else c) s.

(** ** File names *)

Definition file_name_of (base_name : str) : str := base_name ++ u ".md".

Definition dup_file_name (base_name : str) (dup_idx : nat) : str :=
  base_name ++ u "_" ++ str_of_nat dup_idx ++ u ".md".

(** The [while True] loop that looks for a free suffix, run for at most
    [fuel] rounds. *)
Fixpoint dup_loop (fuel : nat) (base_name : str) (used_names : gset str)
    (dup_idx : nat) : option str :=
  match fuel with
  | O => None
  | S fuel' =>
    let file_name := dup_file_name base_name dup_idx in
    if bool_decide (file_name ∉ used_names) then Some file_name
    else dup_loop fuel' base_name used_names (S dup_idx)
  end.

(** The file name of a sheet, given the names in use. One round more than
    there are names in use is enough for the loop to end (see
    [dup_loop_enough]). *)
Definition choose_file_name (base_name : str) (used_names : gset str)
    : option str :=
  let file_name := file_name_of base_name in
  if bool_decide (file_name ∈ used_names)
  then dup_loop (S (size used_names)) base_name used_names 2
  else Some file_name.

(** [f"{si:02d}"] *)
Definition pad2 (si : nat) : str :=
  if bool_decide (si < 10)%nat then 48 :: str_of_nat si else str_of_nat si.

(** What [main] knows of a sheet when it names its file. *)
Record sheet_id := {
  code : option str;
  biz_name : option str;
  title : str
}.

Definition base_name_of (nfkc : str -> str) (si : nat) (r : sheet_id) : str :=
  if truthy (code r) then
    if truthy (biz_name r) then
      safe_filename nfkc (default [] (code r) ++ u "_" ++ default [] (biz_name r))
    else safe_filename nfkc (default [] (code r))
  else
    let title_norm := normalize_token nfkc (title r) in
    safe_filename nfkc (u "sheet" ++ pad2 si ++ u "_" ++ take 20 title_norm).

(** The file names given to the sheets [si], [si + 1], ... in turn, starting
    with the names [used_names] in use. *)
Fixpoint assign_names (nfkc : str -> str) (si : nat) (sheets : list sheet_id)
    (used_names : gset str) : option (list str) :=
  match sheets with
  | [] => Some []
  | r :: sheets' =>
    file_name ← choose_file_name (base_name_of nfkc si r) used_names;
    rest ← assign_names nfkc (S si) sheets' ({[file_name]} ∪ used_names);
    Some (file_name :: rest)
  end.

(** ** Order, as the specification words it *)

(** A coordinate is a number when it is not a NaN: it equals itself. *)
Definition number (x : float) : Prop := PrimFloat.is_nan x = false.

Definition numeric_char (c : Character) : Prop :=
  number (c_x0 c) ∧ number (c_x1 c) ∧ number (c_top c) ∧ number (c_bottom c).

Definition numeric_line (l : Line) : Prop :=
  number (x0 l) ∧ number (y0 l) ∧ number (x1 l) ∧ number (y1 l).

Definition float_le (a b : float) : Prop := PrimFloat.leb a b = true.

(** The order of pairs [(a1, a2)]: by the first component, and by the
    second one among pairs with equal first components. *)
Definition pair_le (a b : float * float) : Prop :=
  PrimFloat.ltb a.1 b.1 = true
  ∨ (PrimFloat.eqb a.1 b.1 = true ∧ PrimFloat.leb a.2 b.2 = true).

Definition pair_eqb (a b : float * float) : bool :=
  PrimFloat.eqb a.1 b.1 && PrimFloat.eqb a.2 b.2.

(** [l'] is [l] sorted by [key], stably: it holds the elements of [l], no
    element comes before one with a smaller key, and the elements with
    equal keys stand in the order they have in [l]. *)
Definition sorted_stably {A K} (le : K → K → Prop) (eqb : K → K → bool)
    (key : A → K) (l l' : list A) : Prop :=
  l' ≡ₚ l
  ∧ StronglySorted (λ a b, le (key a) (key b)) l'
  ∧ ∀ k, filter (λ a, eqb (key a) k = true) l'
         = filter (λ a, eqb (key a) k = true) l.

(** [m] is the first smallest (largest) number of [xs]. *)
Definition first_min (m : float) (xs : list float) : Prop :=
  ∃ i, xs !! i = Some m
       ∧ Forall (λ x, PrimFloat.leb m x = true) xs
       ∧ ∀ j x, (j < i)%nat → xs !! j = Some x → PrimFloat.ltb m x = true.

Definition first_max (m : float) (xs : list float) : Prop :=
  ∃ i, xs !! i = Some m
       ∧ Forall (λ x, PrimFloat.leb x m = true) xs
       ∧ ∀ j x, (j < i)%nat → xs !! j = Some x → PrimFloat.ltb x m = true.

(** [t] is [s] without its longest prefix and its longest suffix of
    characters of [p]. *)
Definition stripped (p : char → bool) (s t : str) : Prop :=
  ∃ pre suf,
    s = pre ++ t ++ suf
    ∧ Forall (λ c, p c = true) pre ∧ Forall (λ c, p c = true) suf
    ∧ (∀ c, head t = Some c → p c = false)
    ∧ (∀ c, last t = Some c → p c = false).

(** The rank of a number in the order of the comparisons: the sign class,
    then exponent and mantissa, which the comparison of two numbers of the
    same sign reads in this order. *)
Definition sf_rank (f : SpecFloat.spec_float) : Z * Z * Z :=
  match f with
  | SpecFloat.S754_zero _ => (0, 0, 0)%Z
  | SpecFloat.S754_infinity s => (if s then -2 else 2, 0, 0)%Z
  | SpecFloat.S754_nan => (0, 0, 0)%Z
  | SpecFloat.S754_finite s m e =>
    if s then (-1, - e, Z.neg m)%Z else (1, e, Z.pos m)%Z
  end.

Definition float_rank (x : float) : Z * Z * Z :=
  sf_rank (FloatOps.Prim2SF x).

Definition lex_compare (a b : Z * Z * Z) : comparison :=
  match (a.1.1 ?= b.1.1)%Z with
  | Eq => match (a.1.2 ?= b.1.2)%Z with
          | Eq => (a.2 ?= b.2)%Z
          | c => c
          end
  | c => c
  end.

Definition lex_lt (a b : Z * Z * Z) : Prop :=
  (a.1.1 < b.1.1
   ∨ (a.1.1 = b.1.1 ∧ (a.1.2 < b.1.2 ∨ (a.1.2 = b.1.2 ∧ a.2 < b.2))))%Z.

(** ** Line reconstruction, as the specification words it

    Clusters are read off the sorted characters; a cluster is its first
    character and the characters that joined it, in order, so that it is
    never empty. *)
Section Clusters.
Variables line_tol gap_tol : float.

Definition cluster : Type := Character * list Character.

Definition members (cl : cluster) : list Character := cl.1 :: cl.2.

(** The clusters of [chars] when the running cluster is [(first, joined)]
    and the reference position is [reference]. *)
Fixpoint clusters_from (first : Character) (joined : list Character)
    (reference : float) (chars : list Character) : list cluster :=
  match chars with
  | [] => [(first, joined)]
  | ch :: chars' =>
    if PrimFloat.leb (abs (c_top ch - reference)) line_tol then
      clusters_from first (joined ++ [ch])
        (reference * 0.7 + c_top ch * 0.3)%float chars'
    else (first, joined) :: clusters_from ch [] (c_top ch) chars'
  end.

Definition clusters (sorted_chars : list Character) : list cluster :=
  match sorted_chars with
  | [] => []
  | c :: cs => clusters_from c [] (c_top c) cs
  end.

(** The texts of the glyphs in order, with one space wherever the gap to
    the next glyph exceeds [gap_tol]. *)
Fixpoint spaced_text (l : list Character) : str :=
  match l with
  | [] => []
  | c :: l' =>
    match l' with
    | [] => c_text c
    | next :: _ =>
      c_text c
        ++ (if PrimFloat.ltb gap_tol (c_x0 next - c_x1 c) then u " " else [])
        ++ spaced_text l'
    end
  end.

Definition line_of_cluster (cl : cluster) : Line :=
  {| text :=
       strip (spaced_text
                (sort_by (fun a b => PrimFloat.ltb (c_x0 a) (c_x0 b))
                   (members cl)));
     x0 := min_of (c_x0 cl.1) (map c_x0 cl.2);
     y0 := min_of (c_top cl.1) (map c_top cl.2);
     x1 := max_of (c_x1 cl.1) (map c_x1 cl.2);
     y1 := max_of (c_bottom cl.1) (map c_bottom cl.2) |}.

Definition reconstruct (page_chars : list Character) : list Line :=
  sort_lines (map line_of_cluster (clusters (sort_chars page_chars))).
End Clusters.

(** ** Segmentation, as the specification words it *)

(** The index of the first page that carries the sheet marker, 0 when no
    page does. *)
Definition first_sheet_page (page_lines : list (list Line)) : nat :=
  from_option fst 0%nat
    (list_find (fun lines => is_sheet_start lines = true) page_lines).

(** Page [p] lies in the range [r]. *)
Definition in_range (p : Z) (r : Z * Z) : Prop := (r.1 <= p <= r.2)%Z.

(** The ranges that start at the pages [starts], each ending just before
    the next start, the last one at page [npages - 1]. *)
Fixpoint ranges (starts : list Z) (npages : Z) : list (Z * Z) :=
  match starts with
  | [] => []
  | s :: rest =>
    (s, match rest with
        | s' :: _ => (s' - 1)%Z
        | [] => (npages - 1)%Z
        end) :: ranges rest npages
  end.

(** A text is stripped when it starts with a character that [strip] keeps,
    or is empty. *)
Definition head_kept (p : char -> bool) (s : str) : Prop :=
  match s with
  | [] => True
  | c :: _ => p c = false
  end.

(** ** Inputs of the examples *)

Definition mk_line (t : str) (a b c d : float) : Line :=
  {| text := t; x0 := a; y0 := b; x1 := c; y1 := d |}.

(** A page with a single blank glyph. *)
Definition blank_glyph : Character :=
  {| c_text := u " "; c_x0 := 10; c_x1 := 15; c_top := 20; c_bottom := 30 |}.

(** A document of two pages: a cover, then a page with the sheet marker. *)
Definition cover_then_sheet : list (list Line) :=
  [ [mk_line (u "表紙") 0 0 50 10];
    [mk_line (u "事務事業評価シート") 0 0 100 10] ].

(** A document of two pages without the sheet marker. *)
Definition no_marker_doc : list (list Line) :=
  [ [mk_line (u "表紙") 0 0 50 10];
    [mk_line (u "目次") 0 0 50 10] ].

(** ** Section splitting, as the specification words it *)

(** [key] is the key of the first pattern of the table that is found in
    [t]. *)
Definition first_match (pats : list ((str → bool) * str)) (t key : str)
    : Prop :=
  ∃ n pat,
    pats !! n = Some (pat, key) ∧ pat t = true
    ∧ ∀ m pat' key',
        (m < n)%nat → pats !! m = Some (pat', key') → pat' t = false.

Section SectionsSpec.
Variable HEADER_PATTERNS : list ((str -> bool) * str).

(** The key a line is marked with: that of the first pattern found in
    its text. *)
Definition header_key (ln : Line) : option str :=
  first_header HEADER_PATTERNS (text ln).

Definition has_header (lines : list Line) : bool :=
  existsb (fun ln => bool_decide (is_Some (header_key ln))) lines.

(** The lines before the first marked line. *)
Fixpoint up_to_header (lines : list Line) : list Line :=
  match lines with
  | [] => []
  | ln :: rest =>
    match header_key ln with
    | Some _ => []
    | None => ln :: up_to_header rest
    end
  end.

(** The marked lines in order, each with its key and the lines strictly
    between it and the next marked line. *)
Fixpoint blocks (lines : list Line) : list (str * list Line) :=
  match lines with
  | [] => []
  | ln :: rest =>
    match header_key ln with
    | Some key => (key, up_to_header rest) :: blocks rest
    | None => blocks rest
    end
  end.

(** The bodies found under [key], in the order of their markers, and the
    section they make up. *)
Definition bodies_of (key : str) (lines : list Line) : list (list str) :=
  map (fun b => texts b.2) (filter (fun b => b.1 = key) (blocks lines)).

Definition section_of (key : str) (lines : list Line)
    : option (list str) :=
  match bodies_of key lines with
  | [] => None
  | bs => Some (concat bs)
  end.

Definition add_block (secs : sections) (b : str * list Line) : sections :=
  setdefault_extend b.1 (texts b.2) secs.
End SectionsSpec.

(** ** File names, as the specification words it *)

(** [fn] is the name given to a sheet with base name [base] when the names
    [seen] are in use: the plain name when it is free, and otherwise the
    name with the first suffix [_2], [_3], ... that is free. *)
Definition finalized (base : str) (seen : gset str) (fn : str) : Prop :=
  ((file_name_of base ∉ seen) ∧ fn = file_name_of base)
  ∨ (file_name_of base ∈ seen
     ∧ ∃ k, (2 ≤ k)%nat ∧ fn = dup_file_name base k ∧ (fn ∉ seen)
            ∧ ∀ j, (2 ≤ j < k)%nat → dup_file_name base j ∈ seen).

(** A sheet with the code [A] and no name. *)
Definition sheet_A : sheet_id :=
  {| code := Some (u "A"); biz_name := None; title := [] |}.

(** A sheet without code and name whose title is [A]. *)
Definition sheet_titled_A : sheet_id :=
  {| code := None; biz_name := None; title := u "A" |}.

(** ** Identifier extraction, as the specification words it

    Each strategy as a function that yields a candidate or nothing, and the
    cascade that combines them. *)

(** Group [i] is set on every path through the pattern. *)
Fixpoint always_sets (i : nat) (r : regex) : bool :=
  match r with
  | Seq r1 r2 => always_sets i r1 || always_sets i r2
  | Alt r1 r2 => always_sets i r1 && always_sets i r2
  | Grp j r1 => Nat.eqb j i || always_sets i r1
  | _ => false
  end.

Definition has_group (i : nat) (cs : caps) : Prop :=
  is_Some (find (fun e => Nat.eqb (fst e) i) cs).

(** The first non-empty string of a list. *)
Definition first_nonempty (l : list str) : option str :=
  head (filter (fun t => nonempty t = true) l).

Section IdentifierSpec.
Variable nfkc : str -> str.

(** Strategy 1: the first label pattern found in the normalized text of
    all lines yields the value behind the label. *)
Fixpoint label_value (rxs : list regex) (text_norm : str) : option str :=
  match rxs with
  | [] => None
  | rx :: rxs' =>
    match re_search rx text_norm with
    | Some m => Some (normalize_token nfkc (default [] (group 1 m)))
    | None => label_value rxs' text_norm
    end
  end.

Definition inline_code (lines : list Line) : option str :=
  label_value CODE_LABEL_RES (normalize_token nfkc (joined_text lines)).

(** Strategy 2. The token of a candidate on the right: its normalized
    text, cut at the first blank when it holds a space. *)
Definition first_token (cand : Line) : str :=
  let c := normalize_token nfkc (text cand) in
  let token := if has_char 32 c then default [] (head (split_ws c)) else c in
  if has_char 12288 token then default [] (head (split_char 12288 token))
  else token.

(** The candidate found for the label line [ln]: the first non-empty
    token among the first three candidates on the right and, failing
    that, the first non-empty normalized text among the first three
    candidates below. *)
Definition spatial_at (lines : list Line) (ln : Line) : option str :=
  match first_nonempty
          (map first_token (take 3 (right_candidates lines ln))) with
  | Some token => Some token
  | None =>
    first_nonempty
      (map (fun l => normalize_token nfkc (text l))
           (take 3 (below_candidates lines ln)))
  end.

(** The candidate of the first label line that has one. *)
Definition spatial_code (lines : list Line) : option str :=
  head (omap (spatial_at lines)
             (filter (fun ln => is_code_label (text ln) = true) lines)).

(** Strategies 1 and 2 together: [try_extract_code_from_lines]. *)
Definition label_code (lines : list Line) : option str :=
  if truthy (inline_code lines) then inline_code lines
  else spatial_code lines.

(** Strategy 3 on one text: code and name from the line pattern. *)
Definition line_pattern_of (t : str) : option (str * str) :=
  match re_match re_line (normalize_token nfkc t) with
  | Some m =>
    Some (normalize_token nfkc (default [] (group 1 m)),
          normalize_token nfkc (default [] (group 2 m)))
  | None => None
  end.

Definition line_pattern_code (lines : list Line) : option (str * str) :=
  head (omap (fun ln => line_pattern_of (text ln)) lines).

(** Strategy 4 on one text: the first token as code, the tokens up to
    the first stop token as name. *)
Definition token_split_of (t : str) : option (str * str) :=
  let raw := normalize_token nfkc t in
  let tokens := re_split_runs cls_blank raw in
  let first := default [] (head tokens) in
  let name_tokens := name_tokens_of (tail tokens) in
  if nonempty raw
     && bool_decide (2 <= length tokens)%nat
     && matched (re_fullmatch re_code_shape first)
     && bool_decide (name_tokens <> [])
  then Some (first, join (u " ") name_tokens)
  else None.

Definition token_split_code (lines : list Line) : option (str * str) :=
  head (omap (fun ln => token_split_of (text ln)) lines).

(** The cascade: the line pattern first, then the token split, and only
    then the code found by the label strategies, without a name. *)
Definition cascade (lines : list Line) : option str * option str :=
  match line_pattern_code lines with
  | Some (c, n) => (Some c, Some n)
  | None =>
    match token_split_code lines with
    | Some (c, n) => (Some c, Some n)
    | None => (label_code lines, None)
    end
  end.
End IdentifierSpec.

(** The line of the cascade example. *)
Definition prg_line : Line :=
  mk_line (u "PRG0001  子育て支援事業  有") 0 0 200 10.

(** A labelled code on one line, a line of the pattern shape on the next. *)
Definition label_then_pattern : list Line :=
  [ mk_line (u "事務事業コード:X001") 0 0 100 10;
    mk_line (u "PRG0001  子育て支援事業  有") 0 20 200 30 ].

(** A label line that ends in a slash, a line one point to the right of
    it on the same row, and a line with two words below it. *)
Definition slash_label : Line := mk_line (u "事務事業コード/") 0 0 100 10.
Definition near_right : Line := mk_line (u "R1") 101 0 120 10.
Definition two_words_below : Line := mk_line (u "AB CD") 0 20 100 30.
Definition label_right_below : list Line :=
  [slash_label; near_right; two_words_below].

(** A label line and two lines on its row to the right, the one further
    to the right first. *)
Definition code_label : Line := mk_line (u "事務事業コード") 0 0 100 10.
Definition far_right : Line := mk_line (u "R2") 150 0 170 10.
Definition label_two_right : list Line :=
  [code_label; far_right; mk_line (u "R1") 110 0 130 10].

(** Vertical centre of a line, as the spatial strategy computes it. *)
Definition y_centre (l : Line) : float := ((y0 l + y1 l) / 2.0)%float.

(** A line without label, code shape or stop token. *)
Definition plain_line : Line := mk_line (u "hello") 0 0 50 10.

(** A table with the single pattern [Plan], and a sheet whose first line
    precedes its only header. *)
Definition plan_table : list ((str -> bool) * str) :=
  [(contains (u "Plan"), u "plan")].

Definition intro_line : Line := mk_line (u "前文") 0 0 50 10.
Definition plan_header : Line := mk_line (u "計画 Plan") 0 20 50 30.
Definition plan_body : Line := mk_line (u "道路を整備する") 0 40 90 50.

(** ** Rendering and the loop over the sheets *)

(** The locals [order] and [names] of [write_sections_md] and of [main]. *)
Definition section_order : list str :=
  [u "overview"; u "plan"; u "do"; u "check"; u "action"].

Definition section_names : list (str * str) :=
  [ (u "overview", u "事業の概要");
    (u "plan", u "計画（Plan）");
    (u "do", u "実施結果（Do）");
    (u "check", u "評価（Check）");
    (u "action", u "改善（Action）");
    (u "document", u "本文") ].

Fixpoint assoc_get {V} (key : str) (d : list (str * V)) : option V :=
  match d with
  | [] => None
  | (k, v) :: d' => if str_eqb k key then Some v else assoc_get key d'
  end.

(** [names.get(k, k)]; for the keys of [order] it is [names[key]]. *)
Definition heading_name (k : str) : str :=
  default k (assoc_get k section_names).

(** What is appended for one section: the heading, the lines, each with
    its newline, and an empty line. *)
Definition section_part (heading : str) (body : list str) : list str :=
  heading :: map (fun ln => ln ++ NL) body ++ [NL].

(** The body of both loops over keys: a key with a non-empty list is
    written and [any_written] is set. The state is the list of parts and
    the flag. *)
Definition write_key (mk_heading : str -> str) (secs : sections)
    (st : list str * bool) (key : str) : list str * bool :=
  match dict_get key secs with
  | Some ((_ :: _) as body) =>
    (st.1 ++ section_part (mk_heading (heading_name key)) body, true)
  | _ => st
  end.

(** The parts after the sections have been written to the parts [md]:
    the keys of [order] first, then the other keys in the order of the
    dictionary, and the text under [document] when nothing was written. *)
Definition render_sections (mk_heading : str -> str) (secs : sections)
    (md : list str) : list str :=
  let st := foldl (write_key mk_heading secs) (md, false) section_order in
  let other_keys :=
    filter (fun k => k ∉ section_order) (map fst secs) in
  let st := foldl (write_key mk_heading secs) st other_keys in
  if st.2 then st.1
  else st.1 ++ section_part (mk_heading (u "本文"))
                 (default [] (dict_get (u "document") secs)).

(** The text that [write_sections_md] writes to [path]. *)
Definition write_sections_md (secs : sections) : str :=
  concat (render_sections (fun name => u "# " ++ name ++ NL) secs []).

(** [md_parts] of [main] and the text written for a sheet. *)
Definition md_parts (title : str) (secs : sections) : list str :=
  render_sections (fun name => u "## " ++ name ++ NL ++ NL) secs
    [u "# " ++ title ++ NL ++ NL].

Definition sheet_markdown (title : str) (secs : sections) : str :=
  concat (md_parts title secs).

(** The keys that are written, as the specification of the rendering
    words it: the keys of [order] and then the other keys of the dictionary
    that hold at least one line; and the name in the first heading, that of
    the first key written or [本文] when none is. *)
Definition written_keys (secs : sections) : list str :=
  filter (λ k, default [] (dict_get k secs) ≠ [])
    (section_order ++ filter (λ k, k ∉ section_order) (map fst secs)).

Definition first_heading (secs : sections) : str :=
  match written_keys secs with
  | k :: _ => heading_name k
  | [] => u "本文"
  end.

(** [l[p]] for an [int]: a negative index counts from the end. *)
Definition py_item {A} (l : list A) (p : Z) : exc A :=
  let i := if (p <? 0)%Z then (Z.of_nat (length l) + p)%Z else p in
  if (i <? 0)%Z then Raise IndexError
  else match l !! Z.to_nat i with
       | Some a => Ok a
       | None => Raise IndexError
       end.

(** [range(a, b)] *)
Definition py_range (a b : Z) : list Z :=
  map (fun i => (a + Z.of_nat i)%Z) (seq 0 (Z.to_nat (b - a))).

(** [for p in range(a, b + 1): acc.extend(page_lines[p])] *)
Definition lines_of_pages (page_lines : list (list Line)) (a b : Z)
    : exc (list Line) :=
  for_each (fun acc p => lines ← py_item page_lines p; Ok (acc ++ lines))
    (py_range a (b + 1)) [].

(** The first stripped text of a page that is not empty. *)
Fixpoint first_text (lines : list Line) : option str :=
  match lines with
  | [] => None
  | ln :: rest =>
    if nonempty (strip (text ln)) then Some (strip (text ln))
    else first_text rest
  end.

(** The title of sheet [si] that starts at page [sidx]. *)
Definition sheet_title (page_lines : list (list Line)) (si : nat) (sidx : Z)
    (code biz_name : option str) : exc str :=
  if truthy code && truthy biz_name then
    Ok (default [] code ++ u " " ++ default [] biz_name)
  else if truthy biz_name then Ok (default [] biz_name)
  else
    first_page ← py_item page_lines sidx;
    let title :=
      match first_page with
      | [] => None
      | _ :: _ => first_text first_page
      end in
    if truthy title then Ok (default [] title)
    else Ok (u "事務事業評価シート " ++ str_of_nat si).

(** What a run leaves behind: the files of the output directory, by name,
    and the lines printed. *)
Record world := {
  files : gmap str str;
  printed : list str
}.

Section Main.
Variable nfkc : str -> str.
Variable HEADER_PATTERNS : list ((str -> bool) * str).
Variables line_tol gap_tol : float.
Variable code_scan_pages : Z.
(** [out_dir] as [print] shows it. *)
Variable out_dir : str.
(** The environment: the exception, if any, with which writing a text to a
    file of the output directory, or printing a line, fails in a world. *)
Variable write_error : world -> str -> str -> option error.
Variable print_error : world -> str -> option error.

(** [(out_dir / file_name).write_text(text, encoding="utf-8")] *)
Definition write_text (w : world) (file_name text : str) : exc world :=
  match write_error w file_name text with
  | Some e => Raise e
  | None =>
    Ok {| files := <[file_name := text]> (files w); printed := printed w |}
  end.

Definition print (w : world) (line : str) : exc world :=
  match print_error w line with
  | Some e => Raise e
  | None => Ok {| files := files w; printed := printed w ++ [line] |}
  end.

(** The first loop of [main]: the lines of every page. *)
Fixpoint page_lines_of (pages : list (list Character))
    : exc (list (list Line)) :=
  match pages with
  | [] => Ok []
  | page :: pages' =>
    lines ← extract_lines line_tol gap_tol page;
    rest ← page_lines_of pages';
    Ok (lines :: rest)
  end.

(** The body of the loop over the sheets, from [used_names] and the world
    to what they are after the sheet. The result is [None] when the search
    for a free suffix runs out of rounds, which does not happen
    ([dup_loop_enough]). *)
Definition sheet_body (page_lines : list (list Line))
    (st : gset str * world) (si : nat) (r : Z * Z)
    : exc (option (gset str * world)) :=
  let '(used_names, w) := st in
  let '(sidx, eidx) := r in
  sheet_lines ← lines_of_pages page_lines sidx eidx;
  let scan_end_page := Z.min (sidx + code_scan_pages - 1) eidx in
  candidate_lines ← lines_of_pages page_lines sidx scan_end_page;
  '(code, biz_name) ← extract_identifier nfkc candidate_lines;
  title ← sheet_title page_lines si sidx code biz_name;
  let secs := find_sections HEADER_PATTERNS sheet_lines in
  let base_name :=
    base_name_of nfkc si
      {| code := code; biz_name := biz_name; title := title |} in
  match choose_file_name base_name used_names with
  | None => Ok None
  | Some file_name =>
    let used_names := {[file_name]} ∪ used_names in
    w ← write_text w file_name (sheet_markdown title secs);
    w ← print w (u "[sheet " ++ str_of_nat si ++ u "] -> " ++ file_name);
    Ok (Some (used_names, w))
  end.

(** [for si, (sidx, eidx) in enumerate(sheets, start=si)] *)
Fixpoint sheets_loop (page_lines : list (list Line)) (si : nat)
    (sheets : list (Z * Z)) (st : gset str * world)
    : exc (option (gset str * world)) :=
  match sheets with
  | [] => Ok (Some st)
  | r :: sheets' =>
    st' ← sheet_body page_lines st si r;
    match st' with
    | Some st' => sheets_loop page_lines (S si) sheets' st'
    | None => Ok None
    end
  end.

(** [main] from the pages on: [pages] holds [page.chars] for every page of
    the PDF, [w] is the world after the output directory has been made.
    The result is the world at the end of the run, or the exception that
    ends it. *)
Definition main (pages : list (list Character)) (w : world)
    : exc (option world) :=
  page_lines ← page_lines_of pages;
  let sheets := segment page_lines in
  st ← sheets_loop page_lines 1 sheets (∅, w);
  match st with
  | Some (_, w) =>
    w ← print w (u "[ok] " ++ str_of_nat (length sheets)
                  ++ u " markdown files written under " ++ out_dir);
    Ok (Some w)
  | None => Ok None
  end.
End Main.


(** A sheet of one page: marker, header, one line of text. *)
Definition glyph (t : str) (a b : float) : Character :=
  {| c_text := t; c_x0 := a; c_x1 := (a + 10)%float;
     c_top := b; c_bottom := (b + 10)%float |}.


(** A page with two glyphs on one row, the right one first. *)
Definition two_glyphs : list Character :=
  [glyph (u "B") 12 0; glyph (u "A") 0 0].

(** * Properties *)

(** ** Sorting and strings *)

Section SortFacts.
Context {A : Type} (lt : A -> A -> bool).

Lemma insert_by_perm x l : insert_by lt x l ≡ₚ x :: l.
Proof.
  induction l as [|y l IH]; simpl; [done|].
  destruct (lt y x); [|done].
  rewrite IH. apply Permutation_swap.
Qed.

Lemma sort_by_perm l : sort_by lt l ≡ₚ l.
Proof.
  induction l as [|x l IH]; simpl; [done|].
  unfold sort_by in *. simpl. rewrite insert_by_perm. by f_equiv.
Qed.

Lemma sort_by_length l : length (sort_by lt l) = length l.
Proof. by rewrite sort_by_perm. Qed.

Lemma sort_by_elem x l : x ∈ sort_by lt l ↔ x ∈ l.
Proof. by rewrite sort_by_perm. Qed.

(** A list in which no element is smaller than an earlier one is left
    as it is. *)
Lemma sort_by_id l :
  StronglySorted (λ a b, lt b a = false) l → sort_by lt l = l.
Proof.
  induction 1 as [|x l Hs IH Hall]; [done|].
  unfold sort_by in *. cbn [foldr]. rewrite IH.
  destruct l as [|y l]; [done|].
  apply Forall_cons in Hall as [Hy _]. simpl. by rewrite Hy.
Qed.

Lemma sort_by_nil_inv l : sort_by lt l = [] → l = [].
Proof.
  intros H. apply (f_equal length) in H.
  rewrite sort_by_length in H. by destruct l.
Qed.
End SortFacts.

Section StripFacts.
Variable p : char → bool.

#[local] Abbreviation head_kept := (head_kept p).

Lemma lstrip_by_head s : head_kept (lstrip_by p s).
Proof.
  induction s as [|c s IH]; simpl; [done|].
  destruct (p c) eqn:E; simpl; done.
Qed.

Lemma lstrip_by_id s : head_kept s → lstrip_by p s = s.
Proof. destruct s as [|c s]; simpl; [done|]. by intros ->. Qed.

Lemma rstrip_by_head s : head_kept s → head_kept (rstrip_by p s).
Proof.
  destruct s as [|c s]; simpl; [done|]. intros Hc.
  destruct (rstrip_by p s); simpl; [by rewrite Hc|done].
Qed.

Lemma rstrip_by_idemp s : rstrip_by p (rstrip_by p s) = rstrip_by p s.
Proof.
  induction s as [|c s IH]; simpl; [done|].
  destruct (rstrip_by p s) as [|d t] eqn:E.
  - destruct (p c) eqn:Ec; simpl; [done|]. by rewrite Ec.
  - simpl in *. by rewrite IH.
Qed.

Lemma strip_by_head s : head_kept (strip_by p s).
Proof. apply rstrip_by_head, lstrip_by_head. Qed.

Lemma strip_by_idemp s : strip_by p (strip_by p s) = strip_by p s.
Proof.
  unfold strip_by at 1. rewrite lstrip_by_id by apply strip_by_head.
  apply rstrip_by_idemp.
Qed.
End StripFacts.

Lemma strip_idemp s : strip (strip s) = strip s.
Proof. apply strip_by_idemp. Qed.

Lemma rstrip_by_last p s c :
  last (rstrip_by p s) = Some c → p c = false.
Proof.
  induction s as [|a s IH]; simpl; [done|].
  destruct (rstrip_by p s) as [|d t] eqn:E.
  - destruct (p a) eqn:Ea; [done|]. by intros [= <-].
  - apply IH.
Qed.

Lemma rstrip_by_id p s :
  (∀ c, last s = Some c → p c = false) → rstrip_by p s = s.
Proof.
  induction s as [|a s IH]; intros Hl; simpl; [done|].
  destruct s as [|b s].
  - simpl. by rewrite Hl.
  - rewrite IH by (intros c Hc; by apply Hl). done.
Qed.

Lemma lstrip_by_elem p s c : c ∈ lstrip_by p s → c ∈ s.
Proof.
  induction s as [|a s IH]; simpl; [done|].
  destruct (p a); [|done]. intros ?%IH. by apply list_elem_of_further.
Qed.

Lemma rstrip_by_elem p s c : c ∈ rstrip_by p s → c ∈ s.
Proof.
  induction s as [|a s IH]; simpl; [done|].
  destruct (rstrip_by p s) as [|d t] eqn:E.
  - destruct (p a); [by intros ?%elem_of_nil|].
    intros ->%list_elem_of_singleton. apply list_elem_of_here.
  - intros [->|Hin]%elem_of_cons; [apply list_elem_of_here|].
    by apply list_elem_of_further, IH.
Qed.

Lemma strip_by_elem p s c : c ∈ strip_by p s → c ∈ s.
Proof. intros ?%rstrip_by_elem. by eapply lstrip_by_elem. Qed.

Lemma strip_by_last p s c : last (strip_by p s) = Some c → p c = false.
Proof. apply rstrip_by_last. Qed.

Lemma startswith_spec p : ∀ s,
  startswith p s = true ↔ ∃ suf, s = p ++ suf.
Proof.
  induction p as [|a p IH]; intros s; simpl.
  - split; [eauto|done].
  - destruct s as [|b s].
    + split; [done|]. by intros [suf ?].
    + rewrite andb_true_iff, N.eqb_eq, IH. split.
      * intros [-> [suf ->]]. eauto.
      * intros [suf [= -> ->]]. eauto.
Qed.

Lemma contains_spec sub s :
  contains sub s = true ↔ ∃ pre suf, s = pre ++ sub ++ suf.
Proof.
  induction s as [|b s IH]; cbn [contains]; rewrite orb_true_iff, startswith_spec.
  - split.
    + intros [[suf ->]|?]; [|done]. by exists [], suf.
    + intros (pre & suf & H). left.
      destruct pre; [by exists suf|done].
  - rewrite IH. split.
    + intros [[suf ->]|(pre & suf & ->)]; [by exists [], suf|].
      by exists (b :: pre), suf.
    + intros ([|a pre] & suf & H).
      * left. by exists suf.
      * right. injection H as -> ->. by exists pre, suf.
Qed.


Lemma elem_of_concat_list {A} (x : A) (ls : list (list A)) :
  x ∈ concat ls ↔ ∃ l, l ∈ ls ∧ x ∈ l.
Proof.
  induction ls as [|l ls IH]; simpl.
  - split; [by intros ?%elem_of_nil|]. by intros (? & ?%elem_of_nil & _).
  - rewrite elem_of_app, IH. split.
    + intros [?|(l' & ? & ?)].
      * exists l. split; [apply list_elem_of_here|done].
      * exists l'. split; [by apply list_elem_of_further|done].
    + intros (l' & [->|?]%elem_of_cons & ?); [by left|right; eauto].
Qed.

Lemma split_ws_aux_nonempty cur s : cur ≠ [] → split_ws_aux cur s ≠ [].
Proof.
  revert cur. induction s as [|c s IH]; intros cur Hcur; simpl.
  - by destruct cur.
  - destruct (is_space c); [by destruct cur|]. by apply IH.
Qed.

(** A stripped text that holds a space splits into at least one token. *)
Lemma split_ws_strip_nonempty s :
  has_char 32 (strip s) = true → split_ws (strip s) ≠ [].
Proof.
  pose proof (strip_by_head is_space s) as Hh. fold (strip s) in Hh.
  destruct (strip s) as [|c t]; simpl; [done|]. intros _.
  unfold split_ws. simpl. simpl in Hh. rewrite Hh.
  by apply split_ws_aux_nonempty.
Qed.

Lemma split_char_aux_nonempty sep cur s : split_char_aux sep cur s ≠ [].
Proof.
  revert cur. induction s as [|c s IH]; intros cur; simpl; [done|].
  destruct (c =? sep); [done|]. apply IH.
Qed.

Lemma re_split_runs_aux_nonempty p b cur s : re_split_runs_aux p b cur s ≠ [].
Proof.
  revert b cur. induction s as [|c s IH]; intros b cur; simpl; [done|].
  destruct (p c); [destruct b; [apply IH|done]|apply IH].
Qed.

Lemma exc_bind_ok {A B} (a : A) (f : A → exc B) : (Ok a ≫= f) = f a.
Proof. done. Qed.

(** ** The order of the coordinates

    The comparisons of two numbers read their ranks; this makes [<] a
    strict total order on numbers, up to [==]. *)

Lemma SFcompare_rank f g :
  f ≠ SpecFloat.S754_nan → g ≠ SpecFloat.S754_nan →
  SpecFloat.SFcompare f g = Some (lex_compare (sf_rank f) (sf_rank g)).
Proof.
  intros Hf Hg.
  destruct f as [s| s| |s m e], g as [s'|s'| |s' m' e']; try done.
  all: try (destruct s, s'; reflexivity).
  all: try (destruct s; reflexivity).
  all: try (destruct s'; reflexivity).
  destruct s, s'; try reflexivity.
  unfold sf_rank, lex_compare; cbn [fst snd SpecFloat.SFcompare].
  rewrite Z.compare_opp, (Z.compare_antisym e e').
  destruct (e ?= e')%Z; reflexivity.
Qed.

Lemma lex_compare_Lt a b : lex_compare a b = Lt ↔ lex_lt a b.
Proof.
  unfold lex_compare, lex_lt.
  destruct (Z.compare_spec a.1.1 b.1.1), (Z.compare_spec a.1.2 b.1.2),
    (Z.compare_spec a.2 b.2); split; try done; try lia.
Qed.

Lemma lex_compare_Eq a b : lex_compare a b = Eq ↔ a = b.
Proof.
  unfold lex_compare. destruct a as [[a1 a2] a3], b as [[b1 b2] b3]. simpl.
  destruct (Z.compare_spec a1 b1), (Z.compare_spec a2 b2),
    (Z.compare_spec a3 b3); split; try done; try (intros [= ]; lia).
  intros _. by subst.
Qed.

Lemma lex_lt_irrefl a : ¬ lex_lt a a.
Proof. unfold lex_lt. lia. Qed.

Lemma lex_lt_trans a b c : lex_lt a b → lex_lt b c → lex_lt a c.
Proof. unfold lex_lt. lia. Qed.

Lemma lex_lt_total a b : lex_lt a b ∨ a = b ∨ lex_lt b a.
Proof.
  destruct a as [[a1 a2] a3], b as [[b1 b2] b3]. unfold lex_lt. simpl.
  destruct (decide (a1 = b1)) as [->|?]; [|lia].
  destruct (decide (a2 = b2)) as [->|?]; [|lia].
  destruct (decide (a3 = b3)) as [->|?]; [|lia]. auto.
Qed.

Lemma number_not_nan x : number x → FloatOps.Prim2SF x ≠ SpecFloat.S754_nan.
Proof.
  unfold number, is_nan. rewrite FloatAxioms.eqb_spec. intros H E.
  rewrite E in H. done.
Qed.

Lemma compared_number x y c :
  SpecFloat.SFcompare (FloatOps.Prim2SF x) (FloatOps.Prim2SF y) = Some c →
  number x ∧ number y.
Proof.
  intros H.
  assert (FloatOps.Prim2SF x ≠ SpecFloat.S754_nan
          ∧ FloatOps.Prim2SF y ≠ SpecFloat.S754_nan) as [Hx Hy].
  { destruct (FloatOps.Prim2SF x), (FloatOps.Prim2SF y); done. }
  unfold number, is_nan. rewrite !FloatAxioms.eqb_spec. unfold SpecFloat.SFeqb.
  rewrite !SFcompare_rank by done.
  by rewrite !(proj2 (lex_compare_Eq _ _) eq_refl).
Qed.

Lemma ltb_rank x y :
  PrimFloat.ltb x y = true
  ↔ number x ∧ number y ∧ lex_lt (float_rank x) (float_rank y).
Proof.
  rewrite FloatAxioms.ltb_spec. unfold SpecFloat.SFltb. split.
  - destruct (SpecFloat.SFcompare _ _) as [c|] eqn:E; [|done].
    destruct (compared_number _ _ _ E) as [Hx Hy].
    rewrite SFcompare_rank in E by (by apply number_not_nan).
    injection E as <-. intros Hc. split_and!; [done..|].
    apply lex_compare_Lt. by destruct (lex_compare _ _).
  - intros (Hx%number_not_nan & Hy%number_not_nan & Hlt%lex_compare_Lt).
    rewrite SFcompare_rank by done. unfold float_rank in Hlt. by rewrite Hlt.
Qed.

Lemma eqb_rank x y :
  PrimFloat.eqb x y = true
  ↔ number x ∧ number y ∧ float_rank x = float_rank y.
Proof.
  rewrite FloatAxioms.eqb_spec. unfold SpecFloat.SFeqb. split.
  - destruct (SpecFloat.SFcompare _ _) as [c|] eqn:E; [|done].
    destruct (compared_number _ _ _ E) as [Hx Hy].
    rewrite SFcompare_rank in E by (by apply number_not_nan).
    injection E as <-. intros Hc. split_and!; [done..|].
    apply lex_compare_Eq. by destruct (lex_compare _ _).
  - intros (Hx%number_not_nan & Hy%number_not_nan & Heq%lex_compare_Eq).
    rewrite SFcompare_rank by done. unfold float_rank in Heq. by rewrite Heq.
Qed.

Lemma leb_ltb_eqb x y :
  PrimFloat.leb x y = PrimFloat.ltb x y || PrimFloat.eqb x y.
Proof.
  rewrite FloatAxioms.leb_spec, FloatAxioms.ltb_spec, FloatAxioms.eqb_spec.
  unfold SpecFloat.SFleb, SpecFloat.SFltb, SpecFloat.SFeqb.
  by destruct (SpecFloat.SFcompare _ _) as [[]|].
Qed.

Lemma leb_rank x y :
  PrimFloat.leb x y = true
  ↔ number x ∧ number y
    ∧ (lex_lt (float_rank x) (float_rank y) ∨ float_rank x = float_rank y).
Proof.
  rewrite leb_ltb_eqb, orb_true_iff, ltb_rank, eqb_rank. tauto.
Qed.

Lemma ltb_false_rank x y :
  number x → number y →
  (PrimFloat.ltb x y = false
   ↔ lex_lt (float_rank y) (float_rank x) ∨ float_rank x = float_rank y).
Proof.
  intros Hx Hy. rewrite <- not_true_iff_false, ltb_rank.
  pose proof (lex_lt_total (float_rank x) (float_rank y)) as Ht.
  pose proof (lex_lt_irrefl (float_rank x)).
  pose proof (lex_lt_trans (float_rank x) (float_rank y) (float_rank x)).
  split.
  - intros Hn. destruct Ht as [?|[?|?]]; auto. destruct Hn. done.
  - intros [?|Heq] (_ & _ & ?); [auto|]. rewrite Heq in *. auto.
Qed.

Lemma eqb_false_rank x y :
  number x → number y →
  (PrimFloat.eqb x y = false ↔ float_rank x ≠ float_rank y).
Proof.
  intros Hx Hy. rewrite <- not_true_iff_false, eqb_rank. tauto.
Qed.

Lemma pair_le_of_not_ltb a b :
  number a.1 → number a.2 → number b.1 → number b.2 →
  pair_ltb b a = false → pair_le a b.
Proof.
  intros Ha1 Ha2 Hb1 Hb2. unfold pair_ltb, pair_le.
  destruct (PrimFloat.eqb b.1 a.1) eqn:E.
  - apply eqb_rank in E as (_ & _ & E). intros H%ltb_false_rank; [|done..].
    right. rewrite eqb_rank, leb_rank. naive_solver.
  - apply eqb_false_rank in E; [|done..]. intros H%ltb_false_rank; [|done..].
    left. rewrite ltb_rank. naive_solver.
Qed.

Lemma pair_le_of_ltb a b : pair_ltb a b = true → pair_le a b.
Proof.
  unfold pair_ltb, pair_le. destruct (PrimFloat.eqb a.1 b.1) eqn:E; [|auto].
  intros H. right. split; [done|]. by rewrite leb_ltb_eqb, H.
Qed.

Lemma pair_le_trans a b c : pair_le a b → pair_le b c → pair_le a c.
Proof.
  unfold pair_le. rewrite !ltb_rank, !eqb_rank, !leb_rank.
  pose proof (lex_lt_trans (float_rank a.1) (float_rank b.1) (float_rank c.1)).
  pose proof (lex_lt_trans (float_rank a.2) (float_rank b.2) (float_rank c.2)).
  intros [(?&?&?)|((?&?&E1)&?&?&[?|E2])] [(?&?&?)|((?&?&E3)&?&?&[?|E4])];
    try rewrite E1 in *; try rewrite <- E3 in *;
    try rewrite E2 in *; try rewrite <- E4 in *; naive_solver.
Qed.

Lemma pair_class_unordered a b k :
  pair_eqb a k = true → pair_eqb b k = true → pair_ltb a b = false.
Proof.
  unfold pair_eqb, pair_ltb. rewrite !andb_true_iff, !eqb_rank.
  intros ((?&?&E1)&?&?&E2) ((?&?&E3)&?&?&E4).
  rewrite (proj2 (eqb_rank a.1 b.1)) by (split_and!; congruence).
  apply ltb_false_rank; [done..|]. right. congruence.
Qed.

Lemma float_le_of_not_ltb a b :
  number a → number b → PrimFloat.ltb b a = false → PrimFloat.leb a b = true.
Proof.
  intros Ha Hb H%ltb_false_rank; [|done..]. rewrite leb_rank. naive_solver.
Qed.

Lemma float_le_of_ltb a b :
  PrimFloat.ltb a b = true → PrimFloat.leb a b = true.
Proof. intros H. by rewrite leb_ltb_eqb, H. Qed.

Lemma float_le_trans a b c :
  PrimFloat.leb a b = true → PrimFloat.leb b c = true →
  PrimFloat.leb a c = true.
Proof.
  rewrite !leb_rank.
  pose proof (lex_lt_trans (float_rank a) (float_rank b) (float_rank c)).
  intros (?&?&[?|E1]) (?&?&[?|E2]);
    try rewrite E1 in *; try rewrite <- E2 in *; naive_solver.
Qed.

Lemma float_lt_le_trans a b c :
  PrimFloat.ltb a b = true → PrimFloat.leb b c = true →
  PrimFloat.ltb a c = true.
Proof.
  rewrite !ltb_rank, !leb_rank.
  pose proof (lex_lt_trans (float_rank a) (float_rank b) (float_rank c)).
  intros (?&?&?) (?&?&[?|E2]); try rewrite <- E2 in *; naive_solver.
Qed.

Lemma float_le_lt_trans a b c :
  PrimFloat.leb a b = true → PrimFloat.ltb b c = true →
  PrimFloat.ltb a c = true.
Proof.
  rewrite !ltb_rank, !leb_rank.
  pose proof (lex_lt_trans (float_rank a) (float_rank b) (float_rank c)).
  intros (?&?&[?|E2]) (?&?&?); try rewrite E2 in *; naive_solver.
Qed.

Lemma float_le_refl a : number a → PrimFloat.leb a a = true.
Proof. intros Ha. rewrite leb_rank. auto. Qed.

Lemma float_class_unordered a b k :
  PrimFloat.eqb a k = true → PrimFloat.eqb b k = true →
  PrimFloat.ltb a b = false.
Proof.
  rewrite !eqb_rank. intros (?&?&E1) (?&?&E2).
  apply ltb_false_rank; [done..|]. right. congruence.
Qed.

(** ** Stable sorting

    On keys that the comparison orders, [sort_by] sorts, and stably. *)

Section StableSort.
Context {A K : Type} (lt : A → A → bool) (le : K → K → Prop)
  (keqb : K → K → bool) (key : A → K) (good : A → Prop).
Hypothesis le_of_not_lt :
  ∀ a b, good a → good b → lt b a = false → le (key a) (key b).
Hypothesis le_of_lt :
  ∀ a b, good a → good b → lt a b = true → le (key a) (key b).
Hypothesis le_trans :
  ∀ a b c, le (key a) (key b) → le (key b) (key c) → le (key a) (key c).
Hypothesis class_unordered :
  ∀ a b k, keqb (key a) k = true → keqb (key b) k = true → lt a b = false.

Lemma insert_by_sorted x l :
  good x → Forall good l →
  StronglySorted (λ a b, le (key a) (key b)) l →
  StronglySorted (λ a b, le (key a) (key b)) (insert_by lt x l).
Proof.
  intros Hx Hl Hs. induction Hs as [|y l Hs IH Hall]; cbn [insert_by].
  - repeat constructor.
  - apply Forall_cons in Hl as [Hy Hl].
    destruct (lt y x) eqn:E.
    + constructor; [by apply IH|].
      rewrite insert_by_perm. constructor; [by apply le_of_lt|done].
    + constructor; [by constructor|].
      assert (le (key x) (key y)) as Hxy by (by apply le_of_not_lt).
      constructor; [done|].
      eapply Forall_impl; [exact Hall|]. intros z Hz. by eapply le_trans.
Qed.

Lemma insert_by_filter (P : A → Prop) `{!∀ a, Decision (P a)} x l :
  (∀ y, P x → P y → lt y x = false) →
  filter P (insert_by lt x l) = filter P (x :: l).
Proof.
  intros HP. induction l as [|y l IH]; [done|]. cbn [insert_by].
  destruct (lt y x) eqn:E; [|done].
  rewrite filter_cons, IH, !filter_cons.
  destruct (decide (P x)) as [Hx|Hx]; [|done].
  destruct (decide (P y)) as [Hy|Hy]; [|done].
  rewrite HP in E; done.
Qed.

Lemma sort_by_sorted_stably l :
  Forall good l → sorted_stably le keqb key l (sort_by lt l).
Proof.
  intros Hl. split_and!.
  - apply sort_by_perm.
  - induction Hl as [|x l Hx Hl IH]; [constructor|].
    unfold sort_by in *. cbn [foldr]. apply insert_by_sorted; [done| |done].
    fold (sort_by lt l). by rewrite sort_by_perm.
  - intros k. induction l as [|x l IH]; [done|].
    apply Forall_cons in Hl as [Hx Hl].
    unfold sort_by in *. cbn [foldr]. rewrite insert_by_filter.
    + rewrite !filter_cons. by rewrite IH.
    + intros y Hkx Hky. by eapply class_unordered.
Qed.
End StableSort.

Lemma sort_pairs_sorted_stably {A} (key : A → float * float) (l : list A) :
  Forall (λ a, number (key a).1 ∧ number (key a).2) l →
  sorted_stably pair_le pair_eqb key l
    (sort_by (λ a b, pair_ltb (key a) (key b)) l).
Proof.
  apply sort_by_sorted_stably.
  - intros a b [??] [??]. by apply pair_le_of_not_ltb.
  - intros a b _ _. apply pair_le_of_ltb.
  - intros a b c. apply pair_le_trans.
  - intros a b k. apply pair_class_unordered.
Qed.

Lemma sort_floats_sorted_stably {A} (key : A → float) (l : list A) :
  Forall (λ a, number (key a)) l →
  sorted_stably float_le PrimFloat.eqb key l
    (sort_by (λ a b, PrimFloat.ltb (key a) (key b)) l).
Proof.
  apply sort_by_sorted_stably.
  - intros a b ??. by apply float_le_of_not_ltb.
  - intros a b _ _. apply float_le_of_ltb.
  - intros a b c. apply float_le_trans.
  - intros a b k. apply float_class_unordered.
Qed.

Lemma fold_min_first ys : ∀ pre best,
  Forall number (pre ++ ys) →
  first_min best pre →
  first_min
    (fold_left (λ best y, if PrimFloat.ltb y best then y else best) ys best)
    (pre ++ ys).
Proof.
  induction ys as [|y ys IH]; intros pre best Hn Hb.
  - by rewrite app_nil_r.
  - cbn [fold_left]. rewrite (assoc_L _ pre [y] ys : pre ++ y :: ys = (pre ++ [y]) ++ ys).
    apply IH; [by rewrite <- (assoc_L _ pre [y] ys)|].
    apply Forall_app in Hn as [Hpre [Hy _]%Forall_cons].
    destruct Hb as (i & Hi & Hle & Hlt).
    assert (number best) as Hbn.
    { rewrite Forall_forall in Hpre. apply Hpre. by eapply list_elem_of_lookup_2. }
    destruct (PrimFloat.ltb y best) eqn:E.
    + exists (length pre). split_and!.
      * by rewrite lookup_app_r, Nat.sub_diag by lia.
      * apply Forall_app. split.
        -- eapply Forall_impl; [exact Hle|]. intros x Hx.
           apply float_le_of_ltb. by eapply float_lt_le_trans.
        -- constructor; [by apply float_le_refl|constructor].
      * intros j x Hj Hx. rewrite lookup_app_l in Hx by done.
        eapply float_lt_le_trans; [done|].
        rewrite Forall_forall in Hle. apply Hle. by eapply list_elem_of_lookup_2.
    + exists i. split_and!.
      * by apply lookup_app_l_Some.
      * apply Forall_app. split; [done|].
        constructor; [by apply float_le_of_not_ltb|constructor].
      * intros j x Hj Hx. apply (Hlt j x Hj).
        apply lookup_lt_Some in Hi. by rewrite lookup_app_l in Hx by lia.
Qed.

Lemma min_of_first x xs :
  Forall number (x :: xs) → first_min (min_of x xs) (x :: xs).
Proof.
  intros Hn. apply (fold_min_first xs [x] x Hn).
  apply Forall_cons in Hn as [Hx _].
  exists 0%nat. split_and!; [done| |intros; lia].
  constructor; [by apply float_le_refl|constructor].
Qed.

Lemma fold_max_first ys : ∀ pre best,
  Forall number (pre ++ ys) →
  first_max best pre →
  first_max
    (fold_left (λ best y, if PrimFloat.ltb best y then y else best) ys best)
    (pre ++ ys).
Proof.
  induction ys as [|y ys IH]; intros pre best Hn Hb.
  - by rewrite app_nil_r.
  - cbn [fold_left]. rewrite (assoc_L _ pre [y] ys : pre ++ y :: ys = (pre ++ [y]) ++ ys).
    apply IH; [by rewrite <- (assoc_L _ pre [y] ys)|].
    apply Forall_app in Hn as [Hpre [Hy _]%Forall_cons].
    destruct Hb as (i & Hi & Hle & Hlt).
    assert (number best) as Hbn.
    { rewrite Forall_forall in Hpre. apply Hpre. by eapply list_elem_of_lookup_2. }
    destruct (PrimFloat.ltb best y) eqn:E.
    + exists (length pre). split_and!.
      * by rewrite lookup_app_r, Nat.sub_diag by lia.
      * apply Forall_app. split.
        -- eapply Forall_impl; [exact Hle|]. intros x Hx. simpl in Hx.
           apply float_le_of_ltb. by eapply float_le_lt_trans.
        -- constructor; [by apply float_le_refl|constructor].
      * intros j x Hj Hx. rewrite lookup_app_l in Hx by done.
        eapply float_le_lt_trans; [|done].
        rewrite Forall_forall in Hle. apply Hle. by eapply list_elem_of_lookup_2.
    + exists i. split_and!.
      * by apply lookup_app_l_Some.
      * apply Forall_app. split; [done|].
        constructor; [by apply float_le_of_not_ltb|constructor].
      * intros j x Hj Hx. apply (Hlt j x Hj).
        apply lookup_lt_Some in Hi. by rewrite lookup_app_l in Hx by lia.
Qed.

Lemma max_of_first x xs :
  Forall number (x :: xs) → first_max (max_of x xs) (x :: xs).
Proof.
  intros Hn. apply (fold_max_first xs [x] x Hn).
  apply Forall_cons in Hn as [Hx _].
  exists 0%nat. split_and!; [done| |intros; lia].
  constructor; [by apply float_le_refl|constructor].
Qed.

Lemma first_min_elem m xs : first_min m xs → m ∈ xs.
Proof. intros (i & Hi & _). by eapply list_elem_of_lookup_2. Qed.

Lemma first_max_elem m xs : first_max m xs → m ∈ xs.
Proof. intros (i & Hi & _). by eapply list_elem_of_lookup_2. Qed.

(** A list is determined by its order and the order within its classes:
    two stable sorts of a list agree. *)
Section StableUnique.
Context {A K : Type} (le : K → K → Prop) (keqb : K → K → bool)
  (key : A → K) (good : A → Prop).
Hypothesis keqb_refl : ∀ a, good a → keqb (key a) (key a) = true.
Hypothesis le_antisym :
  ∀ a b, good a → good b →
    le (key a) (key b) → le (key b) (key a) → keqb (key b) (key a) = true.

Lemma classes_nil l :
  Forall good l →
  (∀ k, filter (λ a, keqb (key a) k = true) l = []) → l = [].
Proof.
  intros Hl Hk. destruct l as [|b l]; [done|].
  apply Forall_cons in Hl as [Hb _]. specialize (Hk (key b)).
  rewrite filter_cons, decide_True in Hk by (by apply keqb_refl). done.
Qed.

Lemma sorted_classes_unique l1 : ∀ l2,
  Forall good l1 → Forall good l2 →
  StronglySorted (λ a b, le (key a) (key b)) l1 →
  StronglySorted (λ a b, le (key a) (key b)) l2 →
  (∀ k, filter (λ a, keqb (key a) k = true) l1
        = filter (λ a, keqb (key a) k = true) l2) →
  l1 = l2.
Proof.
  induction l1 as [|a l1 IH]; intros l2 Hg1 Hg2 Hs1 Hs2 Hk.
  - symmetry. apply classes_nil; [done|]. intros k. by rewrite <- Hk.
  - destruct l2 as [|b l2].
    { apply classes_nil; [done|]. intros k. by rewrite Hk. }
    apply Forall_cons in Hg1 as [Ha Hg1]. apply Forall_cons in Hg2 as [Hb Hg2].
    apply StronglySorted_inv in Hs1 as [Hs1 Ha1].
    apply StronglySorted_inv in Hs2 as [Hs2 Hb2].
    pose proof (Hk (key a)) as Hka. pose proof (Hk (key b)) as Hkb.
    rewrite (filter_cons _ a), decide_True in Hka by (by apply keqb_refl).
    rewrite (filter_cons _ b l2), decide_True in Hkb by (by apply keqb_refl).
    assert (a ∈ b :: l2) as Hin_a.
    { eapply (list_elem_of_filter (λ x, keqb (key x) (key a) = true)).
      rewrite <- Hka. apply list_elem_of_here. }
    assert (b ∈ a :: l1) as Hin_b.
    { eapply (list_elem_of_filter (λ x, keqb (key x) (key b) = true)).
      rewrite Hkb. apply list_elem_of_here. }
    assert (a = b) as ->.
    { apply elem_of_cons in Hin_a as [?|Hin_a]; [done|].
      apply elem_of_cons in Hin_b as [?|Hin_b]; [done|].
      rewrite Forall_forall in Ha1, Hb2.
      assert (keqb (key b) (key a) = true) as Hba by auto using le_antisym.
      rewrite (filter_cons _ b l2), decide_True in Hka by done. congruence. }
    f_equal. apply IH; [done..|]. intros k. specialize (Hk k).
    rewrite !filter_cons in Hk. destruct (decide _); congruence.
Qed.
End StableUnique.

Lemma pair_eqb_refl a : number a.1 → number a.2 → pair_eqb a a = true.
Proof.
  intros H1 H2. unfold pair_eqb. rewrite andb_true_iff, !eqb_rank. done.
Qed.

Lemma pair_le_antisym a b : pair_le a b → pair_le b a → pair_eqb b a = true.
Proof.
  unfold pair_le, pair_eqb. rewrite andb_true_iff, !ltb_rank, !eqb_rank, !leb_rank.
  pose proof (lex_lt_irrefl (float_rank a.1)).
  pose proof (lex_lt_irrefl (float_rank a.2)).
  pose proof (lex_lt_trans (float_rank a.1) (float_rank b.1) (float_rank a.1)).
  pose proof (lex_lt_trans (float_rank a.2) (float_rank b.2) (float_rank a.2)).
  intros [(?&?&?)|((?&?&E1)&?&?&[?|E2])] [(?&?&?)|((?&?&E3)&?&?&[?|E4])];
    try rewrite E1 in *; try rewrite E3 in *;
    try rewrite E2 in *; try rewrite E4 in *; naive_solver.
Qed.

(** On keys that are numbers, every stable sort by a pair of coordinates
    yields the list that [sort_by] computes. *)
Lemma sort_pairs_unique {A} (key : A → float * float) (l l' : list A) :
  Forall (λ a, number (key a).1 ∧ number (key a).2) l →
  sorted_stably pair_le pair_eqb key l l' →
  l' = sort_by (λ a b, pair_ltb (key a) (key b)) l.
Proof.
  intros Hl (Hp & Hs & Hk).
  destruct (sort_pairs_sorted_stably key l Hl) as (Hp' & Hs' & Hk').
  apply (sorted_classes_unique pair_le pair_eqb key
           (λ a, number (key a).1 ∧ number (key a).2)).
  - intros a [??]. by apply pair_eqb_refl.
  - intros a b _ _. apply pair_le_antisym.
  - by rewrite Hp.
  - by rewrite Hp'.
  - done.
  - done.
  - intros k. by rewrite Hk, Hk'.
Qed.

(** ** Stripping *)

Lemma lstrip_by_split p s :
  ∃ pre, s = pre ++ lstrip_by p s ∧ Forall (λ c, p c = true) pre.
Proof.
  induction s as [|c s (pre & IH & Hpre)]; [by exists []|]. simpl.
  destruct (p c) eqn:E.
  - exists (c :: pre). split; [by rewrite IH at 1|by constructor].
  - by exists [].
Qed.

Lemma rstrip_by_split p s :
  ∃ suf, s = rstrip_by p s ++ suf ∧ Forall (λ c, p c = true) suf.
Proof.
  induction s as [|c s (suf & IH & Hsuf)]; [by exists []|]. simpl.
  destruct (rstrip_by p s) as [|d t] eqn:E.
  - destruct (p c) eqn:Ec.
    + exists (c :: suf). split; [by rewrite IH at 1|by constructor].
    + exists suf. split; [by rewrite IH at 1|done].
  - exists suf. split; [by rewrite IH at 1|done].
Qed.

Lemma strip_by_stripped p s : stripped p s (strip_by p s).
Proof.
  destruct (lstrip_by_split p s) as (pre & Hs & Hpre).
  destruct (rstrip_by_split p (lstrip_by p s)) as (suf & Hl & Hsuf).
  exists pre, suf. split_and!; [|done..| |].
  - unfold strip_by. by rewrite <- Hl.
  - intros c Hc. pose proof (strip_by_head p s) as Hh.
    destruct (strip_by p s); simplify_eq/=. done.
  - intros c. apply strip_by_last.
Qed.

(** ** Line reconstruction *)

Section ExtractLinesFacts.
Variables line_tol gap_tol : float.

Lemma text_parts_spaced c l :
  concat (c_text c :: text_parts_after gap_tol c l)
  = spaced_text gap_tol (c :: l).
Proof.
  revert c. induction l as [|n l IH]; intros c.
  - simpl. by rewrite app_nil_r.
  - change (text_parts_after gap_tol c (n :: l))
      with ((if PrimFloat.ltb gap_tol (c_x0 n - c_x1 c) then [u " "] else [])
              ++ c_text n :: text_parts_after gap_tol n l).
    change (spaced_text gap_tol (c :: n :: l))
      with (c_text c
              ++ (if PrimFloat.ltb gap_tol (c_x0 n - c_x1 c) then u " " else [])
              ++ spaced_text gap_tol (n :: l)).
    rewrite <- IH. simpl. f_equal.
    destruct (PrimFloat.ltb gap_tol (c_x0 n - c_x1 c)); simpl; done.
Qed.

(** Flushing a cluster appends its line, whatever its text. *)
Lemma flush_cons c cs lines :
  flush gap_tol (c :: cs) lines
  = Ok (lines ++ [line_of_cluster gap_tol (c, cs)]).
Proof.
  unfold flush, line_of_cluster, members. simpl fst. simpl snd.
  destruct (sort_by (λ a b, PrimFloat.ltb (c_x0 a) (c_x0 b)) (c :: cs))
    as [|f rest] eqn:E.
  - by apply sort_by_nil_inv in E.
  - cbn [item0 tail]. rewrite exc_bind_ok.
    by rewrite text_parts_spaced.
Qed.

Lemma loop_body_open first joined reference lines ch :
  loop_body line_tol gap_tol (first :: joined, Some reference, lines) ch
  = if PrimFloat.leb (abs (c_top ch - reference)) line_tol
    then Ok ((first :: joined) ++ [ch],
             Some (reference * 0.7 + c_top ch * 0.3)%float, lines)
    else lines' ← flush gap_tol (first :: joined) lines;
         Ok ([ch], Some (c_top ch), lines').
Proof. done. Qed.

(** The loop invariant: from a state with an open cluster, the loop ends
    in a state whose final flush yields the lines written so far followed
    by the lines of the clusters still to come. *)
Lemma loop_clusters chars : ∀ first joined reference lines,
  ∃ cur' last' lines',
    for_each (loop_body line_tol gap_tol) chars
      (first :: joined, Some reference, lines) = Ok (cur', last', lines')
    ∧ flush gap_tol cur' lines'
      = Ok (lines ++ map (line_of_cluster gap_tol)
                       (clusters_from line_tol first joined reference chars)).
Proof.
  induction chars as [|ch chars IH]; intros first joined reference lines.
  - eexists _, _, _. split; [done|]. by rewrite flush_cons.
  - cbn [for_each clusters_from]. rewrite loop_body_open.
    destruct (PrimFloat.leb (abs (c_top ch - reference)) line_tol).
    + rewrite exc_bind_ok. apply (IH first (joined ++ [ch])).
    + rewrite flush_cons, !exc_bind_ok.
      destruct (IH ch [] (c_top ch)
                  (lines ++ [line_of_cluster gap_tol (first, joined)]))
        as (cur' & last' & lines' & Hrun & Hflush).
      exists cur', last', lines'. split; [done|].
      rewrite Hflush. by rewrite <- app_assoc.
Qed.

(** [extract_lines] never raises and returns one line per cluster: the
    lines of the clusters of the sorted characters, sorted. *)
Lemma extract_lines_reconstruct page_chars :
  extract_lines line_tol gap_tol page_chars
  = Ok (reconstruct line_tol gap_tol page_chars).
Proof.
  unfold extract_lines, reconstruct.
  destruct (sort_chars page_chars) as [|c cs]; [done|].
  cbn [for_each loop_body]. rewrite exc_bind_ok.
  destruct (loop_clusters cs c [] (c_top c) [])
    as (cur' & last' & lines' & Hrun & Hflush).
  rewrite Hrun, exc_bind_ok. by rewrite Hflush.
Qed.
End ExtractLinesFacts.

(** ** Sheet segmentation *)

Lemma sheet_starts_from_bounds page_lines : ∀ pidx s,
  s ∈ sheet_starts_from pidx page_lines →
  (pidx ≤ s < pidx + Z.of_nat (length page_lines))%Z.
Proof.
  induction page_lines as [|lines rest IH]; intros pidx s; simpl.
  - by intros ?%elem_of_nil.
  - rewrite elem_of_app. intros [Hs|Hs].
    + destruct (is_sheet_start lines).
      * apply list_elem_of_singleton in Hs. lia.
      * by apply elem_of_nil in Hs.
    + apply IH in Hs. lia.
Qed.

Lemma sheet_starts_from_sorted page_lines : ∀ pidx,
  StronglySorted Z.lt (sheet_starts_from pidx page_lines).
Proof.
  induction page_lines as [|lines rest IH]; intros pidx; simpl.
  - constructor.
  - destruct (is_sheet_start lines); simpl; [|apply IH].
    constructor; [apply IH|].
    apply Forall_forall. intros s Hs%sheet_starts_from_bounds. lia.
Qed.

(** The first entry of [sheet_starts] is the first page with the marker. *)
Lemma sheet_starts_from_head page_lines : ∀ pidx,
  head (sheet_starts_from pidx page_lines)
  = (λ r, (pidx + Z.of_nat r.1)%Z)
      <$> list_find (λ lines, is_sheet_start lines = true) page_lines.
Proof.
  induction page_lines as [|lines rest IH]; intros pidx; [done|].
  cbn [sheet_starts_from list_find].
  destruct (is_sheet_start lines) eqn:E.
  - rewrite decide_True by done. simpl. f_equal. lia.
  - rewrite decide_False by done. simpl.
    rewrite IH. destruct (list_find _ rest) as [[i l]|]; simpl; [|done].
    f_equal. lia.
Qed.

Lemma sheet_starts_from_nil page_lines pidx :
  Forall (λ lines, is_sheet_start lines = false) page_lines →
  sheet_starts_from pidx page_lines = [].
Proof.
  intros H. revert pidx.
  induction H as [|lines rest Hl _ IH]; intros pidx; [done|].
  cbn [sheet_starts_from]. cbv beta in Hl. by rewrite Hl, IH.
Qed.

(** The indexed loop that fills [sheets] computes [ranges]. *)
Lemma imap_ranges npages suf : ∀ pre,
  imap (λ i s,
          (s, if bool_decide (length pre + i + 1 < length (pre ++ suf))%nat
              then (nth (length pre + i + 1) (pre ++ suf) 0 - 1)%Z
              else (npages - 1)%Z)) suf
  = ranges suf npages.
Proof.
  induction suf as [|s suf IH]; intros pre; [done|].
  cbn [imap ranges]. f_equal.
  - f_equal. rewrite length_app. simpl.
    destruct suf as [|s' suf].
    + rewrite bool_decide_false by (cbn [length]; lia). done.
    + rewrite bool_decide_true by (cbn [length]; lia).
      rewrite app_nth2 by lia.
      replace (length pre + 0 + 1 - length pre)%nat with 1%nat by lia. done.
  - rewrite <- (IH (pre ++ [s])). apply imap_ext. intros i x _. simpl.
    rewrite <- !app_assoc. simpl.
    replace (length (pre ++ [s]) + i + 1)%nat
      with (length pre + S i + 1)%nat by (rewrite length_app; simpl; lia).
    done.
Qed.

Lemma sheets_of_ranges starts npages :
  sheets_of starts npages
  = ranges (match starts with [] => [0%Z] | _ :: _ => starts end) npages.
Proof.
  unfold sheets_of. rewrite <- (imap_ranges npages _ []). done.
Qed.

Lemma ranges_start r starts npages : r ∈ ranges starts npages → r.1 ∈ starts.
Proof.
  induction starts as [|s rest IH]; simpl; [by intros ?%elem_of_nil|].
  rewrite !elem_of_cons. intros [->|H]; [by left|right; by apply IH].
Qed.

Lemma ranges_sorted starts npages :
  StronglySorted Z.lt starts →
  StronglySorted (λ r1 r2 : Z * Z, (r1.2 < r2.1)%Z) (ranges starts npages).
Proof.
  induction 1 as [|s rest Hs IH Hall]; simpl; constructor; [done|].
  apply Forall_forall. intros r Hr. simpl.
  destruct rest as [|s' rest]; [by apply elem_of_nil in Hr|].
  apply ranges_start in Hr. apply elem_of_cons in Hr as [->|Hr]; [lia|].
  apply StronglySorted_inv in Hs as [_ Hs'].
  rewrite Forall_forall in Hs'. specialize (Hs' _ Hr). lia.
Qed.

Lemma ranges_contiguous starts npages : ∀ i r1 r2,
  ranges starts npages !! i = Some r1 →
  ranges starts npages !! S i = Some r2 →
  r2.1 = (r1.2 + 1)%Z.
Proof.
  induction starts as [|s rest IH]; intros i r1 r2; [done|].
  destruct i as [|i]; simpl.
  - intros [= <-]. destruct rest as [|s' rest]; [done|].
    simpl. intros [= <-]. simpl. lia.
  - apply IH.
Qed.

Lemma ranges_cover starts npages : ∀ s0 p,
  StronglySorted Z.lt starts →
  Forall (λ s, (s ≤ npages)%Z) starts →
  head starts = Some s0 →
  (∃ r, r ∈ ranges starts npages ∧ in_range p r) ↔ (s0 ≤ p ≤ npages - 1)%Z.
Proof.
  unfold in_range.
  induction starts as [|s rest IH]; intros s0 p Hs Hb Hh; [done|].
  simpl in Hh. injection Hh as <-.
  apply StronglySorted_inv in Hs as [Hs Hlt].
  apply Forall_cons in Hb as [Hsn Hb].
  destruct rest as [|s' rest].
  - simpl. split.
    + intros (r & Hr & Hp). apply list_elem_of_singleton in Hr as ->. done.
    + intros Hp. exists (s, (npages - 1)%Z). split; [apply list_elem_of_here|done].
  - specialize (IH s' p Hs Hb eq_refl).
    apply Forall_cons in Hlt as [Hss' _].
    apply Forall_cons in Hb as [Hs'n _].
    cbn [ranges]. split.
    + intros (r & Hr & Hp). apply elem_of_cons in Hr as [->|Hr].
      * simpl in Hp. lia.
      * assert (s' ≤ p ≤ npages - 1)%Z by (apply IH; eauto). lia.
    + intros Hp. destruct (decide (p < s')%Z) as [Hlt|Hge].
      * exists (s, (s' - 1)%Z). split; [apply list_elem_of_here|simpl; lia].
      * destruct (proj2 IH) as (r & Hr & Hpr); [lia|].
        exists r. split; [by apply list_elem_of_further|done].
Qed.

Lemma StronglySorted_elem_related {A} (R : A → A → Prop) l x y :
  StronglySorted R l → x ∈ l → y ∈ l → x = y ∨ R x y ∨ R y x.
Proof.
  induction 1 as [|a l Hs IH Hall]; [by intros ?%elem_of_nil|].
  rewrite Forall_forall in Hall.
  intros [->|Hx]%elem_of_cons [->|Hy]%elem_of_cons; auto.
Qed.

(** The starts that the loop over [sheets] reads: sorted, within the
    document, and beginning with the first page that carries the marker. *)
Lemma effective_starts page_lines :
  let starts := sheet_starts_from 0 page_lines in
  let eff := match starts with [] => [0%Z] | _ :: _ => starts end in
  StronglySorted Z.lt eff
  ∧ Forall (λ s, (s ≤ Z.of_nat (length page_lines))%Z) eff
  ∧ head eff = Some (Z.of_nat (first_sheet_page page_lines)).
Proof.
  intros starts eff.
  pose proof (sheet_starts_from_sorted page_lines 0) as Hs.
  pose proof (sheet_starts_from_head page_lines 0) as Hh.
  assert (Forall (λ s, (s ≤ Z.of_nat (length page_lines))%Z) starts) as Hb.
  { apply Forall_forall. intros s Hin%sheet_starts_from_bounds. lia. }
  unfold first_sheet_page. fold starts in Hs, Hh. subst eff.
  destruct starts as [|s rest].
  - split_and!.
    + repeat constructor.
    + repeat constructor. lia.
    + by destruct (list_find _ page_lines).
  - split_and!; [done..|].
    destruct (list_find _ page_lines) as [[i l]|]; simpl in *; [|done].
    injection Hh as ->. f_equal; lia.
Qed.

(** C2, as the code has it: the sheet ranges are sorted by start page,
    pairwise disjoint (a range ends before every later range starts) and
    contiguous, and a page belongs to a range, and then to exactly one,
    exactly when it lies between the first page that carries the sheet
    marker (page 0 when no page carries it) and the last page of the
    document; the pages before the first marker page belong to no range. *)
Theorem segment_partition (page_lines : list (list Line)) :
  StronglySorted (λ r1 r2 : Z * Z, (r1.2 < r2.1)%Z) (segment page_lines)
  ∧ (∀ i r1 r2,
       segment page_lines !! i = Some r1 →
       segment page_lines !! S i = Some r2 →
       r2.1 = (r1.2 + 1)%Z)
  ∧ (∀ p,
       (∃ r, r ∈ segment page_lines ∧ in_range p r)
       ↔ (Z.of_nat (first_sheet_page page_lines) ≤ p
          ≤ Z.of_nat (length page_lines) - 1)%Z)
  ∧ (∀ p r1 r2,
       r1 ∈ segment page_lines → r2 ∈ segment page_lines →
       in_range p r1 → in_range p r2 → r1 = r2)
  ∧ (∀ p r,
       (0 ≤ p < Z.of_nat (first_sheet_page page_lines))%Z →
       r ∈ segment page_lines → ¬ in_range p r).
Proof.
  destruct (effective_starts page_lines) as (Hs & Hb & Hh).
  unfold segment. rewrite sheets_of_ranges.
  pose proof (ranges_sorted _ (Z.of_nat (length page_lines)) Hs) as Hsorted.
  pose proof (λ p, ranges_cover _ (Z.of_nat (length page_lines)) _ p
                     Hs Hb Hh) as Hcover.
  split_and!.
  - done.
  - apply ranges_contiguous.
  - apply Hcover.
  - intros p r1 r2 H1 H2 Hp1 Hp2. unfold in_range in *.
    destruct (StronglySorted_elem_related _ _ _ _ Hsorted H1 H2)
      as [?|[?|?]]; [done|lia..].
  - intros p r Hp Hr Hin.
    assert (Z.of_nat (first_sheet_page page_lines) ≤ p)%Z; [|lia].
    apply Hcover. eauto.
Qed.

(** C2, as the claim words it, fails on a document whose first page does
    not carry the marker: that page is in no range. *)
Lemma segment_partition_counterexample :
  segment cover_then_sheet = [(1, 1)%Z]
  ∧ ¬ ∃ r, r ∈ segment cover_then_sheet ∧ in_range 0 r.
Proof.
  assert (segment cover_then_sheet = [(1, 1)%Z]) as E by (vm_compute; done).
  split; [done|]. rewrite E. intros (r & Hr & Hp).
  apply list_elem_of_singleton in Hr as ->. unfold in_range in Hp. simpl in Hp. lia.
Qed.

(** C8: when no page has a line that matches the marker, the segmentation
    is the single range from page 0 to the last page. *)
Theorem segment_no_marker (page_lines : list (list Line)) :
  Forall (λ lines, is_sheet_start lines = false) page_lines →
  segment page_lines = [(0%Z, (Z.of_nat (length page_lines) - 1)%Z)].
Proof.
  intros H. unfold segment. by rewrite (sheet_starts_from_nil _ _ H).
Qed.

Lemma segment_no_marker_witness :
  Forall (λ lines, is_sheet_start lines = false) no_marker_doc
  ∧ segment no_marker_doc = [(0, 1)%Z].
Proof.
  assert (Forall (λ lines, is_sheet_start lines = false) no_marker_doc) as H.
  { repeat constructor. }
  split; [exact H|]. exact (segment_no_marker no_marker_doc H).
Defined.

(** The clusters are consecutive runs of the characters they are read
    from: every character is in exactly one cluster. *)
Lemma clusters_from_members line_tol chars : ∀ first joined reference,
  concat (map members (clusters_from line_tol first joined reference chars))
  = first :: joined ++ chars.
Proof.
  induction chars as [|ch chars IH]; intros first joined reference.
  - simpl. unfold members. simpl. by rewrite !app_nil_r.
  - cbn [clusters_from].
    destruct (PrimFloat.leb (abs (c_top ch - reference)) line_tol).
    + rewrite IH. by rewrite <- app_assoc.
    + cbn [map concat]. rewrite IH. done.
Qed.

Lemma clusters_members_elem line_tol sorted cl c :
  cl ∈ clusters line_tol sorted → c ∈ members cl → c ∈ sorted.
Proof.
  intros Hcl Hc.
  assert (c ∈ concat (map members (clusters line_tol sorted))) as Hin.
  { apply elem_of_concat_list. exists (members cl). split; [|done].
    apply list_elem_of_fmap. eauto. }
  revert Hin. unfold clusters. destruct sorted as [|c0 cs]; [done|].
  by rewrite clusters_from_members.
Qed.

Lemma line_of_cluster_box gap_tol cl :
  Forall numeric_char (members cl) →
  let ln := line_of_cluster gap_tol cl in
  first_min (x0 ln) (map c_x0 (members cl))
  ∧ first_min (y0 ln) (map c_top (members cl))
  ∧ first_max (x1 ln) (map c_x1 (members cl))
  ∧ first_max (y1 ln) (map c_bottom (members cl)).
Proof.
  intros Hn. unfold line_of_cluster, members in *. cbn [x0 y0 x1 y1 map].
  split_and!; [apply min_of_first|apply min_of_first
              |apply max_of_first|apply max_of_first];
    change (?f cl.1 :: map ?f cl.2) with (map f (cl.1 :: cl.2));
    apply Forall_fmap; (eapply Forall_impl; [exact Hn|]);
    by intros c (?&?&?&?).
Qed.

(** C4: for a page whose coordinates are numbers, [extract_lines] works
    on the characters sorted by [(top, x0)], stably; the clusters are
    consecutive runs of the sorted characters, where a character joins the
    running cluster exactly when its [top] is within [line_tol] of the
    reference, which then becomes [0.7 * reference + 0.3 * top], and
    otherwise starts a new cluster; the line of a cluster has the union of
    the boxes of its members ([x0] and [y0] the smallest [x0] and [top],
    [x1] and [y1] the largest [x1] and [bottom]) and, as text, the texts of
    the members sorted by [x0], stably, with one space wherever the gap
    exceeds [gap_tol], stripped of the blanks at both ends; the lines
    returned are the lines of the clusters, sorted by [(y0, x0)]. *)
Theorem extract_lines_clusters (line_tol gap_tol : float)
    (page_chars : list Character) :
  Forall numeric_char page_chars →
  let sorted := sort_chars page_chars in
  let cls := clusters line_tol sorted in
  sorted_stably pair_le pair_eqb (λ c, (c_top c, c_x0 c)) page_chars sorted
  ∧ concat (map members cls) = sorted
  ∧ (∃ lines,
       extract_lines line_tol gap_tol page_chars = Ok lines
       ∧ sorted_stably pair_le pair_eqb (λ l, (y0 l, x0 l))
           (map (line_of_cluster gap_tol) cls) lines)
  ∧ Forall (λ cl,
       let ln := line_of_cluster gap_tol cl in
       first_min (x0 ln) (map c_x0 (members cl))
       ∧ first_min (y0 ln) (map c_top (members cl))
       ∧ first_max (x1 ln) (map c_x1 (members cl))
       ∧ first_max (y1 ln) (map c_bottom (members cl))
       ∧ ∃ ms,
           sorted_stably float_le PrimFloat.eqb c_x0 (members cl) ms
           ∧ stripped is_space (spaced_text gap_tol ms) (text ln)) cls.
Proof.
  intros Hn sorted cls.
  assert (Forall numeric_char sorted) as Hsn.
  { unfold sorted, sort_chars. by rewrite sort_by_perm. }
  assert (∀ cl, cl ∈ cls → Forall numeric_char (members cl)) as Hcn.
  { intros cl Hcl. apply Forall_forall. intros c Hc.
    rewrite Forall_forall in Hsn. apply Hsn.
    by eapply clusters_members_elem. }
  split_and!.
  - apply (sort_pairs_sorted_stably (λ c, (c_top c, c_x0 c))).
    eapply Forall_impl; [exact Hn|]. by intros c (?&?&?&?).
  - unfold cls, clusters. destruct sorted as [|c cs]; [done|].
    by rewrite clusters_from_members.
  - eexists. split; [apply extract_lines_reconstruct|].
    apply (sort_pairs_sorted_stably (λ l, (y0 l, x0 l))).
    apply Forall_fmap, Forall_forall. intros cl Hcl. simpl.
    destruct (line_of_cluster_box gap_tol cl (Hcn cl Hcl))
      as (Hx & Hy & _).
    apply first_min_elem, list_elem_of_fmap in Hx as (c & Ec & Hc).
    apply first_min_elem, list_elem_of_fmap in Hy as (c' & Ec' & Hc').
    pose proof (Hcn cl Hcl) as Hm. rewrite Forall_forall in Hm.
    destruct (Hm c Hc) as (?&?&?&?), (Hm c' Hc') as (?&?&?&?).
    change (min_of (c_top cl.1) (map c_top cl.2))
      with (y0 (line_of_cluster gap_tol cl)).
    change (min_of (c_x0 cl.1) (map c_x0 cl.2))
      with (x0 (line_of_cluster gap_tol cl)).
    by rewrite Ec, Ec'.
  - apply Forall_forall. intros cl Hcl.
    destruct (line_of_cluster_box gap_tol cl (Hcn cl Hcl))
      as (Hx0 & Hy0 & Hx1 & Hy1).
    split_and!; [done..|].
    eexists. split.
    + apply (sort_floats_sorted_stably c_x0).
      eapply Forall_impl; [exact (Hcn cl Hcl)|]. by intros c (?&?&?&?).
    + apply strip_by_stripped.
Qed.

Lemma extract_lines_clusters_witness :
  Forall numeric_char two_glyphs
  ∧ sorted_stably pair_le pair_eqb (λ c, (c_top c, c_x0 c)) two_glyphs
      (sort_chars two_glyphs)
  ∧ ∃ lines, extract_lines 2.5 0.8 two_glyphs = Ok lines.
Proof.
  assert (Forall numeric_char two_glyphs) as H by (repeat constructor).
  split; [exact H|].
  destruct (extract_lines_clusters 2.5 0.8 two_glyphs H)
    as (Hsorted & _ & (lines & Hlines & _) & _).
  split; [exact Hsorted|]. exists lines. exact Hlines.
Defined.

(** C3, as the code has it: every cluster yields a line, whose text is
    stripped; a cluster whose stripped text is empty yields a line with
    the empty text, which is kept. *)
Theorem extract_lines_keeps_every_cluster (line_tol gap_tol : float)
    (page_chars : list Character) :
  ∃ lines,
    extract_lines line_tol gap_tol page_chars = Ok lines
    ∧ lines ≡ₚ map (line_of_cluster gap_tol)
                 (clusters line_tol (sort_chars page_chars))
    ∧ Forall (λ ln, strip (text ln) = text ln) lines.
Proof.
  eexists. split; [apply extract_lines_reconstruct|].
  unfold reconstruct, sort_lines. split; [apply sort_by_perm|].
  rewrite sort_by_perm. apply Forall_forall.
  intros ln (cl & -> & _)%list_elem_of_fmap. apply strip_idemp.
Qed.

(** C3, as the claim words it, fails on a page with one blank glyph: the
    line of its cluster has the empty text and is returned. *)
Lemma extract_lines_empty_text_counterexample :
  ∃ ln, extract_lines 2.5 0.8 [blank_glyph] = Ok [ln] ∧ strip (text ln) = [].
Proof. eexists. split; [vm_compute; reflexivity|done]. Qed.

(** ** Section splitting *)

Lemma StronglySorted_weaken {A} (R1 R2 : A → A → Prop) l :
  (∀ a b, R1 a b → R2 a b) → StronglySorted R1 l → StronglySorted R2 l.
Proof.
  intros HR. induction 1 as [|x l Hs IH Hall]; constructor; [done|].
  eapply Forall_impl; [exact Hall|]. intros b. apply HR.
Qed.

Section FindSectionsFacts.
Variable HEADER_PATTERNS : list ((str → bool) * str).

#[local] Abbreviation marks_from := (collect_marks HEADER_PATTERNS).
#[local] Abbreviation key_of := (header_key HEADER_PATTERNS).

Lemma collect_marks_bounds lines : ∀ i m,
  m ∈ marks_from i lines → (i ≤ m.2 < i + length lines)%nat.
Proof.
  induction lines as [|ln rest IH]; intros i m; simpl.
  - by intros ?%elem_of_nil.
  - destruct (first_header _ _).
    + intros [->|Hm%IH]%elem_of_cons; simpl; lia.
    + intros Hm%IH. lia.
Qed.

Lemma collect_marks_sorted lines : ∀ i,
  StronglySorted (λ a b : str * nat, (a.2 < b.2)%nat) (marks_from i lines).
Proof.
  induction lines as [|ln rest IH]; intros i; simpl; [constructor|].
  destruct (first_header _ _); [|apply IH].
  constructor; [apply IH|]. apply Forall_forall.
  intros m Hm%collect_marks_bounds. simpl. lia.
Qed.

(** The markers are collected in the order of the lines, so sorting them
    by line index changes nothing. *)
Lemma sort_marks_id lines :
  sort_by (λ a b : str * nat, Nat.ltb a.2 b.2) (marks_from 0 lines)
  = marks_from 0 lines.
Proof.
  apply sort_by_id.
  eapply StronglySorted_weaken; [|apply collect_marks_sorted].
  intros a b Hab. simpl in *. apply Nat.ltb_ge. lia.
Qed.

Lemma collect_marks_elem lines : ∀ i key j,
  (key, j) ∈ marks_from i lines
  ↔ ∃ ln, (i ≤ j)%nat ∧ lines !! (j - i)%nat = Some ln
          ∧ key_of ln = Some key.
Proof.
  unfold header_key.
  induction lines as [|ln rest IH]; intros i key j; simpl.
  - split; [by intros ?%elem_of_nil|]. by intros (? & _ & ? & _).
  - assert ((key, j) ∈ marks_from (S i) rest
            ↔ ∃ ln', (S i ≤ j)%nat ∧ (ln :: rest) !! (j - i)%nat = Some ln'
                     ∧ first_header HEADER_PATTERNS (text ln') = Some key)
      as IH'.
    { rewrite IH. split; intros (ln' & Hij & Hl & Hk); exists ln';
        (split; [done|]); (split; [|done]).
      - by replace (j - i)%nat with (S (j - S i)) by lia.
      - by replace (j - i)%nat with (S (j - S i)) in Hl by lia. }
    destruct (first_header HEADER_PATTERNS (text ln)) as [k|] eqn:E.
    + rewrite elem_of_cons, IH'. split.
      * intros [[= -> ->]|(ln' & ? & ? & ?)].
        -- exists ln. rewrite Nat.sub_diag. done.
        -- exists ln'. split; [lia|done].
      * intros (ln' & Hij & Hl & Hk).
        destruct (decide (j = i)) as [->|Hne].
        -- rewrite Nat.sub_diag in Hl. injection Hl as <-. left. congruence.
        -- right. exists ln'. split; [lia|done].
    + rewrite IH'. split.
      * intros (ln' & ? & ? & ?). exists ln'. split; [lia|done].
      * intros (ln' & Hij & Hl & Hk). exists ln'. split; [|done].
        destruct (decide (j = i)) as [->|Hne]; [|lia].
        rewrite Nat.sub_diag in Hl. injection Hl as <-. congruence.
Qed.
(** The slice from a position to the next marker (or to the end of the
    lines) holds the lines before the next marked line. *)
Lemma slice_up_to_header all rest : ∀ pre,
  all = pre ++ rest →
  slice (length pre)
        (match marks_from (length pre) rest with
         | m :: _ => m.2
         | [] => length all
         end) all
  = up_to_header HEADER_PATTERNS rest.
Proof.
  unfold slice, header_key.
  induction rest as [|ln rest IH]; intros pre Hall.
  - simpl. rewrite app_nil_r in Hall. subst pre.
    rewrite firstn_all. by rewrite drop_all.
  - cbn [collect_marks up_to_header]. unfold header_key.
    destruct (first_header HEADER_PATTERNS (text ln)) as [k|] eqn:E.
    + simpl. rewrite drop_ge; [done|]. rewrite length_take. lia.
    + specialize (IH (pre ++ [ln])).
      rewrite length_app in IH. simpl in IH.
      replace (length pre + 1)%nat with (S (length pre)) in IH by lia.
      rewrite <- IH by (by rewrite <- app_assoc).
      set (e := match marks_from (S (length pre)) rest with
                | m :: _ => m.2
                | [] => length all
                end).
      assert (length pre < e)%nat as He.
      { subst e. destruct (marks_from (S (length pre)) rest) as [|m ms] eqn:Em.
        - subst all. rewrite length_app. simpl. lia.
        - assert (m ∈ marks_from (S (length pre)) rest) as Hm
            by (rewrite Em; apply list_elem_of_here).
          apply collect_marks_bounds in Hm. lia. }
      apply drop_S. rewrite lookup_take_lt by done.
      subst all. by rewrite list_lookup_middle.
Qed.

(** The loop over [enumerate(marks)] adds the blocks one after the
    other. [mpre] holds the markers already handled, [pre] the lines
    before [rest]. *)
Lemma fold_marks all marks rest : ∀ pre mpre secs,
  all = pre ++ rest →
  marks = mpre ++ marks_from (length pre) rest →
  foldl (λ secs '(idx, (key, start)),
           let end_ :=
             if bool_decide (idx + 1 < length marks)%nat
             then (nth (idx + 1) marks ([], 0%nat)).2
             else length all in
           setdefault_extend key (texts (slice (start + 1) end_ all)) secs)
        secs
        (imap (λ i m, ((length mpre + i)%nat, m))
              (marks_from (length pre) rest))
  = foldl add_block secs (blocks HEADER_PATTERNS rest).
Proof.
  induction rest as [|ln rest IH]; intros pre mpre secs Hall Hmarks; [done|].
  cbn [collect_marks blocks] in *. unfold header_key in *.
  assert (S (length pre) = length (pre ++ [ln])) as Hlen
    by (rewrite length_app; simpl; lia).
  destruct (first_header HEADER_PATTERNS (text ln)) as [k|] eqn:E.
  - cbn [imap foldl]. unfold add_block at 2. cbn [fst snd].
    rewrite Hlen in *.
    rewrite <- (slice_up_to_header all rest (pre ++ [ln]))
      by (by rewrite <- app_assoc).
    rewrite <- (IH (pre ++ [ln]) (mpre ++ [(k, length pre)]))
      by (by rewrite <- ?app_assoc).
    f_equal.
    + rewrite <- Hlen in *.
      rewrite Nat.add_0_r, (Nat.add_1_r (length pre)).
      rewrite Hmarks, length_app. cbn [length].
      destruct (marks_from (S (length pre)) rest) as [|m ms].
      * rewrite bool_decide_false by (cbn [length]; lia). done.
      * rewrite bool_decide_true by (cbn [length]; lia).
        rewrite app_nth2 by lia.
        replace (length mpre + 1 - length mpre)%nat with 1%nat by lia.
        done.
    + apply imap_ext. intros i m _. simpl. rewrite length_app. simpl.
      f_equal. lia.
  - rewrite Hlen in *. apply IH; [by rewrite <- app_assoc|done].
Qed.

Lemma has_header_marks lines :
  has_header HEADER_PATTERNS lines = false → ∀ i, marks_from i lines = [].
Proof.
  unfold has_header, header_key.
  induction lines as [|ln rest IH]; intros H i; [done|].
  simpl in *. apply orb_false_iff in H as [Hln Hrest].
  destruct (first_header _ _); [|by apply IH].
  by rewrite bool_decide_true in Hln.
Qed.

Lemma marks_has_header lines :
  has_header HEADER_PATTERNS lines = true → ∀ i, marks_from i lines ≠ [].
Proof.
  unfold has_header, header_key.
  induction lines as [|ln rest IH]; intros H i; [done|].
  simpl in *. destruct (first_header _ _); [done|].
  rewrite bool_decide_false in H by (by intros [? ?]). by apply IH.
Qed.

(** [find_sections] in terms of the blocks. *)
Lemma find_sections_blocks all_lines :
  find_sections HEADER_PATTERNS all_lines
  = if has_header HEADER_PATTERNS all_lines
    then foldl add_block [] (blocks HEADER_PATTERNS all_lines)
    else [(u "document", texts all_lines)].
Proof.
  unfold find_sections. rewrite sort_marks_id.
  destruct (has_header HEADER_PATTERNS all_lines) eqn:E.
  - pose proof (marks_has_header _ E 0) as Hne.
    pose proof (fold_marks all_lines (marks_from 0 all_lines) all_lines
                  [] [] [] eq_refl eq_refl) as Hfold.
    cbn [length] in Hfold. rewrite <- Hfold.
    destruct (marks_from 0 all_lines) as [|m ms]; [done|reflexivity].
  - by rewrite (has_header_marks _ E 0).
Qed.
End FindSectionsFacts.

Lemma dict_get_setdefault_extend k key body d :
  dict_get k (setdefault_extend key body d)
  = if decide (k = key) then Some (default [] (dict_get k d) ++ body)
    else dict_get k d.
Proof.
  induction d as [|[k' v] d IH]; cbn [setdefault_extend dict_get];
    unfold str_eqb in *.
  - destruct (decide (k = key)) as [->|Hne]; cbn [dict_get]; unfold str_eqb.
    + by rewrite bool_decide_true.
    + by rewrite bool_decide_false by congruence.
  - destruct (decide (k' = key)) as [->|Hk'].
    + rewrite bool_decide_true by done. cbn [dict_get]. unfold str_eqb.
      destruct (decide (k = key)) as [->|Hne].
      * by rewrite bool_decide_true.
      * by rewrite bool_decide_false by congruence.
    + rewrite bool_decide_false by done. cbn [dict_get]. unfold str_eqb.
      rewrite IH.
      destruct (decide (k' = k)) as [->|Hkk'].
      * rewrite bool_decide_true by done. by rewrite decide_False by congruence.
      * by rewrite bool_decide_false by done.
Qed.

Lemma setdefault_extend_keys key body d :
  (setdefault_extend key body d).*1
  = if decide (key ∈ d.*1) then d.*1 else d.*1 ++ [key].
Proof.
  induction d as [|[k' v] d IH]; cbn [setdefault_extend fmap list_fmap fst].
  - destruct (decide (key ∈ [])) as [Hin|_]; [|done].
    by apply elem_of_nil in Hin.
  - unfold str_eqb. destruct (decide (k' = key)) as [->|Hk'].
    + rewrite bool_decide_true by done.
      destruct (decide (key ∈ key :: d.*1)) as [_|Hnin]; [done|].
      destruct Hnin. apply list_elem_of_here.
    + rewrite bool_decide_false by done.
      cbn [fmap list_fmap fst]. rewrite IH.
      destruct (decide (key ∈ d.*1)) as [Hin|Hnin];
        destruct (decide (key ∈ k' :: d.*1)) as [Hin'|Hnin']; try done.
      * destruct Hnin'. by apply list_elem_of_further.
      * apply elem_of_cons in Hin' as [?|?]; congruence.
Qed.

Lemma setdefault_extend_NoDup key body d :
  NoDup d.*1 → NoDup (setdefault_extend key body d).*1.
Proof.
  intros Hd. rewrite setdefault_extend_keys.
  destruct (decide (key ∈ d.*1)); [done|].
  apply NoDup_app. split_and!; [done| |apply NoDup_singleton].
  intros x Hx ->%list_elem_of_singleton. done.
Qed.

Lemma fold_blocks_NoDup bs : ∀ secs,
  NoDup secs.*1 → NoDup (foldl add_block secs bs).*1.
Proof.
  induction bs as [|b bs IH]; intros secs Hs; [done|].
  simpl. apply IH. by apply setdefault_extend_NoDup.
Qed.

(** What is found under a key after the blocks [bs] have been added. *)
Lemma dict_get_fold_blocks k bs : ∀ secs,
  dict_get k (foldl add_block secs bs)
  = match map (λ b : str * list Line, texts b.2)
            (filter (λ b : str * list Line, b.1 = k) bs) with
    | [] => dict_get k secs
    | bodies => Some (default [] (dict_get k secs) ++ concat bodies)
    end.
Proof.
  induction bs as [|b bs IH]; intros secs; [done|].
  cbn [foldl]. rewrite IH. unfold add_block at 1 2.
  rewrite dict_get_setdefault_extend, filter_cons.
  destruct (decide (b.1 = k)) as [Hb|Hb].
  - rewrite decide_True by done. cbn [map default concat].
    destruct (map _ (filter _ bs)) as [|body bodies].
    + cbn [concat]. by rewrite app_nil_r.
    + unfold id. cbn [concat]. by rewrite <- app_assoc.
  - rewrite decide_False by congruence. done.
Qed.

(** The key of the first pattern found in a text, and the texts that are
    not empty, in words that do not depend on the loops of the program. *)
Lemma first_header_match pats t key :
  first_header pats t = Some key ↔ first_match pats t key.
Proof.
  induction pats as [|[pat k] pats IH]; cbn [first_header].
  - split; [done|]. by intros (n & p & ? & _).
  - destruct (pat t) eqn:E.
    + split.
      * intros [= ->]. exists 0%nat, pat. split_and!; [done..|]. intros; lia.
      * intros ([|n] & p & Hn & Hp & Hfirst).
        -- by injection Hn as -> ->.
        -- specialize (Hfirst 0%nat pat k ltac:(lia) eq_refl). congruence.
    + rewrite IH. split.
      * intros (n & p & Hn & Hp & Hfirst). exists (S n), p.
        split_and!; [done..|]. intros [|m] p' k' Hm Hl.
        -- by injection Hl as <- <-.
        -- apply (Hfirst m p' k'); [lia|done].
      * intros ([|n] & p & Hn & Hp & Hfirst).
        -- injection Hn as -> ->. congruence.
        -- exists n, p. split_and!; [done..|]. intros m p' k' Hm Hl.
           apply (Hfirst (S m) p' k'); [lia|done].
Qed.

Lemma first_header_None pats t :
  first_header pats t = None ↔ ∀ pat key, (pat, key) ∈ pats → pat t = false.
Proof.
  induction pats as [|[pat k] pats IH]; cbn [first_header].
  - split; [|done]. by intros _ ?? ?%elem_of_nil.
  - destruct (pat t) eqn:E.
    + split; [done|]. intros H. rewrite (H pat k) in E; [done|].
      apply list_elem_of_here.
    + rewrite IH. split.
      * intros H p key [[= -> ->]|Hin]%elem_of_cons; eauto.
      * intros H p key Hin. apply (H p key). by apply list_elem_of_further.
Qed.

Lemma texts_filter lines :
  texts lines = filter (λ t, t ≠ []) (map text lines).
Proof.
  unfold texts. apply list_filter_iff. intros t. by destruct t.
Qed.

(** C5: a line is marked with the key of the first header pattern that is
    found in its text, a line in which no pattern is found is not marked;
    the markers are in the order of the lines, so that sorting them by line
    index leaves them as they are; when some line is marked, a key holds
    the non-empty texts of the lines strictly between each of its markers
    and the next marker, the bodies of a repeated key concatenated in the
    order of the markers under one entry; when no line is marked, the
    result is the single key [document] with every non-empty text. *)
Theorem find_sections_spec (HEADER_PATTERNS : list ((str → bool) * str))
    (all_lines : list Line) :
  (∀ t key,
     first_header HEADER_PATTERNS t = Some key
     ↔ first_match HEADER_PATTERNS t key)
  ∧ (∀ t,
       first_header HEADER_PATTERNS t = None
       ↔ ∀ pat key, (pat, key) ∈ HEADER_PATTERNS → pat t = false)
  ∧ (∀ lines, texts lines = filter (λ t, t ≠ []) (map text lines))
  ∧ sort_by (λ a b : str * nat, Nat.ltb a.2 b.2)
      (collect_marks HEADER_PATTERNS 0 all_lines)
    = collect_marks HEADER_PATTERNS 0 all_lines
  ∧ StronglySorted (λ a b : str * nat, (a.2 < b.2)%nat)
      (collect_marks HEADER_PATTERNS 0 all_lines)
  ∧ (∀ key i,
       (key, i) ∈ collect_marks HEADER_PATTERNS 0 all_lines
       ↔ ∃ ln, all_lines !! i = Some ln
               ∧ first_match HEADER_PATTERNS (text ln) key)
  ∧ (if has_header HEADER_PATTERNS all_lines
     then (∀ key,
             dict_get key (find_sections HEADER_PATTERNS all_lines)
             = section_of HEADER_PATTERNS key all_lines)
          ∧ NoDup (find_sections HEADER_PATTERNS all_lines).*1
     else find_sections HEADER_PATTERNS all_lines
          = [(u "document", filter (λ t, t ≠ []) (map text all_lines))]).
Proof.
  split_and!.
  - apply first_header_match.
  - apply first_header_None.
  - apply texts_filter.
  - apply sort_marks_id.
  - apply collect_marks_sorted.
  - intros key i. rewrite collect_marks_elem. unfold header_key.
    rewrite Nat.sub_0_r. setoid_rewrite first_header_match. split.
    + intros (ln & _ & ? & ?). eauto.
    + intros (ln & ? & ?). exists ln. split; [lia|done].
  - rewrite find_sections_blocks, <- texts_filter.
    destruct (has_header HEADER_PATTERNS all_lines); [|done]. split.
    + intros key. rewrite dict_get_fold_blocks.
      unfold section_of, bodies_of. simpl.
      by destruct (map _ (filter _ (blocks HEADER_PATTERNS all_lines))).
    + apply fold_blocks_NoDup. constructor.
Qed.

(** ** File names *)

Lemma uint_digits_inj d d' : uint_digits d = uint_digits d' → d = d'.
Proof.
  revert d'. induction d; intros d'; destruct d'; simpl; intros H;
    simplify_eq; f_equal; auto.
Qed.

Lemma str_of_nat_inj n n' : str_of_nat n = str_of_nat n' → n = n'.
Proof.
  intros H%uint_digits_inj. by apply DecimalNat.Unsigned.to_uint_inj.
Qed.

Lemma dup_file_name_inj (base : str) (j k : nat) :
  dup_file_name base j = dup_file_name base k → j = k.
Proof.
  unfold dup_file_name. intros H.
  apply app_inv_head, app_inv_head, app_inv_tail in H.
  by apply str_of_nat_inj.
Qed.

(** The search for a free suffix ends: among more suffixes than there are
    names in use, one is free. [X] holds the names in use that the search
    can still meet. *)
Lemma dup_loop_ends (base : str) (used : gset str) (fuel : nat) : ∀ idx (X : gset str),
  X ⊆ used →
  (∀ j, (idx ≤ j)%nat → dup_file_name base j ∈ used →
        dup_file_name base j ∈ X) →
  (size X < fuel)%nat →
  ∃ fn, dup_loop fuel base used idx = Some fn.
Proof.
  induction fuel as [|fuel IH]; intros idx X HX Hmeet Hsize; [lia|].
  cbn [dup_loop].
  destruct (decide (dup_file_name base idx ∈ used)) as [Hin|Hnin].
  - rewrite bool_decide_false by (by intros ?).
    apply (IH (S idx) (X ∖ {[dup_file_name base idx]})).
    + set_solver.
    + intros j Hj Hju. apply elem_of_difference. split.
      * apply Hmeet; [lia|done].
      * intros Heq%elem_of_singleton. apply dup_file_name_inj in Heq. lia.
    + assert (dup_file_name base idx ∈ X) as HinX by (by apply Hmeet).
      rewrite size_difference by set_solver. rewrite size_singleton.
      assert (size X ≠ 0)%nat; [|lia].
      intros Hz%size_empty_inv. set_solver.
  - rewrite bool_decide_true by done. eauto.
Qed.

Lemma dup_loop_enough (base : str) (used : gset str) (idx : nat) :
  ∃ fn, dup_loop (S (size used)) base used idx = Some fn.
Proof. apply (dup_loop_ends base used _ idx used); [done|auto|lia]. Qed.

(** The suffix found is the first free one. *)
Lemma dup_loop_first (base : str) (used : gset str) (fuel : nat) : ∀ idx fn,
  dup_loop fuel base used idx = Some fn →
  ∃ k, (idx ≤ k)%nat ∧ fn = dup_file_name base k ∧ (fn ∉ used)
       ∧ ∀ j, (idx ≤ j < k)%nat → dup_file_name base j ∈ used.
Proof.
  induction fuel as [|fuel IH]; intros idx fn; [done|].
  cbn [dup_loop].
  destruct (decide (dup_file_name base idx ∈ used)) as [Hin|Hnin].
  - rewrite bool_decide_false by (by intros ?).
    intros (k & Hk & -> & Hfree & Hbefore)%IH.
    exists k. split_and!; [lia|done..|].
    intros j Hj. destruct (decide (j = idx)) as [->|Hne]; [done|].
    apply Hbefore. lia.
  - rewrite bool_decide_true by done. intros [= <-].
    exists idx. split_and!; [lia|done..|]. intros j Hj. lia.
Qed.

Lemma choose_file_name_finalized (base : str) (used : gset str) :
  ∃ fn, choose_file_name base used = Some fn
        ∧ (fn ∉ used) ∧ finalized base used fn.
Proof.
  unfold choose_file_name, finalized.
  destruct (decide (file_name_of base ∈ used)) as [Hin|Hnin].
  - rewrite bool_decide_true by done.
    destruct (dup_loop_enough base used 2) as [fn Hfn].
    exists fn. split; [done|].
    apply dup_loop_first in Hfn as (k & Hk & -> & Hfree & Hbefore).
    split; [done|]. right. split; [done|]. exists k. done.
  - rewrite bool_decide_false by done.
    exists (file_name_of base). split_and!; [done..|]. by left.
Qed.

(** The run over the sheets: every sheet receives a name, the names are
    pairwise different and different from the names in use before, and
    each is the name that [finalized] describes. *)
Lemma assign_names_spec nfkc sheets : ∀ si (used : gset str),
  ∃ names,
    assign_names nfkc si sheets used = Some names
    ∧ length names = length sheets
    ∧ NoDup names
    ∧ (∀ fn, fn ∈ names → fn ∉ used)
    ∧ ∀ i r fn,
        sheets !! i = Some r → names !! i = Some fn →
        finalized (base_name_of nfkc (si + i) r)
          (used ∪ list_to_set (take i names)) fn.
Proof.
  induction sheets as [|r sheets IH]; intros si used.
  - exists []. split_and!; try done.
    + constructor.
    + by intros fn ?%elem_of_nil.
  - cbn [assign_names].
    destruct (choose_file_name_finalized (base_name_of nfkc si r) used)
      as (fn & -> & Hfree & Hfin).
    destruct (IH (S si) ({[fn]} ∪ used))
      as (names & Hrun & Hlen & Hnd & Hnew & Hrule).
    cbn [mbind option_bind]. rewrite Hrun. cbn [mbind option_bind].
    exists (fn :: names). split_and!.
    + done.
    + simpl. by rewrite Hlen.
    + constructor; [|done]. intros Hin. apply Hnew in Hin. set_solver.
    + intros fn' [->|Hin]%elem_of_cons; [done|].
      apply Hnew in Hin. set_solver.
    + intros [|i] r' fn'; simpl.
      * intros [= <-] [= <-]. rewrite Nat.add_0_r.
        by rewrite union_empty_r_L.
      * intros Hr Hn. specialize (Hrule i r' fn' Hr Hn).
        replace (si + S i)%nat with (S si + i)%nat by lia.
        by replace (used ∪ ({[fn]} ∪ list_to_set (take i names)))
          with ({[fn]} ∪ used ∪ list_to_set (take i names)) by set_solver.
Qed.

(** C7, as the code has it: in a run, every sheet receives a file name,
    its base name followed by [.md]; when that name is in use, the name
    carries the first suffix [_2], [_3], ... that is free; no two sheets
    receive the same name. Three sheets with the code [A] and no name
    receive [A.md], [A_2.md] and [A_3.md] in this order. The base name of a
    sheet without code is made of the number of the sheet and of its
    title: three such sheets with the title [A] receive [sheet01_A.md],
    [sheet02_A.md] and [sheet03_A.md], none with a suffix. *)
Theorem assign_names_unique (nfkc : str → str) (sheets : list sheet_id) :
  (∃ names,
     assign_names nfkc 1 sheets ∅ = Some names
     ∧ length names = length sheets
     ∧ NoDup names
     ∧ ∀ i r fn,
         sheets !! i = Some r → names !! i = Some fn →
         finalized (base_name_of nfkc (1 + i) r)
           (list_to_set (take i names)) fn)
  ∧ base_name_of nfkc_basic 1 sheet_A = u "A"
  ∧ assign_names nfkc_basic 1 [sheet_A; sheet_A; sheet_A] ∅
    = Some [u "A.md"; u "A_2.md"; u "A_3.md"]
  ∧ normalize_token nfkc_basic (title sheet_titled_A) = u "A"
  ∧ assign_names nfkc_basic 1
      [sheet_titled_A; sheet_titled_A; sheet_titled_A] ∅
    = Some [u "sheet01_A.md"; u "sheet02_A.md"; u "sheet03_A.md"].
Proof.
  split; [|split_and!; vm_compute; reflexivity].
  destruct (assign_names_spec nfkc sheets 1 ∅)
    as (names & Hrun & Hlen & Hnd & _ & Hrule).
  exists names. split_and!; [done..|].
  intros i r fn Hr Hn. specialize (Hrule i r fn Hr Hn).
  by rewrite union_empty_l_L in Hrule.
Qed.

(** C7, as the claim words it, fails on three sheets without code whose
    titles normalize to [A]: their names are not [A], [A_2], [A_3], with
    or without the extension, and none of them carries a suffix [_2] or
    [_3]. *)
Lemma assign_names_title_counterexample :
  ∃ names,
    assign_names nfkc_basic 1
      [sheet_titled_A; sheet_titled_A; sheet_titled_A] ∅ = Some names
    ∧ names ≠ [u "A"; u "A_2"; u "A_3"]
    ∧ names ≠ [u "A.md"; u "A_2.md"; u "A_3.md"]
    ∧ Forall (λ fn, endswith (u "_2.md") fn = false
                    ∧ endswith (u "_3.md") fn = false) names.
Proof.
  eexists. split; [vm_compute; reflexivity|].
  split_and!; [discriminate..|]. repeat constructor.
Qed.

(** ** The matcher *)

Lemma rep_cont p greedy k s : ∀ lo pos m,
  rep p greedy k lo pos s = Some m → ∃ pos' s', k pos' s' = Some m.
Proof.
  induction s as [|c s IH]; intros lo pos m; cbn [rep].
  - destruct lo; [eauto|done].
  - destruct (p c); [|destruct lo; [eauto|done]].
    destruct lo as [|lo]; [|apply IH].
    destruct greedy; unfold or_else.
    + destruct (rep p true k 0 (S pos) s) eqn:E.
      * intros [= <-]. eapply IH, E.
      * eauto.
    + destruct (k pos (c :: s)) eqn:E.
      * intros [= <-]. eauto.
      * apply IH.
Qed.

Lemma has_group_cons i j g cs :
  has_group i ((j, g) :: cs) ↔ j = i ∨ has_group i cs.
Proof.
  unfold has_group. simpl. destruct (Nat.eqb_spec j i) as [->|Hne].
  - split; [by left|by eexists].
  - split; [by right|]. by intros [?|?].
Qed.

(** A match passes on, to what follows the pattern, the groups it had and
    the groups that the pattern always sets. *)
Lemma rmatch_cont r : ∀ cs pos s k m,
  rmatch r cs pos s k = Some m →
  ∃ cs' pos' s',
    k cs' pos' s' = Some m
    ∧ ∀ i, has_group i cs ∨ always_sets i r = true → has_group i cs'.
Proof.
  induction r as [|c|p|p lo greedy|r1 IH1 r2 IH2|r1 IH1 r2 IH2|j r1 IH1| |];
    intros cs pos s k m; cbn [rmatch always_sets].
  - intros H. exists cs, pos, s. split; [done|]. by intros i [?|?].
  - destruct s as [|c' s]; [done|]. destruct (N.eqb c c'); [|done].
    intros H. exists cs, (S pos), s. split; [done|]. by intros i [?|?].
  - destruct s as [|c' s]; [done|]. destruct (p c'); [|done].
    intros H. exists cs, (S pos), s. split; [done|]. by intros i [?|?].
  - intros (pos' & s' & H)%rep_cont.
    exists cs, pos', s'. split; [done|]. by intros i [?|?].
  - intros (cs1 & pos1 & s1 & H1 & Hg1)%IH1.
    apply IH2 in H1 as (cs2 & pos2 & s2 & H2 & Hg2).
    exists cs2, pos2, s2. split; [done|].
    intros i [Hi|[Hi|Hi]%orb_true_iff]; apply Hg2; auto.
  - unfold or_else. destruct (rmatch r1 cs pos s k) eqn:E.
    + intros [= <-]. apply IH1 in E as (cs1 & pos1 & s1 & H1 & Hg1).
      exists cs1, pos1, s1. split; [done|].
      intros i [Hi|[Hi _]%andb_true_iff]; apply Hg1; auto.
    + intros (cs2 & pos2 & s2 & H2 & Hg2)%IH2.
      exists cs2, pos2, s2. split; [done|].
      intros i [Hi|[_ Hi]%andb_true_iff]; apply Hg2; auto.
  - intros (cs1 & pos1 & s1 & H1 & Hg1)%IH1.
    eexists _, pos1, s1. split; [exact H1|].
    intros i Hi. apply has_group_cons.
    destruct (Nat.eqb_spec j i) as [->|Hne]; [by left|right].
    apply Hg1. destruct Hi as [?|Hi]; [by left|by right].
  - destruct (Nat.eqb pos 0); [|done].
    intros H. exists cs, pos, s. split; [done|]. by intros i [?|?].
  - intros H. exists cs, pos, s. split; [|by intros i [?|?]].
    repeat case_match; done.
Qed.

Lemma group_of_has_group i cs pos :
  has_group i cs → ∃ g, group i (cs, pos) = Some g.
Proof. unfold has_group, group. simpl. intros [e ->]. by eexists. Qed.

Lemma re_match_group r s m i :
  re_match r s = Some m → always_sets i r = true →
  ∃ g, group i m = Some g.
Proof.
  unfold re_match. intros (cs & pos & s' & [= <-] & Hg)%rmatch_cont Hi.
  apply group_of_has_group. auto.
Qed.

Lemma re_search_from_group r s i : ∀ pos m,
  re_search_from r pos s = Some m → always_sets i r = true →
  ∃ g, group i m = Some g.
Proof.
  induction s as [|c s IH]; intros pos m; cbn [re_search_from];
    unfold or_else.
  - destruct (rmatch r [] pos [] _) eqn:E; [|done].
    intros [= <-] Hi.
    apply rmatch_cont in E as (cs & pos' & s' & [= <-] & Hg).
    apply group_of_has_group. auto.
  - destruct (rmatch r [] pos (c :: s) _) eqn:E; [|apply IH].
    intros [= <-] Hi.
    apply rmatch_cont in E as (cs & pos' & s' & [= <-] & Hg).
    apply group_of_has_group. auto.
Qed.

Lemma re_search_group r s m i :
  re_search r s = Some m → always_sets i r = true →
  ∃ g, group i m = Some g.
Proof. apply re_search_from_group. Qed.

(** ** Identifier extraction *)

Lemma first_nonempty_cons t l :
  first_nonempty (t :: l) = if nonempty t then Some t else first_nonempty l.
Proof.
  unfold first_nonempty. rewrite filter_cons.
  destruct (nonempty t); [by rewrite decide_True|by rewrite decide_False].
Qed.

Lemma CODE_LABEL_RES_group :
  Forall (λ r, always_sets 1 r = true) CODE_LABEL_RES.
Proof. repeat constructor. Qed.

Lemma re_line_groups :
  always_sets 1 re_line = true ∧ always_sets 2 re_line = true.
Proof. split; reflexivity. Qed.

Section IdentifierFacts.
Variable nfkc : str → str.

#[local] Abbreviation norm := (normalize_token nfkc).

Lemma code_label_loop_value rxs text_norm :
  Forall (λ r, always_sets 1 r = true) rxs →
  code_label_loop nfkc rxs text_norm = Ok (label_value nfkc rxs text_norm).
Proof.
  induction 1 as [|rx rxs Hrx _ IH]; [done|].
  cbn [code_label_loop label_value].
  destruct (re_search rx text_norm) as [m|] eqn:E; [|done].
  destruct (re_search_group _ _ _ 1 E Hrx) as [g Hg].
  unfold group_exc. rewrite Hg. done.
Qed.

Lemma try_extract_code_from_text_value lines :
  try_extract_code_from_text nfkc (joined_text lines)
  = Ok (inline_code nfkc lines).
Proof. apply code_label_loop_value, CODE_LABEL_RES_group. Qed.

(** Taking the first token of a candidate never fails: a stripped text
    that holds a space holds a token. *)
Lemma right_token_value cand :
  right_token nfkc cand = Ok (first_token nfkc cand).
Proof.
  unfold right_token, first_token, normalize_token.
  set (c := strip (nfkc (text cand))).
  assert (∃ token,
            (if has_char 32 c then item0 (split_ws c) else Ok c) = Ok token
            ∧ (if has_char 32 c then default [] (head (split_ws c)) else c)
              = token) as (token & -> & ->).
  { destruct (has_char 32 c) eqn:E; [|eauto].
    pose proof (split_ws_strip_nonempty (nfkc (text cand)) E) as Hne.
    fold c in Hne. destruct (split_ws c) as [|t ts]; [done|]. eauto. }
  rewrite exc_bind_ok.
  destruct (has_char 12288 token); [|done].
  pose proof (split_char_aux_nonempty 12288 [] token) as Hne.
  unfold split_char. by destruct (split_char_aux 12288 [] token).
Qed.

Lemma right_loop_value cands :
  right_loop nfkc cands = Ok (first_nonempty (map (first_token nfkc) cands)).
Proof.
  induction cands as [|cand cands IH]; [done|].
  cbn [right_loop map]. rewrite right_token_value, exc_bind_ok.
  rewrite first_nonempty_cons. by destruct (nonempty _).
Qed.

Lemma below_loop_value cands :
  below_loop nfkc cands
  = first_nonempty (map (λ l, norm (text l)) cands).
Proof.
  induction cands as [|cand cands IH]; [done|].
  cbn [below_loop map]. rewrite first_nonempty_cons.
  by destruct (nonempty _).
Qed.

Lemma spatial_loop_value lines rest :
  spatial_loop nfkc lines rest
  = Ok (head (omap (spatial_at nfkc lines)
                (filter (λ ln, is_code_label (text ln) = true) rest))).
Proof.
  induction rest as [|ln rest IH]; [done|].
  cbn [spatial_loop]. rewrite filter_cons.
  destruct (is_code_label (text ln)) eqn:E.
  - rewrite decide_True by done. cbn [omap list_omap].
    rewrite right_loop_value, exc_bind_ok, below_loop_value.
    unfold spatial_at.
    destruct (first_nonempty (map (first_token nfkc) _)); [done|].
    destruct (first_nonempty (map _ _)); [done|]. apply IH.
  - rewrite decide_False by done. apply IH.
Qed.

(** Strategies 1 and 2: the code behind a label when the inline match
    yields one, the spatial candidate otherwise. *)
Lemma try_extract_code_from_lines_value lines :
  try_extract_code_from_lines nfkc lines = Ok (label_code nfkc lines).
Proof.
  unfold try_extract_code_from_lines, label_code.
  rewrite try_extract_code_from_text_value, exc_bind_ok.
  destruct (truthy (inline_code nfkc lines)); [done|].
  unfold spatial_code. apply spatial_loop_value.
Qed.

Lemma line_pattern_loop_value lines :
  line_pattern_loop nfkc lines = Ok (line_pattern_code nfkc lines).
Proof.
  unfold line_pattern_code.
  induction lines as [|ln lines IH]; [done|].
  cbn [line_pattern_loop omap list_omap]. unfold line_pattern_of at 1.
  destruct (re_match re_line (norm (text ln))) as [m|] eqn:E; [|done].
  destruct (re_match_group _ _ _ 1 E (proj1 re_line_groups)) as [g1 Hg1].
  destruct (re_match_group _ _ _ 2 E (proj2 re_line_groups)) as [g2 Hg2].
  unfold group_exc. rewrite Hg1, Hg2. done.
Qed.

Lemma token_split_loop_value lines :
  token_split_loop nfkc lines = Ok (token_split_code nfkc lines).
Proof.
  unfold token_split_code.
  induction lines as [|ln lines IH]; [done|].
  cbn [token_split_loop omap list_omap]. unfold token_split_of at 1.
  destruct (nonempty (norm (text ln))); [|done]. cbn [negb andb].
  destruct (re_split_runs cls_blank (norm (text ln))) as [|t [|t' ts]] eqn:E.
  - rewrite bool_decide_true by (simpl; lia). done.
  - rewrite bool_decide_true by (simpl; lia).
    rewrite (bool_decide_false (2 ≤ _)%nat) by (simpl; lia). done.
  - rewrite bool_decide_false by (simpl; lia).
    rewrite (bool_decide_true (2 ≤ _)%nat) by (simpl; lia).
    cbn [item0 head tail default from_option id andb]. rewrite exc_bind_ok.
    destruct (matched (re_fullmatch re_code_shape t)); [|done].
    cbn [andb].
    destruct (name_tokens_of (t' :: ts)) as [|n ns].
    + rewrite bool_decide_false by (by intros ?). done.
    + rewrite bool_decide_true by done. done.
Qed.

(** The cascade never raises, and its result is decided by the line
    pattern, then by the token split, then by the labels. *)
Lemma try_extract_code_and_name_value lines :
  try_extract_code_and_name_from_lines nfkc lines = Ok (cascade nfkc lines).
Proof.
  unfold try_extract_code_and_name_from_lines, cascade.
  rewrite try_extract_code_from_lines_value, exc_bind_ok.
  rewrite line_pattern_loop_value, exc_bind_ok.
  destruct (line_pattern_code nfkc lines) as [[c n]|]; [done|].
  rewrite token_split_loop_value, exc_bind_ok.
  by destruct (token_split_code nfkc lines) as [[c n]|].
Qed.

Lemma extract_identifier_ok lines :
  ∃ code name, extract_identifier nfkc lines = Ok (code, name).
Proof.
  unfold extract_identifier. rewrite try_extract_code_and_name_value.
  rewrite exc_bind_ok. destruct (cascade nfkc lines) as [c n].
  destruct (truthy c && negb (truthy n)); [|eauto].
  destruct (backfill_loop nfkc _); eauto.
Qed.
End IdentifierFacts.

(** C1, as the code has it: the code of the label strategies (inline
    match, then spatial match) is computed first and set aside; the result
    is that of the line pattern when a line matches it, else that of the
    token split when it succeeds, and only otherwise the code of the label
    strategies, without a name; within the label strategies a non-empty
    inline code is kept. For the single line [PRG0001  子育て支援事業  有]
    the line pattern yields the code [PRG0001] and the name [子育て支援事業],
    and the label strategies find nothing. *)
Theorem cascade_precedence :
  (∀ (nfkc : str → str) (lines : list Line),
     try_extract_code_and_name_from_lines nfkc lines
     = Ok (match line_pattern_code nfkc lines with
           | Some (c, n) => (Some c, Some n)
           | None =>
             match token_split_code nfkc lines with
             | Some (c, n) => (Some c, Some n)
             | None =>
               (if truthy (inline_code nfkc lines) then inline_code nfkc lines
                else spatial_code nfkc lines, None)
             end
           end))
  ∧ try_extract_code_and_name_from_lines nfkc_basic [prg_line]
    = Ok (Some (u "PRG0001"), Some (u "子育て支援事業"))
  ∧ line_pattern_code nfkc_basic [prg_line]
    = Some (u "PRG0001", u "子育て支援事業")
  ∧ inline_code nfkc_basic [prg_line] = None
  ∧ spatial_code nfkc_basic [prg_line] = None.
Proof.
  split; [|split_and!; vm_compute; reflexivity].
  intros nfkc lines. apply try_extract_code_and_name_value.
Qed.

(** C1, as the claim words it, fails where a label yields a code and a
    later line has the shape of the line pattern: the code of the inline
    strategy is replaced by the code of the line pattern. *)
Lemma cascade_precedence_counterexample :
  try_extract_code_from_lines nfkc_basic label_then_pattern
  = Ok (Some (u "X001"))
  ∧ inline_code nfkc_basic label_then_pattern = Some (u "X001")
  ∧ try_extract_code_and_name_from_lines nfkc_basic label_then_pattern
    = Ok (Some (u "PRG0001"), Some (u "子育て支援事業")).
Proof. split_and!; vm_compute; reflexivity. Qed.

Lemma elem_of_filter_bool {A} (f : A → bool) (l : list A) x :
  x ∈ filter (λ y, f y = true) l ↔ x ∈ l ∧ f x = true.
Proof. rewrite list_elem_of_filter. tauto. Qed.

Lemma sorted_stably_filter {A} (key : A → float * float)
    (P Q : A → Prop) `{!∀ a, Decision (P a)} `{!∀ a, Decision (Q a)}
    (good : A → Prop) (l : list A) :
  (∀ a, P a ↔ Q a) →
  Forall good l →
  (∀ a, good a → number (key a).1 ∧ number (key a).2) →
  sorted_stably pair_le pair_eqb key (filter Q l)
    (sort_by (λ a b, pair_ltb (key a) (key b)) (filter P l)).
Proof.
  intros HPQ Hl Hgood. rewrite <- (list_filter_iff P Q l HPQ).
  apply (sort_pairs_sorted_stably key).
  apply Forall_forall. intros a [_ Ha]%list_elem_of_filter.
  rewrite Forall_forall in Hl. auto.
Qed.

(** C6, as the code has it, for lines whose coordinates are numbers: a
    label line is a line whose text holds [事務事業コード] or [事業コード]; for
    a label line the candidates on the right are the lines with a
    non-empty text whose vertical centre is within 3.0 of that of the
    label line and whose [x0] exceeds the label's [x1] by more than 2.0,
    sorted by [(x0, y0)], stably; the candidates below are the lines
    whose [y0] exceeds the label's [y1] and whose [x0] lies between the
    label's [x0 - 5.0] and [x1 + 100.0], sorted by [(y0, x0)], stably; the
    strategy returns, for the first label line that has one, the first
    non-empty token among the first three candidates on the right (the
    normalized text, cut at the first blank) or else the first non-empty
    normalized text, uncut, among the first three candidates below; it is
    consulted only when the inline match yields no code. *)
Theorem spatial_strategy_spec (nfkc : str → str) (lines : list Line) :
  Forall numeric_line lines →
  (∀ t, is_code_label t = true
        ↔ (∃ pre suf, t = pre ++ u "事務事業コード" ++ suf)
          ∨ (∃ pre suf, t = pre ++ u "事業コード" ++ suf))
  ∧ (∀ ln l,
       l ∈ right_candidates lines ln
       ↔ l ∈ lines
         ∧ PrimFloat.leb (abs (y_centre l - y_centre ln)) 3.0 = true
         ∧ PrimFloat.ltb (x1 ln + 2.0) (x0 l) = true
         ∧ text l ≠ [])
  ∧ (∀ ln,
       sorted_stably pair_le pair_eqb (λ l, (x0 l, y0 l))
         (filter (λ l,
                    PrimFloat.leb (abs (y_centre l - y_centre ln)) 3.0 = true
                    ∧ PrimFloat.ltb (x1 ln + 2.0) (x0 l) = true
                    ∧ text l ≠ []) lines)
         (right_candidates lines ln))
  ∧ (∀ ln l,
       l ∈ below_candidates lines ln
       ↔ l ∈ lines
         ∧ PrimFloat.ltb (y1 ln) (y0 l) = true
         ∧ PrimFloat.leb (x0 ln - 5.0) (x0 l) = true
         ∧ PrimFloat.leb (x0 l) (x1 ln + 100.0) = true)
  ∧ (∀ ln,
       sorted_stably pair_le pair_eqb (λ l, (y0 l, x0 l))
         (filter (λ l,
                    PrimFloat.ltb (y1 ln) (y0 l) = true
                    ∧ PrimFloat.leb (x0 ln - 5.0) (x0 l) = true
                    ∧ PrimFloat.leb (x0 l) (x1 ln + 100.0) = true) lines)
         (below_candidates lines ln))
  ∧ spatial_loop nfkc lines lines
    = Ok (head (omap
                  (λ ln,
                     match first_nonempty
                             (map (first_token nfkc)
                                (take 3 (right_candidates lines ln))) with
                     | Some token => Some token
                     | None =>
                       first_nonempty
                         (map (λ l, normalize_token nfkc (text l))
                            (take 3 (below_candidates lines ln)))
                     end)
                  (filter (λ ln, is_code_label (text ln) = true) lines)))
  ∧ try_extract_code_from_lines nfkc lines
    = (if truthy (inline_code nfkc lines) then Ok (inline_code nfkc lines)
       else spatial_loop nfkc lines lines).
Proof.
  intros Hn. split_and!.
  - intros t. unfold is_code_label. by rewrite orb_true_iff, !contains_spec.
  - intros ln l. unfold right_candidates, y_centre.
    rewrite sort_by_elem, elem_of_filter_bool, !andb_true_iff.
    destruct (text l); simpl; intuition congruence.
  - intros ln. unfold right_candidates, y_centre.
    apply (sorted_stably_filter (λ l, (x0 l, y0 l)) _ _ numeric_line);
      [|done|by intros l (?&?&?&?)].
    intros l. rewrite !andb_true_iff.
    destruct (text l); simpl; intuition congruence.
  - intros ln l. unfold below_candidates.
    rewrite sort_by_elem, elem_of_filter_bool, !andb_true_iff. tauto.
  - intros ln. unfold below_candidates.
    apply (sorted_stably_filter (λ l, (y0 l, x0 l)) _ _ numeric_line);
      [|done|by intros l (?&?&?&?)].
    intros l. rewrite !andb_true_iff. tauto.
  - apply spatial_loop_value.
  - unfold try_extract_code_from_lines.
    rewrite try_extract_code_from_text_value, exc_bind_ok. done.
Qed.

Lemma spatial_strategy_spec_witness :
  Forall numeric_line label_two_right
  ∧ sorted_stably pair_le pair_eqb (λ l, (x0 l, y0 l))
      (filter (λ l,
                 PrimFloat.leb (abs (y_centre l - y_centre code_label)) 3.0
                 = true
                 ∧ PrimFloat.ltb (x1 code_label + 2.0) (x0 l) = true
                 ∧ text l ≠ []) label_two_right)
      (right_candidates label_two_right code_label)
  ∧ try_extract_code_from_lines nfkc_basic label_two_right
    = (if truthy (inline_code nfkc_basic label_two_right)
       then Ok (inline_code nfkc_basic label_two_right)
       else spatial_loop nfkc_basic label_two_right label_two_right).
Proof.
  assert (Forall numeric_line label_two_right) as H by (repeat constructor).
  split; [exact H|].
  destruct (spatial_strategy_spec nfkc_basic label_two_right H)
    as (_ & _ & Hright & _ & _ & _ & Hcode).
  split; [exact (Hright code_label)|exact Hcode].
Defined.

(** C6, as the claim words it, fails on a label line with a line one point
    to its right on the same row and a line of two words below: the line
    on the right is not a candidate although its [x0] lies to the right
    of the label's [x1], and the line below yields its whole text, not its
    first token. *)
Lemma spatial_strategy_counterexample :
  inline_code nfkc_basic label_right_below = None
  ∧ PrimFloat.ltb (x1 slash_label) (x0 near_right) = true
  ∧ PrimFloat.leb (abs (y_centre near_right - y_centre slash_label)) 3.0
    = true
  ∧ right_candidates label_right_below slash_label = []
  ∧ below_candidates label_right_below slash_label = [two_words_below]
  ∧ head (split_ws (normalize_token nfkc_basic (text two_words_below)))
    = Some (u "AB")
  ∧ try_extract_code_from_lines nfkc_basic label_right_below
    = Ok (Some (u "AB CD")).
Proof. split_and!; vm_compute; reflexivity. Qed.

(** C9: the cascade is total. Taking the first token of a candidate, the
    label strategies, the combined extraction and the extraction with the
    name fallback all return a value and never raise; a pattern that is
    not found yields no candidate; a line with nothing to find yields
    neither code nor name. *)
Theorem identifier_extraction_total (nfkc : str → str) (lines : list Line) :
  (∀ cand, ∃ token, right_token nfkc cand = Ok token)
  ∧ (∃ code, try_extract_code_from_lines nfkc lines = Ok code)
  ∧ (∃ code name,
       try_extract_code_and_name_from_lines nfkc lines = Ok (code, name))
  ∧ (∃ code name, extract_identifier nfkc lines = Ok (code, name))
  ∧ (∀ t,
       Forall (λ rx, re_search rx (normalize_token nfkc t) = None)
         CODE_LABEL_RES →
       try_extract_code_from_text nfkc t = Ok None)
  ∧ (Forall (λ ln, re_match re_line (normalize_token nfkc (text ln)) = None)
       lines →
     line_pattern_loop nfkc lines = Ok None)
  ∧ extract_identifier nfkc_basic [plain_line] = Ok (None, None).
Proof.
  split_and!.
  - intros cand. eexists. apply right_token_value.
  - eexists. apply try_extract_code_from_lines_value.
  - rewrite try_extract_code_and_name_value.
    destruct (cascade nfkc lines) as [c n]. eauto.
  - apply extract_identifier_ok.
  - intros t Hnone. unfold try_extract_code_from_text.
    induction Hnone as [|rx rxs Hrx _ IH]; [done|].
    cbn [code_label_loop]. by rewrite Hrx.
  - intros Hnone. induction Hnone as [|ln lns Hln _ IH]; [done|].
    cbn [line_pattern_loop]. by rewrite Hln.
  - vm_compute. reflexivity.
Qed.

(** C10: when the label ends one line and the value stands on the next,
    the inline strategy already returns that value, wherever the two
    lines lie on the page; a non-empty inline code is returned before the
    spatial strategy is consulted. *)
Theorem inline_match_crosses_lines (a b c d a' b' c' d' : float) :
  joined_text [mk_line (u "事務事業コード") a b c d;
               mk_line (u "X001") a' b' c' d']
  = u "事務事業コード" ++ NL ++ u "X001"
  ∧ inline_code nfkc_basic [mk_line (u "事務事業コード") a b c d;
                            mk_line (u "X001") a' b' c' d']
    = Some (u "X001")
  ∧ try_extract_code_from_lines nfkc_basic
      [mk_line (u "事務事業コード") a b c d; mk_line (u "X001") a' b' c' d']
    = Ok (Some (u "X001"))
  ∧ (∀ (nfkc : str → str) (lines : list Line),
       truthy (inline_code nfkc lines) = true →
       try_extract_code_from_lines nfkc lines = Ok (inline_code nfkc lines)).
Proof.
  assert (inline_code nfkc_basic [mk_line (u "事務事業コード") a b c d;
                                  mk_line (u "X001") a' b' c' d']
          = Some (u "X001")) as Hin by (vm_compute; reflexivity).
  split_and!.
  - vm_compute. reflexivity.
  - exact Hin.
  - rewrite try_extract_code_from_lines_value. unfold label_code.
    rewrite Hin. reflexivity.
  - intros nfkc lines Ht. rewrite try_extract_code_from_lines_value.
    unfold label_code. by rewrite Ht.
Qed.

(** ** Further properties of the text functions *)

(** A literal pattern matches where the subject starts with the literal. *)
Lemma rmatch_lits p : ∀ cs pos s k,
  rmatch (lits p) cs pos s k
  = if startswith p s
    then k cs (pos + length p)%nat (drop (length p) s)
    else None.
Proof.
  induction p as [|c p IH]; intros cs pos s k.
  - simpl. by rewrite Nat.add_0_r.
  - change (lits (c :: p)) with (Seq (Lit c) (lits p)).
    cbn [rmatch startswith length drop]. destruct s as [|c' s]; [done|].
    destruct (c =? c') eqn:E; simpl; [|done].
    rewrite IH.
    by replace (S pos + length p)%nat with (pos + S (length p))%nat by lia.
Qed.

(** Searching for a literal pattern is the substring test. *)
Lemma re_search_lits p s : matched (re_search (lits p) s) = contains p s.
Proof.
  unfold re_search. generalize 0%nat.
  induction s as [|b s IH]; intros pos; cbn [re_search_from contains];
    rewrite rmatch_lits; destruct (startswith p _); simpl; auto.
Qed.

(** X1: a page starts a sheet exactly when the text of one of its lines
    holds the marker [事務事業評価シート] somewhere. *)
Theorem is_sheet_start_iff (lines : list Line) :
  is_sheet_start lines = true
  ↔ ∃ ln pre suf,
      ln ∈ lines ∧ text ln = pre ++ u "事務事業評価シート" ++ suf.
Proof.
  unfold is_sheet_start, SHEET_START_RE. rewrite existsb_exists. split.
  - intros (ln & Hin%list_elem_of_In & Hm).
    rewrite re_search_lits in Hm. apply contains_spec in Hm as (pre & suf & E).
    eauto.
  - intros (ln & pre & suf & Hin & E). exists ln.
    split; [by apply list_elem_of_In|].
    rewrite re_search_lits. apply contains_spec. eauto.
Qed.

(** X2: a normalized token neither starts nor ends with a blank, whatever
    NFKC made of the text: stripping it again changes nothing. *)
Theorem normalize_token_stripped (nfkc : str → str) (s : str) :
  match head (normalize_token nfkc s) with
  | Some c => is_space c = false
  | None => True
  end
  ∧ match last (normalize_token nfkc s) with
    | Some c => is_space c = false
    | None => True
    end
  ∧ lstrip_by is_space (normalize_token nfkc s) = normalize_token nfkc s
  ∧ rstrip_by is_space (normalize_token nfkc s) = normalize_token nfkc s
  ∧ strip (normalize_token nfkc s) = normalize_token nfkc s.
Proof.
  unfold normalize_token.
  pose proof (strip_by_head is_space (nfkc s)) as Hh.
  pose proof (strip_by_last is_space (nfkc s)) as Hl.
  fold (strip (nfkc s)) in Hh, Hl. split_and!.
  - by destruct (strip (nfkc s)).
  - destruct (last (strip (nfkc s))) eqn:E; [by apply Hl|done].
  - by apply lstrip_by_id.
  - by apply rstrip_by_id.
  - apply strip_idemp.
Qed.

Lemma safe_filename_chars (nfkc : str → str) (s : str) :
  safe_filename nfkc s ≠ []
  ∧ (47 ∉ safe_filename nfkc s)
  ∧ (92 ∉ safe_filename nfkc s)
  ∧ strip_by (λ c, (c =? 32) || (c =? 46)) (safe_filename nfkc s)
    = safe_filename nfkc s.
Proof.
  unfold safe_filename.
  set (q := λ c : char, (c =? 32) || (c =? 46)).
  set (r := replace_char 92 45 (replace_char 47 45 (normalize_token nfkc s))).
  assert (∀ c, c ∈ r → c ≠ 47 ∧ c ≠ 92) as Hr.
  { intros c. unfold r, replace_char.
    intros (b & -> & (a & -> & _)%list_elem_of_fmap)%list_elem_of_fmap.
    destruct (a =? 47) eqn:Ea; simpl; [done|].
    apply N.eqb_neq in Ea.
    destruct (a =? 92) eqn:Eb; [done|]. apply N.eqb_neq in Eb. done. }
  pose proof (strip_by_idemp q r) as Hid.
  assert (∀ c, c ∈ strip_by q r → c ≠ 47 ∧ c ≠ 92) as Hs
    by (intros c ?%strip_by_elem; auto).
  destruct (strip_by q r) as [|a t].
  - split_and!; [done| | |done];
      intros Hin; vm_compute in Hin; set_solver.
  - split_and!; [done| | |done]; intros Hin; by destruct (Hs _ Hin).
Qed.

(** X3: a safe file name is never empty, holds neither a slash nor a
    backslash, and neither starts nor ends with a space or a dot. *)
Theorem safe_filename_safe (nfkc : str → str) (s : str) :
  safe_filename nfkc s ≠ []
  ∧ (47 ∉ safe_filename nfkc s)
  ∧ (92 ∉ safe_filename nfkc s)
  ∧ strip_by (λ c, (c =? 32) || (c =? 46)) (safe_filename nfkc s)
    = safe_filename nfkc s.
Proof. apply safe_filename_chars. Qed.

(** ** Further properties of the identifier extraction *)

Lemma first_nonempty_Some l t :
  first_nonempty l = Some t → t ∈ l ∧ t ≠ [].
Proof.
  unfold first_nonempty. intros H%head_Some_elem_of.
  apply list_elem_of_filter in H as [Hne Hin]. split; [done|].
  by intros ->.
Qed.

Lemma head_omap_Some {A B} (f : A → option B) l b :
  head (omap f l) = Some b → ∃ a, a ∈ l ∧ f a = Some b.
Proof.
  intros H%head_Some_elem_of. apply list_elem_of_omap in H as (a & ? & ?).
  eauto.
Qed.

(** X4: the code found by the label strategies is never the empty
    string: [try_extract_code_from_lines] returns a non-empty code or
    [None]. *)
Theorem label_code_nonempty (nfkc : str → str) (lines : list Line) :
  ∃ code,
    try_extract_code_from_lines nfkc lines = Ok code ∧ code ≠ Some [].
Proof.
  eexists. split; [apply try_extract_code_from_lines_value|].
  unfold label_code.
  destruct (inline_code nfkc lines) as [[|c cs]|] eqn:E; simpl; try done.
  - intros (ln & _ & Hs)%head_omap_Some. unfold spatial_at in Hs.
    destruct (first_nonempty (map (first_token nfkc) _)) eqn:E1.
    + injection Hs as ->. by apply first_nonempty_Some in E1 as [_ ?].
    + by apply first_nonempty_Some in Hs as [_ ?].
  - intros (ln & _ & Hs)%head_omap_Some. unfold spatial_at in Hs.
    destruct (first_nonempty (map (first_token nfkc) _)) eqn:E1.
    + injection Hs as ->. by apply first_nonempty_Some in E1 as [_ ?].
    + by apply first_nonempty_Some in Hs as [_ ?].
Qed.

(** A full match of a greedy repetition of a class: the subject is long
    enough and made of class members. *)
Lemma rep_fullmatch p s : ∀ lo pos,
  matched (rep p true
             (λ pos' s', match s' with [] => Some ([], pos') | _ => None end)
             lo pos s)
  = bool_decide (lo ≤ length s)%nat && forallb p s.
Proof.
  induction s as [|c s IH]; intros lo pos; cbn [rep forallb length].
  - destruct lo; [done|]. by rewrite bool_decide_false by lia.
  - destruct (p c) eqn:Ec; cbn [andb].
    + destruct lo as [|lo].
      * assert (∀ a : option rmatch_result, matched (or_else a None) = matched a)
          as -> by (by intros [?|]).
        rewrite IH. by rewrite !bool_decide_true by lia.
      * rewrite IH. f_equal. apply bool_decide_ext. lia.
    + destruct lo; [done|]. by rewrite andb_false_r.
Qed.

Lemma re_code_shape_fullmatch s :
  matched (re_fullmatch re_code_shape s)
  = bool_decide (4 ≤ length s)%nat && forallb cls_alnum s.
Proof. unfold re_fullmatch, re_code_shape. cbn [rmatch]. apply rep_fullmatch. Qed.

Lemma name_tokens_of_no_stop tokens t :
  t ∈ name_tokens_of tokens → (t ∉ BUSINESS_NAME_STOP_TOKENS) ∧ t ∈ tokens.
Proof.
  induction tokens as [|a tokens IH]; simpl; [by intros ?%elem_of_nil|].
  destruct (decide (a ∈ BUSINESS_NAME_STOP_TOKENS)) as [Ha|Ha].
  - rewrite bool_decide_true by done. by intros ?%elem_of_nil.
  - rewrite bool_decide_false by done.
    intros [->|Hin]%elem_of_cons.
    + split; [done|apply list_elem_of_here].
    + destruct (IH Hin). split; [done|by apply list_elem_of_further].
Qed.

(** X5: when the token split yields a code and a name, the code is the
    first token of a line, made of at least four ASCII letters and digits,
    and the name joins, with single spaces, at least one token of that
    line, none of which is a stop token. *)
Theorem token_split_shape (nfkc : str → str) (lines : list Line) :
  ∃ r, token_split_loop nfkc lines = Ok r
       ∧ match r with
         | None => True
         | Some (first, name) =>
           (4 ≤ length first)%nat
           ∧ forallb cls_alnum first = true
           ∧ ∃ ln name_tokens,
               ln ∈ lines
               ∧ head (re_split_runs cls_blank (normalize_token nfkc (text ln)))
                 = Some first
               ∧ name = join (u " ") name_tokens
               ∧ name_tokens ≠ []
               ∧ ∀ t, t ∈ name_tokens →
                      (t ∉ BUSINESS_NAME_STOP_TOKENS)
                      ∧ t ∈ re_split_runs cls_blank
                              (normalize_token nfkc (text ln))
         end.
Proof.
  eexists. split; [apply token_split_loop_value|].
  unfold token_split_code.
  destruct (head (omap _ lines)) as [[first name]|] eqn:E; [|done].
  apply head_omap_Some in E as (ln & Hin & Hsplit).
  unfold token_split_of in Hsplit.
  set (tokens := re_split_runs cls_blank (normalize_token nfkc (text ln))) in *.
  destruct (nonempty _ && _ && _ && _) eqn:Hc; [|done].
  injection Hsplit as <- <-.
  apply andb_true_iff in Hc as [Hc Hnt].
  apply andb_true_iff in Hc as [Hc Hshape].
  apply andb_true_iff in Hc as [_ Hlen].
  apply bool_decide_eq_true in Hnt, Hlen.
  rewrite re_code_shape_fullmatch in Hshape.
  apply andb_true_iff in Hshape as [Hl Hal]. apply bool_decide_eq_true in Hl.
  split_and!; [done..|].
  exists ln, (name_tokens_of (tail tokens)).
  fold tokens. clearbody tokens. split_and!; try done.
  - destruct tokens as [|t ts]; [simpl in Hlen; lia|done].
  - intros t [Hns Hint]%name_tokens_of_no_stop. split; [done|].
    destruct tokens as [|t0 ts]; [done|]. by apply list_elem_of_further.
Qed.

Lemma backfill_loop_Some nfkc lines t :
  backfill_loop nfkc lines = Some t →
  ∃ ln, ln ∈ lines ∧ t = normalize_token nfkc (text ln)
        ∧ (3 ≤ length t ≤ 40)%nat
        ∧ contains (u "事業") t = true
        ∧ contains (u "コード") t = false.
Proof.
  induction lines as [|ln lines IH]; [done|]. cbn [backfill_loop].
  set (n := normalize_token nfkc (text ln)).
  assert (backfill_loop nfkc lines = Some t →
          ∃ ln0, ln0 ∈ ln :: lines ∧ t = normalize_token nfkc (text ln0)
                 ∧ (3 ≤ length t ≤ 40)%nat
                 ∧ contains (u "事業") t = true
                 ∧ contains (u "コード") t = false) as IH'.
  { intros (ln0 & ? & ?)%IH. exists ln0.
    split; [by apply list_elem_of_further|done]. }
  destruct (nonempty n); cbn [negb]; [|done].
  destruct (contains (u "コード") n) eqn:Ec; [done|].
  destruct (bool_decide (3 ≤ length n)%nat) eqn:E3; cbn [andb]; [|done].
  destruct (bool_decide (length n ≤ 40)%nat) eqn:E40; cbn [andb]; [|done].
  destruct (contains (u "事業") n || endswith (u "事業") n) eqn:Ek; [|done].
  intros [= <-]. exists ln. apply bool_decide_eq_true in E3, E40.
  split_and!; try done; [apply list_elem_of_here|].
  destruct (contains (u "事業") n) eqn:Ecn; [done|]. simpl in Ek.
  unfold endswith in Ek. apply startswith_spec in Ek as [suf Hs].
  rewrite <- Ecn. apply contains_spec.
  exists (rev suf), []. rewrite app_nil_r.
  rewrite <- (rev_involutive n), Hs, rev_app_distr, rev_involutive. done.
Qed.

(** X6: the name fallback of [main] leaves the code of the cascade as it
    is and touches the name only when a code was found without a name; a
    name it fills in is the normalized text of one of the first 40 lines of
    the scan window, has between 3 and 40 characters, holds [事業] and does
    not hold [コード]. *)
Theorem name_backfill_spec (nfkc : str → str) (lines : list Line) :
  ∃ code name0 name,
    try_extract_code_and_name_from_lines nfkc lines = Ok (code, name0)
    ∧ extract_identifier nfkc lines = Ok (code, name)
    ∧ (name = name0
       ∨ truthy code = true ∧ truthy name0 = false
         ∧ ∃ ln t,
             ln ∈ take 40 lines ∧ name = Some t
             ∧ t = normalize_token nfkc (text ln)
             ∧ (3 ≤ length t ≤ 40)%nat
             ∧ contains (u "事業") t = true
             ∧ contains (u "コード") t = false).
Proof.
  unfold extract_identifier. rewrite try_extract_code_and_name_value.
  rewrite exc_bind_ok. destruct (cascade nfkc lines) as [c n0].
  destruct (truthy c && negb (truthy n0)) eqn:E.
  - apply andb_true_iff in E as [Hc Hn]. apply negb_true_iff in Hn.
    destruct (backfill_loop nfkc (take 40 lines)) as [t|] eqn:Eb.
    + exists c, n0, (Some t). split_and!; [done..|]. right.
      apply backfill_loop_Some in Eb as (ln & ? & ? & ? & ? & ?).
      split_and!; [done..|]. exists ln, t. done.
    + exists c, n0, n0. auto.
  - exists c, n0, n0. auto.
Qed.

(** ** Further properties of the line reconstruction and of the sections *)

Lemma clusters_from_length line_tol chars : ∀ first joined reference,
  (1 ≤ length (clusters_from line_tol first joined reference chars)
   ≤ 1 + length chars)%nat.
Proof.
  induction chars as [|ch chars IH]; intros first joined reference;
    cbn [clusters_from length]; [lia|].
  destruct (PrimFloat.leb _ _).
  - specialize (IH first (joined ++ [ch])
                  (reference * 0.7 + c_top ch * 0.3)%float). lia.
  - cbn [length]. specialize (IH ch [] (c_top ch)). lia.
Qed.

(** X7: a page never yields more lines than it has characters, and it
    yields no line exactly when it has no character. *)
Theorem extract_lines_count (line_tol gap_tol : float)
    (page_chars : list Character) :
  ∃ lines,
    extract_lines line_tol gap_tol page_chars = Ok lines
    ∧ (length lines ≤ length page_chars)%nat
    ∧ (lines = [] ↔ page_chars = []).
Proof.
  eexists. split; [apply extract_lines_reconstruct|].
  unfold reconstruct, sort_lines.
  pose proof (sort_by_length
                (λ a b, pair_ltb (c_top a, c_x0 a) (c_top b, c_x0 b))
                page_chars) as Hlen.
  fold (sort_chars page_chars) in Hlen.
  assert (∀ l : list Line, sort_by
            (λ a b, pair_ltb (y0 a, x0 a) (y0 b, x0 b)) l = [] ↔ l = [])
    as Hnil.
  { intros l. split; [apply sort_by_nil_inv|by intros ->]. }
  rewrite sort_by_length, length_map, Hnil.
  unfold clusters. destruct (sort_chars page_chars) as [|c cs].
  - destruct page_chars; [|done]. simpl. split; [lia|done].
  - pose proof (clusters_from_length line_tol cs c [] (c_top c)) as Hc.
    simpl in Hlen. split; [lia|].
    destruct (clusters_from line_tol c [] (c_top c) cs) eqn:E;
      [simpl in Hc; lia|].
    split; [done|]. intros ->. done.
Qed.

Section SectionsContent.
Variable HEADER_PATTERNS : list ((str → bool) * str).

#[local] Abbreviation hkey := (header_key HEADER_PATTERNS).

Lemma texts_elem lines t :
  t ∈ texts lines ↔ t ≠ [] ∧ ∃ ln, ln ∈ lines ∧ text ln = t.
Proof.
  unfold texts. rewrite list_elem_of_filter, list_elem_of_fmap.
  split.
  - intros [Hne (ln & -> & Hin)]. split; [by destruct (text ln)|eauto].
  - intros [Hne (ln & Hin & <-)]. split; [by destruct (text ln)|eauto].
Qed.

Lemma up_to_header_elem lines ln :
  ln ∈ up_to_header HEADER_PATTERNS lines → ln ∈ lines ∧ hkey ln = None.
Proof.
  induction lines as [|a lines IH]; cbn [up_to_header];
    [by intros ?%elem_of_nil|].
  destruct (hkey a) eqn:E; [by intros ?%elem_of_nil|].
  intros [->|Hin]%elem_of_cons.
  - split; [apply list_elem_of_here|done].
  - destruct (IH Hin). split; [by apply list_elem_of_further|done].
Qed.

Lemma blocks_elem lines b ln :
  b ∈ blocks HEADER_PATTERNS lines → ln ∈ b.2 →
  ln ∈ lines ∧ hkey ln = None.
Proof.
  induction lines as [|a lines IH]; cbn [blocks]; [by intros ?%elem_of_nil|].
  assert (b ∈ blocks HEADER_PATTERNS lines → ln ∈ b.2 →
          ln ∈ a :: lines ∧ hkey ln = None) as IH'.
  { intros Hb Hln. destruct (IH Hb Hln).
    split; [by apply list_elem_of_further|done]. }
  destruct (hkey a) eqn:E; [|done].
  intros [->|Hb]%elem_of_cons; [|by apply IH'].
  simpl. intros [? ?]%up_to_header_elem.
  split; [by apply list_elem_of_further|done].
Qed.

Lemma has_header_false_elem lines ln :
  has_header HEADER_PATTERNS lines = false → ln ∈ lines → hkey ln = None.
Proof.
  unfold has_header. intros Hf Hin.
  destruct (hkey ln) eqn:E; [|done].
  assert (existsb (λ ln, bool_decide (is_Some (hkey ln))) lines = true)
    as Ht; [|congruence].
  apply existsb_exists. exists ln. split; [by apply list_elem_of_In|].
  apply bool_decide_eq_true. rewrite E. by eexists.
Qed.

Lemma has_header_true_elem lines ln :
  ln ∈ lines → is_Some (hkey ln) → has_header HEADER_PATTERNS lines = true.
Proof.
  intros Hin Hk. apply existsb_exists. exists ln.
  split; [by apply list_elem_of_In|]. by apply bool_decide_eq_true.
Qed.

Lemma blocks_skip pre rest :
  Forall (λ ln, hkey ln = None) pre →
  blocks HEADER_PATTERNS (pre ++ rest) = blocks HEADER_PATTERNS rest.
Proof.
  induction 1 as [|a pre Ha _ IH]; [done|].
  cbn [app blocks]. by rewrite Ha.
Qed.

Lemma blocks_suffix pre rest b :
  b ∈ blocks HEADER_PATTERNS rest → b ∈ blocks HEADER_PATTERNS (pre ++ rest).
Proof.
  intros Hb. induction pre as [|a pre IH]; [done|].
  cbn [app blocks]. destruct (hkey a); [by apply list_elem_of_further|done].
Qed.

(** A line that is no header line stands before the first header line or
    in the block of a header line. *)
Lemma block_of_line lines ln :
  ln ∈ lines → hkey ln = None →
  ln ∈ up_to_header HEADER_PATTERNS lines
  ∨ ∃ b, b ∈ blocks HEADER_PATTERNS lines ∧ ln ∈ b.2.
Proof.
  intros Hin Hk.
  induction lines as [|a lines IH]; [by apply elem_of_nil in Hin|].
  cbn [up_to_header blocks].
  apply elem_of_cons in Hin as [->|Hin].
  - rewrite Hk. left. apply list_elem_of_here.
  - destruct (IH Hin) as [Hup|(b & Hb & Hln)].
    + destruct (hkey a) eqn:E.
      * right. eexists. split; [apply list_elem_of_here|done].
      * left. by apply list_elem_of_further.
    + right. exists b. split; [|done].
      destruct (hkey a); [by apply list_elem_of_further|done].
Qed.
End SectionsContent.

(** X8: whatever [find_sections] stores under a key is the non-empty text
    of a line that is not a header line: neither a header nor an empty text
    ever enters a section. *)
Theorem find_sections_content (HEADER_PATTERNS : list ((str → bool) * str))
    (all_lines : list Line) (key : str) (body : list str) (t : str) :
  dict_get key (find_sections HEADER_PATTERNS all_lines) = Some body →
  t ∈ body →
  t ≠ []
  ∧ ∃ ln, ln ∈ all_lines ∧ text ln = t
          ∧ header_key HEADER_PATTERNS ln = None.
Proof.
  rewrite find_sections_blocks.
  destruct (has_header HEADER_PATTERNS all_lines) eqn:E.
  - rewrite dict_get_fold_blocks. cbn [dict_get default from_option].
    set (bodies := map _ (filter _ (blocks HEADER_PATTERNS all_lines))).
    intros Hbody Ht.
    assert (t ∈ concat bodies) as (ts & Hts & Ht')%elem_of_concat_list.
    { destruct bodies; [done|]. injection Hbody as <-. exact Ht. }
    clear Ht. rename Ht' into Ht. subst bodies.
    apply list_elem_of_fmap in Hts as (b & -> & Hb).
    apply list_elem_of_filter in Hb as [_ Hb].
    apply texts_elem in Ht as [Hne (ln & Hln & <-)].
    split; [done|]. exists ln.
    destruct (blocks_elem _ _ _ _ Hb Hln). done.
  - cbn [dict_get]. destruct (str_eqb _ _); [|done].
    intros [= <-]. intros [Hne (ln & Hln & <-)]%texts_elem.
    split; [done|]. exists ln. split_and!; [done..|].
    by eapply has_header_false_elem.
Qed.

Lemma find_sections_content_witness :
  u "道路を整備する" ≠ []
  ∧ ∃ ln, ln ∈ [intro_line; plan_header; plan_body]
          ∧ text ln = u "道路を整備する"
          ∧ header_key plan_table ln = None.
Proof.
  apply (find_sections_content plan_table [intro_line; plan_header; plan_body]
           (u "plan") [u "道路を整備する"] (u "道路を整備する")).
  - vm_compute. reflexivity.
  - apply list_elem_of_here.
Defined.

(** X9: the lines before the first header line are dropped: they have no
    influence on the sections of a sheet that has a header line. *)
Theorem find_sections_drops_preamble
    (HEADER_PATTERNS : list ((str → bool) * str))
    (pre : list Line) (h : Line) (rest : list Line) :
  Forall (λ ln, header_key HEADER_PATTERNS ln = None) pre →
  is_Some (header_key HEADER_PATTERNS h) →
  find_sections HEADER_PATTERNS (pre ++ h :: rest)
  = find_sections HEADER_PATTERNS (h :: rest).
Proof.
  intros Hpre Hh. rewrite !find_sections_blocks.
  rewrite (has_header_true_elem _ (pre ++ h :: rest) h);
    [|apply elem_of_app; right; apply list_elem_of_here|done].
  rewrite (has_header_true_elem _ (h :: rest) h);
    [|apply list_elem_of_here|done].
  by rewrite blocks_skip.
Qed.

Lemma find_sections_drops_preamble_witness :
  find_sections plan_table ([intro_line] ++ plan_header :: [plan_body])
  = find_sections plan_table (plan_header :: [plan_body]).
Proof.
  apply (find_sections_drops_preamble plan_table [intro_line] plan_header
           [plan_body]).
  - constructor; [vm_compute; reflexivity|constructor].
  - exists (u "plan"). vm_compute. reflexivity.
Defined.

(** X10: a line with a non-empty text that follows a header line and is
    not a header line itself is kept: its text stands in some section. *)
Theorem find_sections_keeps_body
    (HEADER_PATTERNS : list ((str → bool) * str))
    (pre : list Line) (h : Line) (rest : list Line) (ln : Line) :
  is_Some (header_key HEADER_PATTERNS h) →
  ln ∈ rest →
  header_key HEADER_PATTERNS ln = None →
  text ln ≠ [] →
  ∃ key body,
    dict_get key (find_sections HEADER_PATTERNS (pre ++ h :: rest))
    = Some body
    ∧ text ln ∈ body.
Proof.
  intros [k0 Hh] Hin Hk Hne.
  rewrite find_sections_blocks.
  rewrite (has_header_true_elem _ (pre ++ h :: rest) h);
    [|apply elem_of_app; right; apply list_elem_of_here|by eexists].
  assert (∃ b, b ∈ blocks HEADER_PATTERNS (pre ++ h :: rest) ∧ ln ∈ b.2)
    as (b & Hb & Hln).
  { destruct (block_of_line HEADER_PATTERNS rest ln Hin Hk)
      as [Hup|(b & Hb & Hln)].
    - exists (k0, up_to_header HEADER_PATTERNS rest). split; [|done].
      apply blocks_suffix. cbn [blocks]. rewrite Hh. apply list_elem_of_here.
    - exists b. split; [|done].
      apply blocks_suffix. cbn [blocks]. rewrite Hh.
      by apply list_elem_of_further. }
  exists b.1. rewrite dict_get_fold_blocks. cbn [dict_get default from_option].
  assert (texts b.2 ∈ map (λ b0 : str * list Line, texts b0.2)
            (filter (λ b0 : str * list Line, b0.1 = b.1)
               (blocks HEADER_PATTERNS (pre ++ h :: rest)))) as Hbody.
  { apply list_elem_of_fmap. exists b. split; [done|].
    by apply list_elem_of_filter. }
  destruct (map _ (filter _ _)) as [|b0 bs] eqn:Eb;
    [by apply elem_of_nil in Hbody|].
  eexists. split; [done|]. cbn [app]. apply elem_of_concat_list.
  exists (texts b.2). split; [done|]. apply texts_elem. eauto.
Qed.

Lemma find_sections_keeps_body_witness :
  ∃ key body,
    dict_get key (find_sections plan_table ([intro_line] ++ plan_header :: [plan_body]))
    = Some body
    ∧ text plan_body ∈ body.
Proof.
  apply (find_sections_keeps_body plan_table [intro_line] plan_header
           [plan_body] plan_body).
  - exists (u "plan"). vm_compute. reflexivity.
  - apply list_elem_of_here.
  - vm_compute. reflexivity.
  - vm_compute. discriminate.
Defined.

(** ** Rendering *)

Lemma dict_get_Some_key key (secs : sections) body :
  dict_get key secs = Some body → key ∈ secs.*1.
Proof.
  induction secs as [|[k v] secs IH]; cbn [dict_get]; [done|].
  unfold str_eqb. destruct (decide (k = key)) as [->|Hne].
  - intros _. apply list_elem_of_here.
  - rewrite bool_decide_false by done. intros ?%IH.
    by apply list_elem_of_further.
Qed.

(** What a loop over keys appends: nothing or parts that begin with a
    heading, and every line of every key that has lines. *)
Lemma fold_write_keys mk secs keys : ∀ st,
  ∃ extra,
    foldl (write_key mk secs) st keys
    = (st.1 ++ extra, st.2 || bool_decide (extra ≠ []))
    ∧ (extra = [] ∨ ∃ name rest, extra = mk name :: rest)
    ∧ ∀ key body ln,
        key ∈ keys → dict_get key secs = Some body → ln ∈ body →
        ln ++ NL ∈ extra.
Proof.
  induction keys as [|k keys IH]; intros st.
  - exists []. split_and!.
    + cbn [foldl]. rewrite app_nil_r, bool_decide_false by (by intros ?).
      rewrite orb_false_r. by destruct st.
    + by left.
    + by intros ??? ?%elem_of_nil.
  - cbn [foldl]. unfold write_key at 2.
    destruct (dict_get k secs) as [[|b bs]|] eqn:E.
    + destruct (IH st) as (extra & -> & Hhead & Hkeep).
      exists extra. split_and!; [done..|].
      intros key body ln [->|Hin]%elem_of_cons Hget Hln; [|by eauto].
      rewrite E in Hget. injection Hget as <-. by apply elem_of_nil in Hln.
    + set (part := section_part (mk (heading_name k)) (b :: bs)).
      destruct (IH (st.1 ++ part, true)) as (extra & -> & Hhead & Hkeep).
      exists (part ++ extra). cbn [fst snd]. split_and!.
      * rewrite <- app_assoc. f_equal.
        rewrite (bool_decide_true (part ++ extra ≠ []))
          by (unfold part, section_part; done).
        by rewrite orb_true_r.
      * right. eexists _, _. reflexivity.
      * intros key body ln [->|Hin]%elem_of_cons Hget Hln.
        -- rewrite E in Hget. injection Hget as <-.
           apply elem_of_app. left. unfold part, section_part.
           apply list_elem_of_further, elem_of_app. left.
           apply list_elem_of_fmap. eauto.
        -- apply elem_of_app. right. eauto.
    + destruct (IH st) as (extra & -> & Hhead & Hkeep).
      exists extra. split_and!; [done..|].
      intros key body ln [->|Hin]%elem_of_cons Hget Hln; [|by eauto].
      rewrite E in Hget. done.
Qed.

(** The parts that follow [md]: they begin with a heading, and they hold
    every line of every section. *)
Lemma render_sections_parts mk secs md :
  ∃ name rest,
    render_sections mk secs md = md ++ mk name :: rest
    ∧ ∀ key body ln,
        dict_get key secs = Some body → ln ∈ body →
        ln ++ NL ∈ mk name :: rest.
Proof.
  unfold render_sections.
  destruct (fold_write_keys mk secs section_order (md, false))
    as (e1 & -> & Hh1 & Hk1).
  cbn [fst snd orb].
  set (others := filter (λ k, k ∉ section_order) (map fst secs)).
  destruct (fold_write_keys mk secs others
              (md ++ e1, bool_decide (e1 ≠ []))) as (e2 & -> & Hh2 & Hk2).
  cbn [fst snd].
  assert (∀ key body ln,
            dict_get key secs = Some body → ln ∈ body →
            ln ++ NL ∈ e1 ++ e2) as Hkeep.
  { intros key body ln Hget Hln. apply elem_of_app.
    destruct (decide (key ∈ section_order)) as [Hin|Hnin]; [left; eauto|].
    right. apply (Hk2 key body ln); [|done..].
    apply list_elem_of_filter. split; [done|].
    by eapply dict_get_Some_key. }
  destruct Hh1 as [->|(n1 & r1 & ->)].
  - rewrite bool_decide_false by (by intros ?). cbn [orb app] in *.
    rewrite app_nil_r.
    destruct Hh2 as [->|(n2 & r2 & ->)].
    + rewrite bool_decide_false by (by intros ?). rewrite app_nil_r.
      eexists _, _. split; [reflexivity|].
      intros key body ln Hget Hln.
      by destruct (proj1 (elem_of_nil _) (Hkeep key body ln Hget Hln)).
    + rewrite bool_decide_true by done.
      eexists _, _. split; [reflexivity|]. exact Hkeep.
  - rewrite bool_decide_true by done. cbn [orb].
    exists n1, (r1 ++ e2). split; [by rewrite <- app_assoc|]. exact Hkeep.
Qed.

Lemma elem_of_concat_parts {A} (x : list A) (l : list (list A)) :
  x ∈ l → ∃ pre suf, concat l = pre ++ x ++ suf.
Proof.
  intros (l1 & l2 & ->)%list_elem_of_split.
  exists (concat l1), (concat l2). by rewrite concat_app.
Qed.

(** What a loop over keys appends, exactly: the parts of the keys that
    hold a line, in the order of the keys. *)
Lemma fold_write_keys_exact mk secs keys : ∀ st,
  foldl (write_key mk secs) st keys
  = (st.1 ++ concat
               (map (λ k, section_part (mk (heading_name k))
                            (default [] (dict_get k secs)))
                  (filter (λ k, default [] (dict_get k secs) ≠ []) keys)),
     st.2 || bool_decide
               (filter (λ k, default [] (dict_get k secs) ≠ []) keys ≠ [])).
Proof.
  induction keys as [|k keys IH]; intros st.
  - cbn [foldl filter list_filter map concat].
    rewrite app_nil_r, bool_decide_false by (by intros ?).
    rewrite orb_false_r. by destruct st.
  - cbn [foldl]. rewrite IH, filter_cons. unfold write_key.
    destruct (dict_get k secs) as [[|b bs]|] eqn:E; cbn [default from_option id].
    + by rewrite decide_False by (by intros ?).
    + rewrite decide_True by done. cbn [fst snd map concat].
      rewrite <- app_assoc, E. cbn [default from_option id orb].
      by rewrite (bool_decide_true (k :: _ ≠ [])), orb_true_r by done.
    + by rewrite decide_False by (by intros ?).
Qed.

(** The rendering, exactly: the parts of the keys written or, when no key
    holds a line, the heading [本文] over the lines under [document]. *)
Lemma render_sections_exact mk secs md :
  render_sections mk secs md
  = md ++ match written_keys secs with
          | [] =>
            section_part (mk (u "本文"))
              (default [] (dict_get (u "document") secs))
          | ks =>
            concat (map (λ k, section_part (mk (heading_name k))
                                (default [] (dict_get k secs))) ks)
          end.
Proof.
  unfold render_sections, written_keys.
  rewrite !fold_write_keys_exact. cbn [fst snd orb].
  rewrite filter_app.
  set (a := filter _ section_order).
  set (b := filter _ (filter _ (map fst secs))).
  destruct a as [|k ks].
  - rewrite bool_decide_false by (by intros ?). cbn [orb concat map app].
    rewrite app_nil_r. destruct b as [|k ks].
    + rewrite bool_decide_false by (by intros ?). by rewrite app_nil_r.
    + by rewrite bool_decide_true by done.
  - rewrite bool_decide_true by done. cbn [orb].
    by rewrite <- app_assoc, <- concat_app, <- map_app.
Qed.

Lemma written_keys_nil secs :
  (∀ key body, dict_get key secs = Some body → body = []) →
  written_keys secs = [].
Proof.
  intros Hempty. unfold written_keys.
  induction (section_order ++ _) as [|k ks IH]; [done|].
  rewrite filter_cons, decide_False; [done|]. intros Hk. apply Hk.
  destruct (dict_get k secs) as [body|] eqn:E; [|done].
  by rewrite (Hempty k body E).
Qed.

(** X11: the text written for the sections is never empty: it begins with
    a heading, that of the first key, in the order of the rendering, that
    holds a line or, when no key holds a line, that of [本文]; in the text
    of a sheet the heading follows the title. *)
Theorem rendering_begins_with_heading (secs : sections) (title : str) :
  (∃ rest,
     write_sections_md secs = u "# " ++ first_heading secs ++ NL ++ rest)
  ∧ (∃ rest,
       sheet_markdown title secs
       = u "# " ++ title ++ NL ++ NL
           ++ u "## " ++ first_heading secs ++ NL ++ NL ++ rest)
  ∧ (∀ pre k post body,
       section_order ++ filter (λ k, k ∉ section_order) (map fst secs)
       = pre ++ k :: post →
       dict_get k secs = Some body → body ≠ [] →
       (∀ k', k' ∈ pre →
              dict_get k' secs = None ∨ dict_get k' secs = Some []) →
       first_heading secs = default k (assoc_get k section_names))
  ∧ ((∀ key body, dict_get key secs = Some body → body = []) →
     first_heading secs = u "本文"
     ∧ write_sections_md secs = u "# 本文" ++ NL ++ NL
     ∧ sheet_markdown title secs
       = u "# " ++ title ++ NL ++ NL ++ u "## 本文" ++ NL ++ NL ++ NL).
Proof.
  assert (∀ (mk : str → str) md,
            ∃ rest, render_sections mk secs md
                    = md ++ mk (first_heading secs) :: rest) as Hhead.
  { intros mk md. rewrite render_sections_exact. unfold first_heading.
    destruct (written_keys secs) as [|k ks]; eexists; reflexivity. }
  split_and!.
  - unfold write_sections_md.
    destruct (Hhead (λ name, u "# " ++ name ++ NL) []) as [rest ->].
    exists (concat rest). cbn [app concat]. by rewrite <- !app_assoc.
  - unfold sheet_markdown, md_parts.
    destruct (Hhead (λ name, u "## " ++ name ++ NL ++ NL)
                [u "# " ++ title ++ NL ++ NL]) as [rest ->].
    exists (concat rest). cbn [app concat]. by rewrite <- !app_assoc.
  - intros pre k post body Hkeys Hk Hbody Hpre.
    unfold first_heading, written_keys. rewrite Hkeys, filter_app.
    assert (filter (λ k, default [] (dict_get k secs) ≠ []) pre = []) as ->.
    { clear Hkeys. induction pre as [|k' pre IH]; [done|].
      rewrite filter_cons, decide_False.
      - apply IH. intros k'' Hin. by apply Hpre, list_elem_of_further.
      - intros Hk'. apply Hk'.
        by destruct (Hpre k' (list_elem_of_here _ _)) as [->| ->]. }
    rewrite filter_cons, decide_True by (by rewrite Hk). done.
  - intros Hempty. pose proof (written_keys_nil secs Hempty) as Hw.
    assert (default [] (dict_get (u "document") secs) = []) as Hdoc.
    { destruct (dict_get (u "document") secs) as [body|] eqn:E; [|done].
      by rewrite (Hempty _ body E). }
    unfold first_heading, write_sections_md, sheet_markdown, md_parts.
    rewrite !render_sections_exact, Hw, Hdoc.
    split_and!; [reflexivity..|].
    cbn [section_part map app concat]. rewrite app_nil_r.
    change (u "# " ++ title ++ NL ++ NL) with (35 :: 32 :: title ++ NL ++ NL).
    cbn [app]. do 2 f_equal. by rewrite <- !app_assoc.
Qed.

(** X12: rendering loses no line: every line of every section stands,
    followed by a newline, in the text written, for [write_sections_md]
    and for the text of a sheet. *)
Theorem rendering_keeps_lines (secs : sections) (title key : str)
    (body : list str) (ln : str) :
  dict_get key secs = Some body →
  ln ∈ body →
  contains (ln ++ NL) (write_sections_md secs) = true
  ∧ contains (ln ++ NL) (sheet_markdown title secs) = true.
Proof.
  intros Hget Hln. split; apply contains_spec.
  - unfold write_sections_md.
    destruct (render_sections_parts (λ name, u "# " ++ name ++ NL) secs [])
      as (name & rest & -> & Hkeep).
    apply elem_of_concat_parts. cbn [app]. eauto.
  - unfold sheet_markdown, md_parts.
    destruct (render_sections_parts
                (λ name, u "## " ++ name ++ NL ++ NL) secs
                [u "# " ++ title ++ NL ++ NL]) as (name & rest & -> & Hkeep).
    apply elem_of_concat_parts, elem_of_app. right. eauto.
Qed.

Lemma rendering_keeps_lines_witness :
  contains (u "道路を整備する" ++ NL)
    (write_sections_md [(u "plan", [u "道路を整備する"])]) = true
  ∧ contains (u "道路を整備する" ++ NL)
      (sheet_markdown (u "A") [(u "plan", [u "道路を整備する"])]) = true.
Proof.
  apply (rendering_keeps_lines [(u "plan", [u "道路を整備する"])] (u "A")
           (u "plan") [u "道路を整備する"] (u "道路を整備する")).
  - vm_compute. reflexivity.
  - apply list_elem_of_here.
Defined.

Lemma fold_order_document mk body st :
  foldl (write_key mk [(u "document", body)]) st section_order = st.
Proof. reflexivity. Qed.

Lemma others_document (body : list str) :
  filter (λ k, k ∉ section_order) (map fst [(u "document", body)])
  = [u "document"].
Proof. reflexivity. Qed.

Lemma dict_get_document (body : list str) :
  dict_get (u "document") [(u "document", body)] = Some body.
Proof. reflexivity. Qed.

(** X13: a sheet without any header line is written as its title, the
    heading [本文] and every non-empty line text, in order. *)
Theorem sheet_without_header_markdown
    (HEADER_PATTERNS : list ((str → bool) * str)) (title : str)
    (sheet_lines : list Line) :
  has_header HEADER_PATTERNS sheet_lines = false →
  sheet_markdown title (find_sections HEADER_PATTERNS sheet_lines)
  = (u "# " ++ title ++ NL ++ NL)
      ++ (u "## 本文" ++ NL ++ NL)
      ++ concat (map (λ t, t ++ NL) (texts sheet_lines)) ++ NL.
Proof.
  intros Hh.
  assert (find_sections HEADER_PATTERNS sheet_lines
          = [(u "document", texts sheet_lines)]) as ->
    by (by rewrite find_sections_blocks, Hh).
  unfold sheet_markdown, md_parts, render_sections.
  rewrite fold_order_document, others_document.
  cbn [foldl]. unfold write_key. rewrite !dict_get_document.
  assert (∀ body : list str,
            concat (map (λ ln, ln ++ NL) body ++ [NL])
            = concat (map (λ t, t ++ NL) body) ++ NL) as Hbody.
  { intros body. rewrite concat_app. cbn [concat]. by rewrite app_nil_r. }
  destruct (texts sheet_lines) as [|t ts]; cbn [fst snd default from_option].
  - reflexivity.
  - unfold section_part, id. cbn [concat app]. do 2 f_equal. apply Hbody.
Qed.

Lemma sheet_without_header_markdown_witness :
  sheet_markdown (u "A") (find_sections plan_table [intro_line])
  = (u "# " ++ u "A" ++ NL ++ NL)
      ++ (u "## 本文" ++ NL ++ NL)
      ++ concat (map (λ t, t ++ NL) (texts [intro_line])) ++ NL.
Proof.
  apply (sheet_without_header_markdown plan_table (u "A") [intro_line]).
  vm_compute. reflexivity.
Defined.

(** ** The loop over the sheets *)

Lemma py_item_ok {A} (l : list A) (p : Z) :
  (0 ≤ p < Z.of_nat (length l))%Z →
  ∃ a, l !! Z.to_nat p = Some a ∧ py_item l p = Ok a.
Proof.
  intros Hp. unfold py_item.
  destruct (p <? 0)%Z eqn:E1; [apply Z.ltb_lt in E1; lia|]. rewrite E1.
  destruct (l !! Z.to_nat p) as [a|] eqn:E; [eauto|].
  apply lookup_ge_None in E. lia.
Qed.

Lemma py_item_nil {A} (p : Z) : py_item (@nil A) p = Raise IndexError.
Proof.
  unfold py_item. cbn [length]. destruct (p <? 0)%Z eqn:E.
  - replace (Z.of_nat 0 + p)%Z with p by lia. by rewrite E.
  - rewrite E. done.
Qed.

(** The pages from [a] on, one after the other. *)
Lemma pages_loop (page_lines : list (list Line)) a m : ∀ j acc,
  (0 ≤ a)%Z →
  (Z.to_nat a + j + m ≤ length page_lines)%nat →
  for_each (λ (acc : list Line) p,
              lines ← py_item page_lines p; Ok (acc ++ lines))
    (map (λ i, (a + Z.of_nat i)%Z) (seq j m)) acc
  = Ok (acc ++ concat (take m (drop (Z.to_nat a + j) page_lines))).
Proof.
  induction m as [|m IH]; intros j acc Ha Hlen.
  - simpl. by rewrite app_nil_r.
  - cbn [seq map for_each].
    destruct (py_item_ok page_lines (a + Z.of_nat j)) as (x & Hx & ->); [lia|].
    rewrite exc_bind_ok, exc_bind_ok.
    rewrite IH by lia.
    replace (Z.to_nat (a + Z.of_nat j)) with (Z.to_nat a + j)%nat in Hx by lia.
    rewrite (drop_S _ _ _ Hx). cbn [take concat].
    replace (Z.to_nat a + S j)%nat with (S (Z.to_nat a + j)) by lia.
    by rewrite <- app_assoc.
Qed.

(** Within the document, the lines of the pages [a] to [b] are read
    without error. *)
Lemma lines_of_pages_ok page_lines a b :
  (0 ≤ a)%Z → (b < Z.of_nat (length page_lines))%Z →
  lines_of_pages page_lines a b
  = Ok (concat (take (Z.to_nat (b + 1 - a))
                  (drop (Z.to_nat a) page_lines))).
Proof.
  intros Ha Hb. unfold lines_of_pages, py_range.
  destruct (decide (b < a)%Z) as [Hlt|Hge].
  - by replace (Z.to_nat (b + 1 - a)) with 0%nat by lia.
  - rewrite pages_loop by lia. by rewrite Nat.add_0_r.
Qed.

Lemma lines_of_pages_empty page_lines a b :
  (b < a)%Z → lines_of_pages page_lines a b = Ok [].
Proof.
  intros Hb. unfold lines_of_pages, py_range.
  by replace (Z.to_nat (b + 1 - a)) with 0%nat by lia.
Qed.

Lemma ranges_bounds starts npages lo r :
  StronglySorted Z.lt starts →
  Forall (λ s, (lo ≤ s < npages)%Z) starts →
  r ∈ ranges starts npages →
  (lo ≤ r.1 ≤ r.2 ∧ r.2 < npages)%Z.
Proof.
  induction 1 as [|s rest Hs IH Hall]; [by intros _ ?%elem_of_nil|].
  intros [Hsb Hb]%Forall_cons. cbn [ranges].
  intros [->|Hr]%elem_of_cons; [|by apply IH].
  simpl. destruct rest as [|s' rest]; [lia|].
  apply Forall_cons in Hall as [Hss' _].
  apply Forall_cons in Hb as [Hs'b _]. lia.
Qed.

(** In a document with a page, every sheet range lies within the document
    and holds a page. *)
Lemma segment_bounds page_lines r :
  page_lines ≠ [] → r ∈ segment page_lines →
  (0 ≤ r.1 ≤ r.2 ∧ r.2 < Z.of_nat (length page_lines))%Z.
Proof.
  intros Hne. unfold segment. rewrite sheets_of_ranges.
  pose proof (sheet_starts_from_sorted page_lines 0) as Hs.
  assert (Forall (λ s, (0 ≤ s < Z.of_nat (length page_lines))%Z)
            (sheet_starts_from 0 page_lines)) as Hb.
  { apply Forall_forall. intros s Hin%sheet_starts_from_bounds. lia. }
  destruct (sheet_starts_from 0 page_lines) as [|s rest].
  - apply ranges_bounds.
    + repeat constructor.
    + constructor; [|constructor]. destruct page_lines; [done|]. simpl. lia.
  - by apply ranges_bounds.
Qed.

Lemma first_text_nonempty lines t : first_text lines = Some t → t ≠ [].
Proof.
  induction lines as [|ln lines IH]; [done|]. cbn [first_text].
  destruct (nonempty (strip (text ln))) eqn:E; [|done].
  intros [= <-]. by destruct (strip (text ln)).
Qed.

Lemma truthy_default o : truthy o = true → default [] o ≠ [].
Proof. by destruct o as [[|??]|]. Qed.

Lemma sheet_title_cases (page_lines : list (list Line)) (si : nat)
    (sidx : Z) (code biz_name : option str) :
  match sheet_title page_lines si sidx code biz_name with
  | Ok title => title ≠ []
  | Raise e =>
    truthy biz_name = false ∧ py_item page_lines sidx = Raise e
  end.
Proof.
  unfold sheet_title.
  destruct (truthy biz_name) eqn:Eb.
  - destruct (truthy code) eqn:Ec; cbn [andb].
    + intros [? _]%app_eq_nil. by apply (truthy_default code).
    + by apply truthy_default.
  - rewrite andb_false_r.
    destruct (py_item page_lines sidx) as [first_page|e]; [|done].
    rewrite exc_bind_ok.
    set (found := match first_page with [] => None | _ :: _ => _ end).
    destruct (truthy found) eqn:Et; [by apply truthy_default|].
    intros [H _]%app_eq_nil. vm_compute in H. done.
Qed.

(** X14: the title of a sheet is never empty, and computing it fails only
    when neither code and name nor a name alone give it and the start page
    is not a page of the document. *)
Theorem sheet_title_nonempty (page_lines : list (list Line)) (si : nat)
    (sidx : Z) (code biz_name : option str) :
  match sheet_title page_lines si sidx code biz_name with
  | Ok title => title ≠ []
  | Raise e =>
    truthy biz_name = false ∧ py_item page_lines sidx = Raise e
  end.
Proof. apply sheet_title_cases. Qed.

(** The scan window and the sheet, read from the pages of a range. *)
Lemma scan_window_split (page_lines : list (list Line))
    (code_scan_pages : Z) (r : Z * Z) :
  page_lines ≠ [] → r ∈ segment page_lines →
  ∃ sheet_lines candidate_lines rest,
    lines_of_pages page_lines r.1 r.2 = Ok sheet_lines
    ∧ lines_of_pages page_lines r.1 (Z.min (r.1 + code_scan_pages - 1) r.2)
      = Ok candidate_lines
    ∧ sheet_lines = candidate_lines ++ rest
    ∧ ((r.2 - r.1 + 1 ≤ code_scan_pages)%Z → rest = [])
    ∧ ((code_scan_pages ≤ 0)%Z → candidate_lines = []).
Proof.
  intros Hne Hr. destruct (segment_bounds _ _ Hne Hr) as [Hlo Hhi].
  destruct r as [a b]. cbn [fst snd] in *.
  set (b' := Z.min (a + code_scan_pages - 1) b).
  rewrite (lines_of_pages_ok page_lines a b) by lia.
  rewrite (lines_of_pages_ok page_lines a b') by lia.
  set (pages := drop (Z.to_nat a) page_lines).
  set (k := Z.to_nat (b + 1 - a)). set (k' := Z.to_nat (b' + 1 - a)).
  assert (k' ≤ k)%nat as Hk by lia.
  eexists _, _, (concat (drop k' (take k pages))). split_and!; [done..| | |].
  - rewrite <- concat_app. f_equal.
    rewrite <- (take_drop k' (take k pages)) at 1. f_equal.
    rewrite take_take. f_equal. lia.
  - intros Hc. replace k' with k by lia.
    rewrite drop_ge; [done|]. rewrite length_take. lia.
  - intros Hc. by replace k' with 0%nat by lia.
Qed.

(** X15: in a document with a page, the lines scanned for the identifier
    are a prefix of the lines of the sheet: they are all of them when the
    sheet has no more than [code_scan_pages] pages, and none when
    [code_scan_pages] is not positive. *)
Theorem scan_window_prefix (page_lines : list (list Line))
    (code_scan_pages : Z) (r : Z * Z) :
  page_lines ≠ [] → r ∈ segment page_lines →
  ∃ sheet_lines candidate_lines rest,
    lines_of_pages page_lines r.1 r.2 = Ok sheet_lines
    ∧ lines_of_pages page_lines r.1 (Z.min (r.1 + code_scan_pages - 1) r.2)
      = Ok candidate_lines
    ∧ sheet_lines = candidate_lines ++ rest
    ∧ ((r.2 - r.1 + 1 ≤ code_scan_pages)%Z → rest = [])
    ∧ ((code_scan_pages ≤ 0)%Z → candidate_lines = []).
Proof. apply scan_window_split. Qed.

Lemma scan_window_prefix_witness :
  ∃ sheet_lines candidate_lines rest,
    lines_of_pages cover_then_sheet 1 1 = Ok sheet_lines
    ∧ lines_of_pages cover_then_sheet 1 (Z.min (1 + 2 - 1) 1)
      = Ok candidate_lines
    ∧ sheet_lines = candidate_lines ++ rest
    ∧ ((1 - 1 + 1 ≤ 2)%Z → rest = [])
    ∧ ((2 ≤ 0)%Z → candidate_lines = []).
Proof.
  apply (scan_window_prefix cover_then_sheet 2 (1, 1)%Z).
  - discriminate.
  - assert (segment cover_then_sheet = [(1, 1)%Z]) as E
      by (vm_compute; reflexivity).
    rewrite E. apply list_elem_of_here.
Defined.

Section MainFacts.
Variable nfkc : str → str.
Variable HEADER_PATTERNS : list ((str → bool) * str).
Variables line_tol gap_tol : float.
Variable code_scan_pages : Z.
Variable out_dir : str.
Variable write_error : world → str → str → option error.
Variable print_error : world → str → option error.

#[local] Abbreviation body :=
  (sheet_body nfkc HEADER_PATTERNS code_scan_pages write_error print_error).
#[local] Abbreviation loop :=
  (sheets_loop nfkc HEADER_PATTERNS code_scan_pages write_error print_error).
#[local] Abbreviation run :=
  (main nfkc HEADER_PATTERNS line_tol gap_tol code_scan_pages out_dir
     write_error print_error).

(** The exception [e] is one with which the environment refuses a write
    or a print. *)
#[local] Abbreviation refused e :=
  ((∃ w n t, write_error w n t = Some e) ∨ (∃ w s, print_error w s = Some e)).




Lemma extract_identifier_nil :
  ∃ c, extract_identifier nfkc [] = Ok (c, None).
Proof.
  unfold extract_identifier. rewrite try_extract_code_and_name_value.
  rewrite exc_bind_ok.
  change (cascade nfkc []) with (label_code nfkc [], @None str).
  cbn [take backfill_loop]. exists (label_code nfkc []).
  by destruct (truthy _ && negb _).
Qed.


Lemma main_nil (w : world) : run [] w = Raise IndexError.
Proof.
  unfold main. cbn [page_lines_of]. rewrite exc_bind_ok.
  change (segment []) with [(0, -1)%Z].
  cbn [sheets_loop sheet_body].
  rewrite (lines_of_pages_empty [] 0 (-1)) by lia. rewrite exc_bind_ok.
  rewrite lines_of_pages_empty by lia. rewrite exc_bind_ok.
  destruct extract_identifier_nil as [c ->]. rewrite exc_bind_ok.
  unfold sheet_title. rewrite andb_false_r. cbn [truthy].
  by rewrite py_item_nil.
Qed.
End MainFacts.





(** X18: a run over a document without pages raises [IndexError],
    whatever the environment: the fallback range [(0, -1)] makes the title
    step read the first page of an empty list of pages, before anything
    is written. *)
Theorem main_files_empty_document (nfkc : str → str)
    (HEADER_PATTERNS : list ((str → bool) * str))
    (line_tol gap_tol : float) (code_scan_pages : Z) (out_dir : str)
    (write_error : world → str → str → option error)
    (print_error : world → str → option error) (w : world) :
  segment [] = [(0, -1)%Z]
  ∧ main nfkc HEADER_PATTERNS line_tol gap_tol code_scan_pages out_dir
      write_error print_error [] w
    = Raise IndexError.
Proof. split; [reflexivity|apply main_nil]. Qed.

Lemma uint_digits_range d c : c ∈ uint_digits d → 48 ≤ c ≤ 57.
Proof.
  induction d; simpl; try (by intros ?%elem_of_nil);
    intros [->|?]%elem_of_cons; auto; lia.
Qed.

Lemma base_name_of_safe nfkc si r :
  ∃ s, base_name_of nfkc si r = safe_filename nfkc s.
Proof.
  unfold base_name_of.
  destruct (truthy (code r)); [destruct (truthy (biz_name r))|]; eauto.
Qed.

Lemma file_name_of_plain nfkc s :
  (47 ∉ file_name_of (safe_filename nfkc s))
  ∧ (92 ∉ file_name_of (safe_filename nfkc s)).
Proof.
  destruct (safe_filename_chars nfkc s) as (_ & H47 & H92 & _).
  unfold file_name_of.
  split; intros [?|Hin]%elem_of_app; try done;
    vm_compute in Hin; set_solver.
Qed.

Lemma dup_file_name_plain nfkc s k :
  (47 ∉ dup_file_name (safe_filename nfkc s) k)
  ∧ (92 ∉ dup_file_name (safe_filename nfkc s) k).
Proof.
  destruct (safe_filename_chars nfkc s) as (_ & H47 & H92 & _).
  unfold dup_file_name, str_of_nat.
  split; intros [?|[Hin|[Hin|Hin]%elem_of_app]%elem_of_app]%elem_of_app;
    try done;
    try (apply uint_digits_range in Hin; lia);
    vm_compute in Hin; set_solver.
Qed.

(** X19: every file name given in a run is a plain name: it holds neither
    a slash nor a backslash, and it is a stem that is not empty followed by
    [.md]. *)
Theorem file_names_plain (nfkc : str → str) (si : nat)
    (sheets : list sheet_id) (used_names : gset str) :
  ∃ names,
    assign_names nfkc si sheets used_names = Some names
    ∧ ∀ fn, fn ∈ names →
        (47 ∉ fn) ∧ (92 ∉ fn)
        ∧ ∃ stem, stem ≠ [] ∧ fn = stem ++ u ".md".
Proof.
  destruct (assign_names_spec nfkc sheets si used_names)
    as (names & Hrun & Hlen & _ & _ & Hrule).
  exists names. split; [done|].
  intros fn (i & Hi)%list_elem_of_lookup.
  destruct (lookup_lt_is_Some_2 sheets i) as [r Hr].
  { rewrite <- Hlen. by eapply lookup_lt_Some. }
  specialize (Hrule i r fn Hr Hi).
  destruct (base_name_of_safe nfkc (si + i) r) as [s Hs].
  rewrite Hs in Hrule.
  destruct (safe_filename_chars nfkc s) as (Hne & _).
  destruct Hrule as [[_ ->]|(_ & k & _ & -> & _)].
  - destruct (file_name_of_plain nfkc s). split_and!; [done..|].
    exists (safe_filename nfkc s). done.
  - destruct (dup_file_name_plain nfkc s k). split_and!; [done..|].
    exists (safe_filename nfkc s ++ u "_" ++ str_of_nat k).
    split; [by intros [? _]%app_eq_nil|].
    unfold dup_file_name. by rewrite <- !app_assoc.
Qed.

Lemma ranges_length starts npages :
  length (ranges starts npages) = length starts.
Proof. induction starts as [|s rest IH]; simpl; [done|]. by rewrite IH. Qed.

Lemma sheet_starts_from_length page_lines : ∀ pidx,
  length (sheet_starts_from pidx page_lines)
  = length (filter (λ lines, is_sheet_start lines = true) page_lines).
Proof.
  induction page_lines as [|lines rest IH]; intros pidx; [done|].
  cbn [sheet_starts_from]. rewrite filter_cons, length_app, IH.
  destruct (is_sheet_start lines); [by rewrite decide_True|].
  by rewrite decide_False.
Qed.

(** X20: in a document with a page, every sheet range starts at a page of
    the document, ends at a page of the document and holds at least one
    page. *)
Theorem segment_ranges_within (page_lines : list (list Line)) (r : Z * Z) :
  page_lines ≠ [] → r ∈ segment page_lines →
  (0 ≤ r.1 ≤ r.2 ∧ r.2 < Z.of_nat (length page_lines))%Z.
Proof. apply segment_bounds. Qed.

Lemma segment_ranges_within_witness :
  (0 ≤ (1, 1).1 ≤ (1, 1).2 ∧ (1, 1).2 < Z.of_nat (length cover_then_sheet))%Z.
Proof.
  apply (segment_ranges_within cover_then_sheet (1, 1)%Z).
  - discriminate.
  - assert (segment cover_then_sheet = [(1, 1)%Z]) as E
      by (vm_compute; reflexivity).
    rewrite E. apply list_elem_of_here.
Defined.

(** X21: there are as many sheet ranges as pages that carry the marker,
    and one when no page carries it. *)
Theorem segment_count (page_lines : list (list Line)) :
  length (segment page_lines)
  = Nat.max 1
      (length (filter (λ lines, is_sheet_start lines = true) page_lines)).
Proof.
  unfold segment. rewrite sheets_of_ranges, ranges_length.
  rewrite <- (sheet_starts_from_length page_lines 0).
  destruct (sheet_starts_from 0 page_lines); simpl; lia.
Qed.
